(** * RouteSimply: the route-generation and sequencing engine

    A shallow embedding of the route generation code of the server
    (the helpers [calculateHaversineDistance], [kMeansClustering],
    [nearestNeighborOrdering], [calculateRouteDistance],
    [optimizeRouteWithGoogle], [generateGoogleMapsUrl] and the function
    [generateRoutesForDay]), followed by the properties the
    specification states about them.

    Conventions of the embedding.
    - A JavaScript number is an exact rational ([Q]); the comparisons and
      the arithmetic of the code are the rational ones, [Infinity] (only
      used as the initial value of a running minimum) is [None] in an
      [option Q], and [NaN] has no counterpart.  The time estimate of
      the local heuristic is the exception: there the rounding of the
      quotient and of the product to a double decides the minute that
      [Math.round] returns, so it is written out ([double]).
    - [null] and [undefined] are [None]; a field that TypeScript declares
      as present but that can be [undefined] at run time is an [option].
    - A statement that can raise a [TypeError] (a property read on
      [undefined]) is a computation in the [option] monad, [None] being
      the exception.
    - Lengths, indices, sequence numbers and the number of drivers are
      natural numbers.
    - [Math.sin], [Math.cos], [Math.sqrt], [Math.atan2] and [Math.PI] are
      parameters of the development; so are the environment of a
      generation: the API key, the routing provider, the identifiers drawn
      by [randomUUID], the work locations of the storage and the date.
      The calls to the storage return; logging is left out.

    The development goes on with the code around the engine: the
    handlers that move a stop between routes, create routes drawn by
    hand, refresh the coordinates of the stops, publish and unpublish
    routes and answer the request for the routes of a day, and the
    geocoding of locations in batches.  There the table of routes is a
    list of rows, read and updated by identifier, and the geocoding
    service is a parameter like the routing provider. *)

From Stdlib Require Import QArith Qround Qabs Lqa ZArith Ascii String.
From stdpp Require Import base list strings sorting.

#[local] Unset Default Proof Using.
#[local] Open Scope string_scope.
#[local] Open Scope list_scope.
#[local] Open Scope Q_scope.

(** ** Numbers *)

(** [x < bound], where [bound] is a number or [Infinity]. *)
Definition ltInf (x : Q) (bound : option Q) : bool :=
  match bound with
  | None => true
  | Some b => if Qlt_le_dec x b then true else false
  end.

(** [Math.round]: the nearest integer, a tie going up. *)
Definition Math_round (x : Q) : Z := Qfloor (x + (1 # 2)).

(** The nearest integer, a tie going to the even one. *)
Definition roundHalfEven (x : Q) : Z :=
  let f := Qfloor x in
  match Qcompare (x - inject_Z f) (1 # 2) with
  | Lt => f
  | Gt => (f + 1)%Z
  | Eq => if Z.even f then f else (f + 1)%Z
  end.

(** The exponent [e] of a positive number: [2 ^ e <= x < 2 ^ (e + 1)]. *)
Definition binade (x : Q) : Z :=
  let e := (Z.log2 (Qnum x) - Z.log2 (Z.pos (Qden x)))%Z in
  if Qlt_le_dec x (2 ^ e) then (e - 1)%Z else e.

(** The double nearest to [x], a tie going to the even significand: 53
    bits, the last of which weighs [2 ^ (e - 52)], and no less than
    [2 ^ -1074].  A number beyond the largest double has no counterpart
    ([Infinity]). *)
Definition double (x : Q) : Q :=
  match Qnum x with
  | Z0 => 0
  | _ =>
      let ulp := 2 ^ Z.max (binade (Qabs x) - 52) (-1074) in
      inject_Z (roundHalfEven (x / ulp)) * ulp
  end.

(** [Math.ceil(a / b)] on integers, for [b > 0]. *)
Definition Math_ceil_div (a b : Z) : Z := (- ((- a) / b))%Z.

(** [Math.round(x * 10) / 10]: one decimal. *)
Definition round1 (x : Q) : Q := inject_Z (Math_round (x * 10)) / 10.

(** [ToNumber] of a nullable number: [null] counts as 0 in arithmetic. *)
Definition num (o : option Q) : Q := default 0 o.

(** [x || undefined] on a nullable number: 0 is falsy. *)
Definition orUndefinedQ (o : option Q) : option Q :=
  match o with
  | Some q => if Qeq_bool q 0 then None else Some q
  | None => None
  end.

(** [s || undefined] on a nullable string: the empty string is falsy. *)
Definition orUndefinedS (o : option string) : option string :=
  match o with
  | Some s => if String.eqb s "" then None else Some s
  | None => None
  end.

(** ** Data *)

Module Location.
(** A row of the [locations] table (the columns the engine reads). *)
Record t := mk {
  id : string;
  address : string;
  customerName : string;
  serviceType : option string;
  notes : option string;
  lat : option Q;
  lng : option Q
}.
End Location.

Module WorkLocation.
(** A row of the [work_locations] table. *)
Record t := mk {
  id : string;
  name : string;
  address : string;
  lat : Q;
  lng : Q
}.
End WorkLocation.

Module RouteStop.
(** The interface [RouteStop].  The four fields that the interface
    declares as strings are [None] only in a stop copied from
    [undefined] (an index out of range in the provider's answer). *)
Record t := mk {
  id : option string;
  locationId : option string;
  address : option string;
  customerName : option string;
  serviceType : option string;
  notes : option string;
  lat : option Q;
  lng : option Q;
  sequence : nat
}.

(** [{ ...stop, sequence: n }] *)
Definition withSequence (stop : t) (n : nat) : t :=
  mk (id stop) (locationId stop) (address stop) (customerName stop)
     (serviceType stop) (notes stop) (lat stop) (lng stop) n.

(** [{ ...undefined, sequence: n }] *)
Definition ofUndefined (n : nat) : t :=
  mk None None None None None None None None n.
End RouteStop.

Module Centroid.
Record t := mk { lat : Q; lng : Q }.
End Centroid.

(** [loc.lat != null && loc.lng != null] *)
Definition hasCoords (lat lng : option Q) : bool :=
  match lat, lng with
  | Some _, Some _ => true
  | _, _ => false
  end.

Definition located (loc : Location.t) : bool :=
  hasCoords (Location.lat loc) (Location.lng loc).

(** ** Strings

    A string is the sequence of the UTF-8 bytes of the JavaScript
    string.  A JavaScript string with a lone surrogate has no UTF-8
    bytes, and no counterpart here: the text of the database never holds
    one; the body of a request can, and [encodeURIComponent] throws a
    [URIError] on it. *)

Definition inRange (lo hi : nat) (c : ascii) : bool :=
  ((lo <=? nat_of_ascii c) && (nat_of_ascii c <=? hi))%nat.

(** The characters [encodeURIComponent] leaves alone:
    [A-Z a-z 0-9 - _ . ! ~ * ' ( )]. *)
Definition isUnreserved (c : ascii) : bool :=
  inRange 65 90 c || inRange 97 122 c || inRange 48 57 c ||
  existsb (Ascii.eqb c) (list_ascii_of_string "-_.!~*'()").

Definition hexDigit (n : nat) : ascii :=
  nth n (list_ascii_of_string "0123456789ABCDEF") "0"%char.

(** [encodeURIComponent], on well-formed text: every other byte becomes
    [%XX]. *)
Fixpoint encodeURIComponent (s : string) : string :=
  match s with
  | EmptyString => EmptyString
  | String c rest =>
      if isUnreserved c then String c (encodeURIComponent rest)
      else
        String "%" (String (hexDigit (nat_of_ascii c / 16))
          (String (hexDigit (nat_of_ascii c mod 16)) (encodeURIComponent rest)))
  end.

(** The bytes are those of a well-formed text: a sequence of characters
    of one byte (00-7F), two (C2-DF and a tail byte 80-BF), three (E0
    A0-BF, E1-EC 80-BF, ED 80-9F or EE-EF 80-BF, and a tail byte) or
    four bytes (F0 90-BF, F1-F3 80-BF or F4 80-8F, and two tail bytes).
    ED A0-BF would begin a surrogate. *)
Fixpoint wellFormedText (s : string) : bool :=
  match s with
  | EmptyString => true
  | String a rest =>
      if inRange 0 127 a then wellFormedText rest
      else
        match rest with
        | String b rest1 =>
            if inRange 194 223 a && inRange 128 191 b then wellFormedText rest1
            else
              match rest1 with
              | String c rest2 =>
                  if (inRange 224 224 a && inRange 160 191 b
                      || inRange 225 236 a && inRange 128 191 b
                      || inRange 237 237 a && inRange 128 159 b
                      || inRange 238 239 a && inRange 128 191 b)
                     && inRange 128 191 c
                  then wellFormedText rest2
                  else
                    match rest2 with
                    | String d rest3 =>
                        if (inRange 240 240 a && inRange 144 191 b
                            || inRange 241 243 a && inRange 128 191 b
                            || inRange 244 244 a && inRange 128 143 b)
                           && inRange 128 191 c && inRange 128 191 d
                        then wellFormedText rest3
                        else false
                    | EmptyString => false
                    end
              | EmptyString => false
              end
        | EmptyString => false
        end
  end.

(** [ToString] of a value that may be [undefined]. *)
Definition toStringU (o : option string) : string := default "undefined" o.

(** [Array.prototype.join]. *)
Definition join (sep : string) (parts : list string) : string :=
  String.concat sep parts.

(** [s.replace(c, '')] for a one-character pattern: the first occurrence
    goes. *)
Fixpoint removeFirst (c : ascii) (s : string) : string :=
  match s with
  | EmptyString => EmptyString
  | String d rest => if Ascii.eqb c d then rest else String d (removeFirst c rest)
  end.

(** The white space and the line terminators of one byte: TAB, LF, VT,
    FF, CR and the space. *)
Definition isWhite (c : ascii) : bool := inRange 9 13 c || inRange 32 32 c.

Definition isByte (n : nat) (c : ascii) : bool := (nat_of_ascii c =? n)%nat.

(** U+00A0, in its two bytes. *)
Definition isWhite2 (c d : ascii) : bool := isByte 194 c && isByte 160 d.

(** U+1680, U+2000 to U+200A, U+2028, U+2029, U+202F, U+205F, U+3000
    and U+FEFF, in their three bytes. *)
Definition isWhite3 (c d e : ascii) : bool :=
  isByte 225 c && isByte 154 d && isByte 128 e
  || isByte 226 c && isByte 128 d
     && (inRange 128 138 e || isByte 168 e || isByte 169 e || isByte 175 e)
  || isByte 226 c && isByte 129 d && isByte 159 e
  || isByte 227 c && isByte 128 d && isByte 128 e
  || isByte 239 c && isByte 187 d && isByte 191 e.

(** The string without the white space it begins with. *)
Fixpoint skipWhite (s : string) : string :=
  match s with
  | EmptyString => EmptyString
  | String c rest =>
      if isWhite c then skipWhite rest
      else if inRange 0 127 c then s
      else
        match rest with
        | String d rest1 =>
            if isWhite2 c d then skipWhite rest1
            else
              match rest1 with
              | String e rest2 => if isWhite3 c d e then skipWhite rest2 else s
              | EmptyString => s
              end
        | EmptyString => s
        end
  end.

Definition digitValue (radix : nat) (c : ascii) : option nat :=
  let v :=
    if inRange 48 57 c then Some (nat_of_ascii c - 48)%nat
    else if inRange 97 122 c then Some (nat_of_ascii c - 87)%nat
    else if inRange 65 90 c then Some (nat_of_ascii c - 55)%nat
    else None in
  match v with
  | Some d => if (d <? radix)%nat then Some d else None
  | None => None
  end.

Fixpoint parseDigits (radix : nat) (s : string) (acc : option Z) : option Z :=
  match s with
  | EmptyString => acc
  | String c rest =>
      match digitValue radix c with
      | Some d =>
          parseDigits radix rest
            (Some (default 0 acc * Z.of_nat radix + Z.of_nat d)%Z)
      | None => acc
      end
  end.

(** [parseInt(s)] without a radix; [None] is [NaN]. *)
Definition parseInt (s : string) : option Z :=
  let s1 := skipWhite s in
  let '(sign, s2) :=
    match s1 with
    | String "-" r => ((-1)%Z, r)
    | String "+" r => (1%Z, r)
    | _ => (1%Z, s1)
    end in
  let '(radix, s3) :=
    match s2 with
    | String "0" (String "x" r) => (16%nat, r)
    | String "0" (String "X" r) => (16%nat, r)
    | _ => (10%nat, s2)
    end in
  match parseDigits radix s3 None with
  | Some z => Some (sign * z)%Z
  | None => None
  end.

Definition lowerAscii (c : ascii) : ascii :=
  if inRange 65 90 c then ascii_of_nat (nat_of_ascii c + 32) else c.

(** [toLowerCase], on the ASCII letters. *)
Fixpoint toLowerCase (s : string) : string :=
  match s with
  | EmptyString => EmptyString
  | String c rest => String (lowerAscii c) (toLowerCase rest)
  end.

(** [s || d]: the empty string and [undefined] are falsy. *)
Definition orElseS (o : option string) (d : string) : string :=
  match o with
  | Some s => if String.eqb s "" then d else s
  | None => d
  end.

(** [x || d] on numbers: 0 and [undefined] are falsy. *)
Definition orElseQ (o : option Q) (d : Q) : Q :=
  match o with
  | Some q => if Qeq_bool q 0 then d else q
  | None => d
  end.

(** The truth value of a [number | null]. *)
Definition truthyQ (o : option Q) : bool :=
  match o with
  | Some q => negb (Qeq_bool q 0)
  | None => false
  end.

(** [Math.ceil(n / k)] on counts, for [k > 0]. *)
Definition ceilRatio (n k : nat) : nat := ((n + k - 1) / k)%nat.

(** [l.slice(from, to)] for [0 <= from], [0 <= to]. *)
Definition slice {A} (from to : nat) (l : list A) : list A :=
  take (to - from) (drop from l).

(** [l.slice(1, -1)] *)
Definition sliceInner {A} (l : list A) : list A := slice 1 (length l - 1) l.

(** [l[idx]] for an integer index. *)
Definition lookupZ {A} (idx : Z) (l : list A) : option A :=
  if (idx <? 0)%Z then None else l !! Z.to_nat idx.

(** ** Effects

    [generateRoutesForDay] draws identifiers with [randomUUID] and calls
    the routing provider with [fetch].  The world counts both kinds of
    call; a computation returns a value or throws, and leaves a world. *)

Inductive Exc (A : Type) : Type :=
| Ok (a : A)
| Thrown.
Arguments Ok {A} a.
Arguments Thrown {A}.

Record World := mkWorld { uuids : nat; fetches : nat }.

Definition M (A : Type) : Type := World → Exc A * World.

#[local] Instance M_ret : MRet M := λ A a w, (Ok a, w).

#[local] Instance M_bind : MBind M := λ A B f m w,
  match m w with
  | (Ok a, w') => f a w'
  | (Thrown, w') => (Thrown, w')
  end.

Definition throw {A} : M A := λ w, (Thrown, w).

(** A step of the [option] monad inside [M]. *)
Definition liftOpt {A} (o : option A) : M A :=
  match o with
  | Some a => mret a
  | None => throw
  end.

(** [try { body } catch { handler }] *)
Definition tryCatch {A} (body handler : M A) : M A := λ w,
  match body w with
  | (Ok a, w') => (Ok a, w')
  | (Thrown, w') => handler w'
  end.

(** ** The routing provider *)

(** An element of [data.routes]. *)
Record GoogleRoute := mkGoogleRoute {
  distanceMeters : option Q;
  duration : option string;
  optimizedIntermediateWaypointIndex : option (list Z)
}.

(** The parsed body.  [BodyObject None] is a body without a [routes]
    member; a [null] element of [routes] is [None]. *)
Inductive Body :=
| BodyNull
| BodyObject (routes : option (list (option GoogleRoute))).

Record LatLng := mkLatLng { latitude : option Q; longitude : option Q }.

Record RequestBody := mkRequestBody {
  origin : LatLng;
  destination : LatLng;
  optimizeWaypointOrder : bool;
  intermediates : option (list LatLng)
}.

(** What [fetch] does: it rejects, or it resolves to a response with its
    [ok] flag and a body that [response.json()] parses ([Some]) or
    rejects ([None]). *)
Inductive FetchResult :=
| NetworkError
| Response (ok : bool) (body : option Body).

(** [GoogleRoutesOptimizationResult] *)
Record GoogleRoutesOptimizationResult := mkOptimization {
  optimizedStops : list RouteStop.t;
  totalDistanceKm : Q;
  estimatedTimeMinutes : Z
}.

(** ** Routes *)

Module Route.
(** What [storage.createRoute] is given. *)
Record t := mk {
  date : string;
  dayOfWeek : string;
  stopsJson : list RouteStop.t;
  routeLink : string;
  totalDistance : option Q;
  estimatedTime : option Z;
  status : string;
  stopCount : nat;
  driverId : option string;
  driverName : option string
}.
End Route.

(** [generateGoogleMapsUrl] *)
Definition generateGoogleMapsUrl (stops : list RouteStop.t) : string :=
  if (length stops =? 0)%nat then ""
  else
    let baseUrl := "https://www.google.com/maps/dir/" in
    let encodedAddresses :=
      map (λ stop, encodeURIComponent (toStringU (RouteStop.address stop))) stops in
    baseUrl +:+ join "/" encodedAddresses.

(** ** The table of routes *)

Module Row.
(** A row of the table [routes]. *)
Record t := mk {
  id : string;
  date : string;
  dayOfWeek : option string;
  driverId : option string;
  driverName : option string;
  driverColor : option string;
  stopsJson : option (list RouteStop.t);
  routeLink : option string;
  totalDistance : option Q;
  estimatedTime : option Z;
  status : string;
  stopCount : option nat
}.

(** [{ stopsJson: stops, stopCount: stops.length }] *)
Definition withStops (r : t) (stops : list RouteStop.t) : t :=
  mk (id r) (date r) (dayOfWeek r) (driverId r) (driverName r) (driverColor r)
     (Some stops) (routeLink r) (totalDistance r) (estimatedTime r) (status r)
     (Some (length stops)).

(** [{ status }] *)
Definition withStatus (r : t) (status : string) : t :=
  mk (id r) (date r) (dayOfWeek r) (driverId r) (driverName r) (driverColor r)
     (stopsJson r) (routeLink r) (totalDistance r) (estimatedTime r) status
     (stopCount r).

(** [{ stopsJson, routeLink, totalDistance, estimatedTime }] *)
Definition withRefresh (r : t) (stops : list RouteStop.t) (link : string)
    (distance : option Q) (time : option Z) : t :=
  mk (id r) (date r) (dayOfWeek r) (driverId r) (driverName r) (driverColor r)
     (Some stops) (Some link) distance time (status r) (stopCount r).
End Row.

(** [storage.getRoute]: the row of the identifier, the primary key. *)
Definition getRoute (id : string) (table : list Row.t) : option Row.t :=
  find (λ r, String.eqb (Row.id r) id) table.

(** [storage.updateRoute]: [UPDATE routes SET ... WHERE id = ...]. *)
Definition updateRoute (id : string) (set : Row.t → Row.t) (table : list Row.t)
    : list Row.t :=
  map (λ r, if String.eqb (Row.id r) id then set r else r) table.

(** ** Moving a stop between routes *)

(** The body of [POST /api/routes/move-stop]. *)
Record MoveStop := mkMoveStop {
  stopId : string;
  fromRouteId : string;
  toRouteId : string;
  newSequence : nat
}.

(** [moveStopSchema]: three strings that are not empty, and a sequence
    number of 1 or more. *)
Definition moveStopSchema (body : MoveStop) : bool :=
  negb (String.eqb (stopId body) "")
  && negb (String.eqb (fromRouteId body) "")
  && negb (String.eqb (toRouteId body) "")
  && (1 <=? newSequence body)%nat.

(** The answers of the handler: 400, the three 404, and 200 with the two
    rows as [updateRoute] returned them. *)
Inductive MoveReply :=
| MoveInvalid
| SourceNotFound
| TargetNotFound
| StopNotFound
| Moved (fromRoute toRoute : option Row.t).

(** [stops.forEach((stop, index) => { stop.sequence = index + 1 })] *)
Definition renumberAll (stops : list RouteStop.t) : list RouteStop.t :=
  imap (λ index stop, RouteStop.withSequence stop (index + 1)) stops.

(** [l.splice(index, 0, x)] for [index <= l.length]. *)
Definition insertAt {A} (index : nat) (x : A) (l : list A) : list A :=
  take index l ++ [x] ++ drop index l.

(** The handler, on the table of routes.  The two routes are read
    before anything is written, and each read gives objects of its
    own. *)
Definition moveStop (body : MoveStop) (table : list Row.t)
    : MoveReply * list Row.t :=
  if negb (moveStopSchema body) then (MoveInvalid, table)
  else
    match getRoute (fromRouteId body) table, getRoute (toRouteId body) table with
    | None, _ => (SourceNotFound, table)
    | Some _, None => (TargetNotFound, table)
    | Some fromRoute, Some toRoute =>
        let fromStops := default [] (Row.stopsJson fromRoute) in
        match list_find (λ s, RouteStop.id s = Some (stopId body)) fromStops with
        | None => (StopNotFound, table)
        | Some (stopIndex, movedStop) =>
            let fromStops := renumberAll (delete stopIndex fromStops) in
            let toStops := default [] (Row.stopsJson toRoute) in
            let insertIndex := Nat.min (newSequence body - 1) (length toStops) in
            let movedStop := RouteStop.withSequence movedStop (newSequence body) in
            let toStops := renumberAll (insertAt insertIndex movedStop toStops) in
            let table1 :=
              updateRoute (fromRouteId body) (λ r, Row.withStops r fromStops) table in
            let table2 :=
              updateRoute (toRouteId body) (λ r, Row.withStops r toStops) table1 in
            (Moved (getRoute (fromRouteId body) table1)
                   (getRoute (toRouteId body) table2),
             table2)
        end
    end.

(** ** Routes drawn by hand *)

Module ManualRoute.
(** An element of [routes] in the body of
    [POST /api/routes/create-manual]; the stops are given as route
    stops, their optional fields absent or [null]. *)
Record t := mk {
  dayOfWeek : string;
  scheduledDate : string;
  driverIndex : Q;
  stops : list RouteStop.t
}.
End ManualRoute.

(** [manualRouteStopSchema]: the four strings of a stop are there. *)
Definition manualRouteStopSchema (stop : RouteStop.t) : bool :=
  bool_decide (is_Some (RouteStop.id stop))
  && bool_decide (is_Some (RouteStop.locationId stop))
  && bool_decide (is_Some (RouteStop.address stop))
  && bool_decide (is_Some (RouteStop.customerName stop)).

(** [manualRouteSchema]: a day, a date and one stop or more. *)
Definition manualRouteSchema (routeInfo : ManualRoute.t) : bool :=
  negb (String.eqb (ManualRoute.dayOfWeek routeInfo) "")
  && negb (String.eqb (ManualRoute.scheduledDate routeInfo) "")
  && (1 <=? length (ManualRoute.stops routeInfo))%nat
  && forallb manualRouteStopSchema (ManualRoute.stops routeInfo).

(** [createManualRoutesSchema]: one route or more. *)
Definition createManualRoutesSchema (routeData : list ManualRoute.t) : bool :=
  (1 <=? length routeData)%nat && forallb manualRouteSchema routeData.

(** The answers of the handler: 400 for a body that is not valid, 400
    when no route was created, 201 with the routes. *)
Inductive ManualReply :=
| ManualInvalid
| ManualNothing
| ManualCreated (createdRoutes : list Route.t).

(** ** Publishing routes *)

(** The loop of [POST /api/routes/publish] over [routes], the rows
    [storage.getAllRoutes] returned. *)
Fixpoint publishRoutes (routes table : list Row.t) : list Row.t :=
  match routes with
  | [] => table
  | route :: rest =>
      if String.eqb (Row.status route) "assigned"
      then publishRoutes rest
             (updateRoute (Row.id route) (λ r, Row.withStatus r "published") table)
      else publishRoutes rest table
  end.

(** [date && route.date !== date], for the [date] of the query. *)
Definition otherDate (date : option string) (route : Row.t) : bool :=
  match date with
  | Some d => negb (String.eqb d "") && negb (String.eqb (Row.date route) d)
  | None => false
  end.

(** The loop of [POST /api/routes/unpublish], with [unpublishedCount]. *)
Fixpoint unpublishRoutes (date : option string) (routes table : list Row.t)
    (unpublishedCount : nat) : nat * list Row.t :=
  match routes with
  | [] => (unpublishedCount, table)
  | route :: rest =>
      if String.eqb (Row.status route) "published"
      then
        if otherDate date route
        then unpublishRoutes date rest table unpublishedCount
        else unpublishRoutes date rest
               (updateRoute (Row.id route) (λ r, Row.withStatus r "assigned") table)
               (S unpublishedCount)
      else unpublishRoutes date rest table unpublishedCount
  end.

(** ** Geocoding *)

Module InsertLocation.
(** [InsertLocation]: a row of [locations] to be, without identifier. *)
Record t := mk {
  address : string;
  customerName : string;
  serviceType : option string;
  notes : option string;
  lat : option Q;
  lng : option Q;
  uploadDate : option string;
  daysOfWeek : option (list string)
}.

(** [{ ...loc, lat, lng }] *)
Definition withCoords (loc : t) (lat lng : option Q) : t :=
  mk (address loc) (customerName loc) (serviceType loc) (notes loc) lat lng
     (uploadDate loc) (daysOfWeek loc).
End InsertLocation.

(** What a request to the geocoding service comes to: [GeocodeError]
    when [fetch] or [response.json()] rejects or the body is [null];
    otherwise the [status] of the body and its [results], an element of
    which is [None] when reading its [geometry.location.lat] throws, and
    the two coordinates of the location otherwise. *)
Inductive GeocodeAnswer :=
| GeocodeError
| GeocodeBody (status : option string)
              (results : option (list (option (option Q * option Q)))).

(** The requests sent to the geocoding service so far, and the calls of
    [delay] so far, with their durations in milliseconds. *)
Record GeoState := mkGeoState { requests : nat; delays : list Q }.

(** ** The request for the routes of a day *)

Module ScheduledLocation.
(** A row of the [locations] table with the days it is scheduled on. *)
Record t := mk {
  location : Location.t;
  daysOfWeek : option (list string)
}.
End ScheduledLocation.

Definition validDays : list string :=
  ["monday"; "tuesday"; "wednesday"; "thursday"; "friday"; "saturday"; "sunday"].

(** [loc.daysOfWeek && loc.daysOfWeek.includes(day)] *)
Definition scheduledOn (day : string) (loc : ScheduledLocation.t) : bool :=
  match ScheduledLocation.daysOfWeek loc with
  | Some days => existsb (String.eqb day) days
  | None => false
  end.

(** [!excludedLocationIds.includes(loc.id)] *)
Definition notExcluded (excludedLocationIds : list string) (loc : ScheduledLocation.t)
    : bool :=
  negb (existsb (String.eqb (Location.id (ScheduledLocation.location loc)))
                excludedLocationIds).

(** The answers of [POST /api/routes/generate] to a request that names
    a day: the five 400 and 201 with the routes. *)
Inductive GenerateReply :=
| BadDriverCount
| InvalidDay
| NoLocations
| NoneScheduled
| AllExcluded
| Generated (createdRoutes : list Route.t).

(** ** An instance for the examples

    Rational stand-ins for the [Math] functions, a provider that answers,
    one that does not, and a few locations. *)

Definition sampleSin (x : Q) : Q := x.
Definition sampleCos (x : Q) : Q := 1.
Definition sampleSqrt (x : Q) : Q := Qabs x.
Definition sampleAtan2 (y x : Q) : Q := Qabs y.
Definition samplePI : Q := 355 # 113.

Definition sampleUuid (n : nat) : string :=
  String (ascii_of_nat (97 + n mod 26)) EmptyString.

Definition sampleLocation (name : string) (lat lng : option Q) : Location.t :=
  Location.mk name (name +:+ " Main St, Baltimore") ("Customer " +:+ name)
    None None lat lng.

Definition locA : Location.t :=
  sampleLocation "A" (Some (3929 # 100)) (Some (- (7661 # 100))).
Definition locB : Location.t :=
  sampleLocation "B" (Some (3930 # 100)) (Some (- (7660 # 100))).
Definition locC : Location.t :=
  sampleLocation "C" (Some (3940 # 100)) (Some (- (7650 # 100))).
Definition locD : Location.t :=
  sampleLocation "D" (Some (3941 # 100)) (Some (- (7651 # 100))).
Definition locN (name : string) : Location.t := sampleLocation name None None.

(** The location of the fallback depot itself. *)
Definition locDepot : Location.t :=
  sampleLocation "Depot" (Some (3923128 # 100000)) (Some (- (7658923 # 100000))).

(** A provider that answers 10 km and 7 minutes, with the intermediate
    waypoints in reverse order. *)
Definition reversingProvider (n : nat) (request : RequestBody) : FetchResult :=
  Response true
    (Some (BodyObject (Some [Some (mkGoogleRoute (Some 10000) (Some "420s")
      (Some (Z.of_nat <$>
               reverse (seq 0 (length (default [] (intermediates request)))))))]))).

(** A provider that cannot be reached. *)
Definition silentProvider (n : nat) (request : RequestBody) : FetchResult :=
  NetworkError.

(** A stop with the coordinates and the sequence number to choose. *)
Definition sampleStop (lat lng : option Q) (sequence : nat) : RouteStop.t :=
  RouteStop.mk (Some "s") (Some "l") (Some "1 Main St") (Some "Customer")
    None None lat lng sequence.

(** A location on the equator. *)
Definition locEquator : Location.t :=
  sampleLocation "E" (Some 0) (Some (- (7660 # 100))).

(** A stop of the location [locationId], with its identifier and its
    sequence number to choose. *)
Definition sampleStopOf (id locationId : string) (sequence : nat) : RouteStop.t :=
  RouteStop.mk (Some id) (Some locationId) (Some "1 Main St") (Some "Customer")
    None None (Some 1) (Some 1) sequence.

(** A row of the table of routes. *)
Definition sampleRow (id status : string) (stops : list RouteStop.t) : Row.t :=
  Row.mk id "2026-01-05" (Some "monday") None None None (Some stops) None None None
    status (Some (length stops)).

Definition sampleTable : list Row.t :=
  [sampleRow "r1" "assigned" [sampleStopOf "s1" "A" 1; sampleStopOf "s2" "B" 2];
   sampleRow "r2" "draft" [sampleStopOf "s3" "C" 1]].

(** A depot in the storage. *)
Definition sampleWarehouse : WorkLocation.t :=
  WorkLocation.mk "w1" "Warehouse" "3700 Pennington Ave Baltimore, MD 21226"
    (3923 # 100) (- (7659 # 100)).

(** A route drawn by hand, of two stops. *)
Definition sampleManualRoute : ManualRoute.t :=
  ManualRoute.mk "monday" "2026-01-05" 0
    [sampleStopOf "s1" "A" 7; sampleStopOf "s2" "B" 9].

(** A geocoding service that always finds a place. *)
Definition sampleGeocoder (n : nat) (url : string) : GeocodeAnswer :=
  GeocodeBody (Some "OK") (Some [Some (Some (3929 # 100), Some (- (7661 # 100)))]).

Definition sampleInsertLocation (address : string) (lat lng : option Q)
    : InsertLocation.t :=
  InsertLocation.mk address "Customer" None None lat lng (Some "2026-01-05") None.

(** A location scheduled on some days. *)
Definition sampleScheduled (loc : Location.t) (days : list string)
    : ScheduledLocation.t :=
  ScheduledLocation.mk loc (Some days).

Section Engine.

(** The [Math] functions used by the distance function. *)
Variables (Math_sin Math_cos Math_sqrt : Q -> Q).
Variable Math_atan2 : Q -> Q -> Q.
Variable Math_PI : Q.

(** ** Distance function *)

Definition calculateHaversineDistance (lat1 lon1 lat2 lon2 : Q) : Q :=
  let R := 6371000 in
  let dLat := (lat2 - lat1) * (Math_PI / 180) in
  let dLon := (lon2 - lon1) * (Math_PI / 180) in
  let a :=
    Math_sin (dLat / 2) * Math_sin (dLat / 2) +
    Math_cos (lat1 * (Math_PI / 180)) *
      Math_cos (lat2 * (Math_PI / 180)) *
      Math_sin (dLon / 2) *
      Math_sin (dLon / 2) in
  let c := 2 * Math_atan2 (Math_sqrt a) (Math_sqrt (1 - a)) in
  R * c.

(** ** Geographic clusterer *)

(** The inner loop of the assignment: [c] is the index of the head of
    [cs], [minDist] and [closest] the running minimum and its index. *)
Fixpoint scanCentroids (lat lng : Q) (cs : list Centroid.t) (c : nat)
    (minDist : option Q) (closest : nat) : nat :=
  match cs with
  | [] => closest
  | cen :: rest =>
      let dist :=
        calculateHaversineDistance lat lng (Centroid.lat cen) (Centroid.lng cen) in
      if ltInf dist minDist
      then scanCentroids lat lng rest (S c) (Some dist) c
      else scanCentroids lat lng rest (S c) minDist closest
  end.

Definition closestCentroid (centroids : list Centroid.t) (loc : Location.t) : nat :=
  scanCentroids (num (Location.lat loc)) (num (Location.lng loc)) centroids 0 None 0.

(** The seeds: [k] locations at a stride of [floor(n / k)]. *)
Definition initCentroids (validLocations : list Location.t) (k : nat)
    : option (list Centroid.t) :=
  let step := (length validLocations / k)%nat in
  mapM (λ i,
          loc ← validLocations !! Nat.min (i * step) (length validLocations - 1);
          Some (Centroid.mk (num (Location.lat loc)) (num (Location.lng loc))))
       (seq 0 k).

(** The accumulator of the centroid update: sums and a count. *)
Record Acc := mkAcc { sumLat : Q; sumLng : Q; count : nat }.

Definition accAdd (loc : Location.t) (a : Acc) : Acc :=
  mkAcc (sumLat a + num (Location.lat loc))
        (sumLng a + num (Location.lng loc))
        (S (count a)).

(** [for i: newCentroids[assignments[i]].lat += ...]; [items] are the
    locations with their indices. *)
Fixpoint accumulate (items : list (nat * Location.t)) (assignments : list nat)
    (newCentroids : list Acc) : option (list Acc) :=
  match items with
  | [] => Some newCentroids
  | (i, loc) :: rest =>
      cluster ← assignments !! i;
      _ ← newCentroids !! cluster;
      accumulate rest assignments (alter (accAdd loc) cluster newCentroids)
  end.

(** [for c < k: if (newCentroids[c].count > 0) centroids[c] = mean]
    ([cs] are the indices still to visit).  [centroids] has [k] entries
    whenever this runs, so the assignment is in range. *)
Fixpoint recompute (cs : list nat) (newCentroids : list Acc)
    (centroids : list Centroid.t) : option (list Centroid.t) :=
  match cs with
  | [] => Some centroids
  | c :: rest =>
      a ← newCentroids !! c;
      if (0 <? count a)%nat
      then recompute rest newCentroids
             (<[c := Centroid.mk (sumLat a / inject_Z (Z.of_nat (count a)))
                                 (sumLng a / inject_Z (Z.of_nat (count a)))]> centroids)
      else recompute rest newCentroids centroids
  end.

Definition indexed {A} (l : list A) : list (nat * A) := imap (λ i x, (i, x)) l.

Definition updateCentroids (validLocations : list Location.t) (k : nat)
    (assignments : list nat) (centroids : list Centroid.t)
    : option (list Centroid.t) :=
  newCentroids ← accumulate (indexed validLocations) assignments
                   (replicate k (mkAcc 0 0 0));
  recompute (seq 0 k) newCentroids centroids.

(** The state of the refinement loop. *)
Record KState := mkKState {
  centroids : list Centroid.t;
  assignments : list nat
}.

(** [newAssignments.every((a, i) => a === assignments[i])] *)
Definition hasConverged (newAssignments assignments : list nat) : bool :=
  forallb (λ '(i, a), bool_decide (assignments !! i = Some a))
          (indexed newAssignments).

(** One pass of the loop body; the flag tells whether it ended in
    [break]. *)
Definition kMeansIteration (validLocations : list Location.t) (k : nat)
    (st : KState) : option (KState * bool) :=
  let newAssignments := map (closestCentroid (centroids st)) validLocations in
  if hasConverged newAssignments (assignments st)
  then Some (mkKState (centroids st) newAssignments, true)
  else
    cs ← updateCentroids validLocations k newAssignments (centroids st);
    Some (mkKState cs newAssignments, false).

(** [for (iter = 0; iter < maxIterations; iter++)], by the number of
    iterations left. *)
Fixpoint kMeansLoop (iterations : nat) (validLocations : list Location.t)
    (k : nat) (st : KState) : option KState :=
  match iterations with
  | O => Some st
  | S n =>
      '(st', stop) ← kMeansIteration validLocations k st;
      if stop : bool then Some st' else kMeansLoop n validLocations k st'
  end.

Definition maxIterations : nat := 20.

(** [for i: clusters[assignments[i]].push(validLocations[i])] *)
Fixpoint pushAll (items : list (nat * Location.t)) (assignments : list nat)
    (clusters : list (list Location.t)) : option (list (list Location.t)) :=
  match items with
  | [] => Some clusters
  | (i, loc) :: rest =>
      a ← assignments !! i;
      _ ← clusters !! a;
      pushAll rest assignments (alter (λ cl, cl ++ [loc]) a clusters)
  end.

Definition nonEmpty {A} (l : list A) : bool := (0 <? length l)%nat.

Definition kMeansClustering (locations : list Location.t) (k : nat)
    : option (list (list Location.t)) :=
  let validLocations := filter (λ loc, located loc = true) locations in
  if (length validLocations =? 0)%nat || (k <=? 0)%nat then Some []
  else if (length validLocations <=? k)%nat
  then Some (map (λ loc, [loc]) validLocations)
  else
    seeds ← initCentroids validLocations k;
    st ← kMeansLoop maxIterations validLocations k
           (mkKState seeds (replicate (length validLocations) 0%nat));
    clusters ← pushAll (indexed validLocations) (assignments st) (replicate k []);
    Some (filter (λ cluster, nonEmpty cluster = true) clusters).


(** ** Intra-cluster sequencer *)

Section Sequencer.

(** [T extends { lat: number | null; lng: number | null }] *)
Context {T : Type} (latOf lngOf : T → option Q).

(** The inner [for] loop: [i] is the index of the head of [rest]. *)
Fixpoint scanRemaining (current : T) (rest : list T) (i : nat)
    (nearestIdx : nat) (nearestDist : option Q) : nat :=
  match rest with
  | [] => nearestIdx
  | r :: rest' =>
      let dist :=
        calculateHaversineDistance
          (num (latOf current)) (num (lngOf current))
          (num (latOf r)) (num (lngOf r)) in
      if ltInf dist nearestDist
      then scanRemaining current rest' (S i) i (Some dist)
      else scanRemaining current rest' (S i) nearestIdx nearestDist
  end.

(** [while (remaining.length > 0)].  Each pass takes one element out
    of [remaining], so [length remaining] passes are enough; [fuel]
    counts the passes left.  A pass whose [splice] finds nothing would
    push [undefined] and fail on the next read of [current.lat]. *)
Fixpoint nnLoop (fuel : nat) (result remaining : list T) : option (list T) :=
  match remaining with
  | [] => Some result
  | _ :: _ =>
      match fuel with
      | O => None
      | S fuel' =>
          current ← last result;
          let nearestIdx := scanRemaining current remaining 0 0 None in
          picked ← remaining !! nearestIdx;
          nnLoop fuel' (result ++ [picked]) (delete nearestIdx remaining)
      end
  end.

Definition nearestNeighborOrdering (locations : list T) : option (list T) :=
  if (length locations <=? 1)%nat then Some locations
  else
    match locations with
    | [] => Some []
    | first :: remaining => nnLoop (length remaining) [first] remaining
    end.

(** The distance the sequencer compares. *)
Definition legDistance (a b : T) : Q :=
  calculateHaversineDistance (num (latOf a)) (num (lngOf a))
                             (num (latOf b)) (num (lngOf b)).

(** [r] is the first position of [l] at a minimal distance of
    [current]. *)
Definition firstNearest (current : T) (l : list T) (r : nat) : Prop :=
  ∃ x, l !! r = Some x
    ∧ ∀ j y, l !! j = Some y →
        legDistance current x <= legDistance current y
        ∧ ((j < r)%nat → legDistance current x < legDistance current y).

(** The walk over the positions of [input]: from position [c], with
    the positions [unvisited] left, the walk visits [order]. *)
Fixpoint greedyWalk (input : list T) (c : nat) (unvisited order : list nat)
    : Prop :=
  match order with
  | [] => unvisited = []
  | i :: order' =>
      i ∈ unvisited
      ∧ (∀ j current x y,
           j ∈ unvisited →
           input !! c = Some current → input !! i = Some x →
           input !! j = Some y →
           legDistance current x <= legDistance current y
           ∧ (legDistance current x == legDistance current y → (i <= j)%nat))
      ∧ greedyWalk input i (filter (λ j, j ≠ i) unvisited) order'
  end.

End Sequencer.

(** ** Distance estimator *)

(** The loop over consecutive pairs; [None] is the early [return null]. *)
Fixpoint sumLegs (stops : list RouteStop.t) (totalMeters : Q) : option Q :=
  match stops with
  | current :: ((next :: _) as rest) =>
      match RouteStop.lat current, RouteStop.lng current,
            RouteStop.lat next, RouteStop.lng next with
      | Some lat1, Some lng1, Some lat2, Some lng2 =>
          sumLegs rest (totalMeters + calculateHaversineDistance lat1 lng1 lat2 lng2)
      | _, _, _, _ => None
      end
  | _ => Some totalMeters
  end.

(** The result is [number | null]: [None] is [null]. *)
Definition calculateRouteDistance (stops : list RouteStop.t) : option Q :=
  if (length stops <? 2)%nat then Some 0
  else
    match sumLegs stops 0 with
    | Some totalMeters => Some (round1 (totalMeters / 1000))
    | None => None
    end.

(** ** External route optimizer adapter *)

(** [process.env.GOOGLE_MAPS_API_KEY] *)
Variable apiKey : option string.

(** The provider: what the [n]-th call of [fetch] does with a request. *)
Variable provider : nat → RequestBody → FetchResult.

(** [await fetch(...)], kept with its [ok] flag and its body. *)
Definition fetch (requestBody : RequestBody) : M (bool * option Body) := λ w,
  let w' := mkWorld (uuids w) (S (fetches w)) in
  match provider (fetches w) requestBody with
  | NetworkError => (Thrown, w')
  | Response ok body => (Ok (ok, body), w')
  end.

Definition latLngOf (stop : RouteStop.t) : LatLng :=
  mkLatLng (RouteStop.lat stop) (RouteStop.lng stop).

(** The duration, ["1234s"], in minutes. *)
Definition minutesOfDuration (duration : option string) : Z :=
  match duration with
  | Some durationStr =>
      if String.eqb durationStr "" then 0%Z
      else
        let seconds := default 0%Z (parseInt (removeFirst "s" durationStr)) in
        Math_ceil_div seconds 60
  | None => 0%Z
  end.

(** [optimizedStops.map((stop, index) => ({ ...stop, sequence: index + 1 }))] *)
Definition resequence (stops : list (option RouteStop.t)) : list RouteStop.t :=
  imap (λ index stop,
          match stop with
          | Some s => RouteStop.withSequence s (index + 1)
          | None => RouteStop.ofUndefined (index + 1)
          end) stops.

(** The request: the first stop is the origin, the last one the
    destination, those between the intermediate waypoints. *)
Definition requestBodyOf (origin destination : RouteStop.t)
    (intermediates : list RouteStop.t) : RequestBody :=
  mkRequestBody (latLngOf origin) (latLngOf destination)
    (0 <? length intermediates)%nat
    (if (0 <? length intermediates)%nat
     then Some (map latLngOf intermediates) else None).

(** The stops in the order of the answer: the origin, the intermediate
    stops picked by the indices of the answer (an index out of range
    picks [undefined]), the destination; the original order when there
    is nothing to reorder. *)
Definition reorderStops (stops : list RouteStop.t)
    (origin destination : RouteStop.t) (intermediates : list RouteStop.t)
    (route : GoogleRoute) : list (option RouteStop.t) :=
  match optimizedIntermediateWaypointIndex route with
  | Some indices =>
      if (0 <? length intermediates)%nat
      then [Some origin]
             ++ map (λ idx, lookupZ idx intermediates) indices
             ++ [Some destination]
      else map Some stops
  | None => map Some stops
  end.

(** The body of the [try] block. *)
Definition optimizeRouteBody (stops : list RouteStop.t)
    : M (option GoogleRoutesOptimizationResult) :=
  origin ← liftOpt (stops !! 0%nat);
  destination ← liftOpt (stops !! (length stops - 1)%nat);
  let intermediates := sliceInner stops in
  response ← fetch (requestBodyOf origin destination intermediates);
  data ← liftOpt (snd response);
  if negb (fst response) then mret None
  else
    match data with
    | BodyNull => throw
    | BodyObject None => mret None
    | BodyObject (Some []) => mret None
    | BodyObject (Some (route0 :: _)) =>
        route ← liftOpt route0;
        let distanceMeters := orElseQ (distanceMeters route) 0 in
        let totalDistanceKm := round1 (distanceMeters / 1000) in
        let estimatedTimeMinutes := minutesOfDuration (duration route) in
        let optimizedStops :=
          reorderStops stops origin destination intermediates route in
        mret (Some (mkOptimization (resequence optimizedStops)
                      totalDistanceKm estimatedTimeMinutes))
    end.

Definition optimizeRouteWithGoogle (stops : list RouteStop.t)
    : M (option GoogleRoutesOptimizationResult) :=
  if String.eqb (orElseS apiKey "") "" then mret None
  else if (length stops <? 2)%nat then mret None
  else
    let stopsWithCoords :=
      filter (λ s, hasCoords (RouteStop.lat s) (RouteStop.lng s) = true) stops in
    if negb (length stopsWithCoords =? length stops)%nat then mret None
    else tryCatch (optimizeRouteBody stops) (mret None).

(** ** Route assembly *)

(** [randomUUID()]: the identifier drawn at the [n]-th call. *)
Variable uuidOf : nat → string.

Definition randomUUID : M string := λ w,
  (Ok (uuidOf (uuids w)), mkWorld (S (uuids w)) (fetches w)).

(** [storage.getStartingPoint()] and [storage.getAllWorkLocations()] *)
Variable startingPoint : option WorkLocation.t.
Variable allWorkLocations : list WorkLocation.t.

(** [format(new Date(), "yyyy-MM-dd")] *)
Variable today : string.

Definition warehouse : option WorkLocation.t :=
  match startingPoint with
  | Some sp => Some sp
  | None =>
      find (λ wl, String.eqb (toLowerCase (WorkLocation.name wl)) "warehouse")
           allWorkLocations
  end.

(** The object [createWarehouseStop] builds, with [id] the identifier
    drawn for it. *)
Definition warehouseStop (id : string) (sequence : nat) (isStart : bool)
    : RouteStop.t :=
  RouteStop.mk
    (Some id)
    (Some (orElseS (WorkLocation.id <$> warehouse) "warehouse"))
    (Some (orElseS (WorkLocation.address <$> warehouse)
             "3700 Pennington Ave Baltimore, MD 21226"))
    (Some (if isStart
           then "Start: " +:+ orElseS (WorkLocation.name <$> warehouse) "Warehouse"
           else "End: " +:+ orElseS (WorkLocation.name <$> warehouse) "Warehouse"))
    None
    (Some (if isStart then "Load truck and begin route"
           else "Return to starting point"))
    (Some (orElseQ (WorkLocation.lat <$> warehouse) (3923128 # 100000)))
    (Some (orElseQ (WorkLocation.lng <$> warehouse) (- (7658923 # 100000))))
    sequence.

Definition createWarehouseStop (sequence : nat) (isStart : bool) : M RouteStop.t :=
  id ← randomUUID;
  mret (warehouseStop id sequence isStart).

(** The delivery stop of the location [loc] at position [index], with
    [id] the identifier drawn for it. *)
Definition deliveryStopOf (id : string) (index : nat) (loc : Location.t)
    : RouteStop.t :=
  RouteStop.mk
    (Some id)
    (Some (Location.id loc))
    (Some (Location.address loc))
    (Some (Location.customerName loc))
    (orUndefinedS (Location.serviceType loc))
    (orUndefinedS (Location.notes loc))
    (orUndefinedQ (Location.lat loc))
    (orUndefinedQ (Location.lng loc))
    (index + 2).

(** The callback of [map((loc, index) => ({ id: randomUUID(), ... }))]. *)
Definition deliveryStop (item : nat * Location.t) : M RouteStop.t :=
  id ← randomUUID;
  mret (deliveryStopOf id item.1 item.2).

(** [deliveryStops.forEach((stop, idx) => { stop.sequence = idx + 2 })] *)
Definition renumber (deliveryStops : list RouteStop.t) : list RouteStop.t :=
  imap (λ idx stop, RouteStop.withSequence stop (idx + 2)) deliveryStops.

(** The time estimate of the local heuristic,
    [totalDistance ? Math.round((totalDistance / 40) * 60) + n * 5 : n * 15].
    The distance the code holds is the double nearest to its decimal;
    the quotient and the product are doubles in their turn, and
    [Math.round] is applied to the latter: 41 km give 61 minutes on the
    road, where the exact product is 61.5. *)
Definition heuristicTime (totalDistance : option Q) (deliveries : nat) : Z :=
  if truthyQ totalDistance
  then (Math_round (double (double (double (num totalDistance) / 40) * 60))
        + Z.of_nat deliveries * 5)%Z
  else (Z.of_nat deliveries * 15)%Z.

Variable dayOfWeek : string.
Variable scheduledDate : option string.

Definition createRoute (stops : list RouteStop.t) (totalDistance : option Q)
    (estimatedTime : option Z) : M Route.t :=
  mret (Route.mk (orElseS scheduledDate today) dayOfWeek stops
          (generateGoogleMapsUrl stops) totalDistance estimatedTime
          "draft" (length stops) None None).

(** The body of the loop over the clusters. *)
Definition routeForCluster (cluster : list Location.t) : M Route.t :=
  orderedLocations ← liftOpt (nearestNeighborOrdering Location.lat Location.lng cluster);
  deliveryStops ← mapM deliveryStop (indexed orderedLocations);
  warehouseStart ← createWarehouseStop 1 true;
  warehouseEnd ← createWarehouseStop (length deliveryStops + 2) false;
  let fullRouteForOptimization := [warehouseStart] ++ deliveryStops ++ [warehouseEnd] in
  googleResult ← optimizeRouteWithGoogle fullRouteForOptimization;
  let deliveryStops :=
    match googleResult with
    | Some result => renumber (sliceInner (optimizedStops result))
    | None => deliveryStops
    end in
  finalWarehouseStart ← createWarehouseStop 1 true;
  finalWarehouseEnd ← createWarehouseStop (length deliveryStops + 2) false;
  let stops := [finalWarehouseStart] ++ deliveryStops ++ [finalWarehouseEnd] in
  match googleResult with
  | Some result =>
      createRoute stops (Some (totalDistanceKm result))
        (Some (estimatedTimeMinutes result))
  | None =>
      let totalDistance := calculateRouteDistance stops in
      createRoute stops totalDistance
        (Some (heuristicTime totalDistance (length deliveryStops)))
  end.

Fixpoint forClusters (clusters : list (list Location.t))
    (createdRoutes : list Route.t) : M (list Route.t) :=
  match clusters with
  | [] => mret createdRoutes
  | cluster :: rest =>
      if (length cluster =? 0)%nat then forClusters rest createdRoutes
      else
        route ← routeForCluster cluster;
        forClusters rest (createdRoutes ++ [route])
  end.

(** The body of the loop of the fallback. *)
Definition routeForBlock (routeLocations : list Location.t) : M Route.t :=
  deliveryStops ← mapM deliveryStop (indexed routeLocations);
  warehouseStart ← createWarehouseStop 1 true;
  warehouseEnd ← createWarehouseStop (length deliveryStops + 2) false;
  let fullRouteForOptimization := [warehouseStart] ++ deliveryStops ++ [warehouseEnd] in
  let stopsHaveCoords :=
    forallb (λ s, hasCoords (RouteStop.lat s) (RouteStop.lng s)) deliveryStops
    && hasCoords (RouteStop.lat warehouseStart) (RouteStop.lng warehouseStart) in
  googleResult ←
    (if stopsHaveCoords then optimizeRouteWithGoogle fullRouteForOptimization
     else mret None);
  let deliveryStops :=
    match googleResult with
    | Some result => renumber (sliceInner (optimizedStops result))
    | None => deliveryStops
    end in
  finalWarehouseStart ← createWarehouseStop 1 true;
  finalWarehouseEnd ← createWarehouseStop (length deliveryStops + 2) false;
  let stops := [finalWarehouseStart] ++ deliveryStops ++ [finalWarehouseEnd] in
  match googleResult with
  | Some result =>
      createRoute stops (Some (totalDistanceKm result))
        (Some (estimatedTimeMinutes result))
  | None =>
      if stopsHaveCoords
      then
        let totalDistance := calculateRouteDistance stops in
        createRoute stops totalDistance
          (Some (heuristicTime totalDistance (length deliveryStops)))
      else
        createRoute stops None (Some (Z.of_nat (length deliveryStops) * 15)%Z)
  end.

(** [for (let i = 0; i < driverCount; i++)]; [drivers] are the values of
    [i] still to visit, and the [break] ends the loop. *)
Fixpoint forDrivers (drivers : list nat) (dayLocations : list Location.t)
    (stopsPerDriver : nat) (createdRoutes : list Route.t) : M (list Route.t) :=
  match drivers with
  | [] => mret createdRoutes
  | i :: rest =>
      let startIndex := (i * stopsPerDriver)%nat in
      let endIndex := Nat.min (startIndex + stopsPerDriver) (length dayLocations) in
      if (length dayLocations <=? startIndex)%nat then mret createdRoutes
      else
        route ← routeForBlock (slice startIndex endIndex dayLocations);
        forDrivers rest dayLocations stopsPerDriver (createdRoutes ++ [route])
  end.

Definition generateRoutesForDay (dayLocations : list Location.t)
    (driverCount : nat) : M (list Route.t) :=
  let locationsWithCoords := filter (λ loc, located loc = true) dayLocations in
  let hasCoordinates :=
    (length locationsWithCoords =? length dayLocations)%nat
    && (0 <? length dayLocations)%nat in
  if hasCoordinates
  then
    clusters ← liftOpt (kMeansClustering dayLocations driverCount);
    forClusters clusters []
  else
    let stopsPerDriver := ceilRatio (length dayLocations) driverCount in
    forDrivers (seq 0 driverCount) dayLocations stopsPerDriver [].

(** ** Routes drawn by hand *)

(** The object [createWarehouseStop] of the handler builds: unlike the
    one of the generation it has no notes, and no coordinates unless
    there is a starting point or a warehouse. *)
Definition manualWarehouseStop (id : string) (sequence : nat) (isStart : bool)
    : RouteStop.t :=
  RouteStop.mk
    (Some id)
    (Some (orElseS (WorkLocation.id <$> warehouse) "warehouse"))
    (Some (orElseS (WorkLocation.address <$> warehouse)
             "3700 Pennington Ave Baltimore, MD 21226"))
    (Some (if isStart
           then "Start: " +:+ orElseS (WorkLocation.name <$> warehouse) "Warehouse"
           else "End: " +:+ orElseS (WorkLocation.name <$> warehouse) "Warehouse"))
    None
    None
    (WorkLocation.lat <$> warehouse)
    (WorkLocation.lng <$> warehouse)
    sequence.

Definition createManualWarehouseStop (sequence : nat) (isStart : bool)
    : M RouteStop.t :=
  id ← randomUUID;
  mret (manualWarehouseStop id sequence isStart).

(** The body of the loop over the routes of the request. *)
Definition manualRoute (routeInfo : ManualRoute.t) : M Route.t :=
  warehouseStart ← createManualWarehouseStop 1 true;
  let deliveryStops := renumber (ManualRoute.stops routeInfo) in
  warehouseEnd ← createManualWarehouseStop (length deliveryStops + 2) false;
  let allStops := [warehouseStart] ++ deliveryStops ++ [warehouseEnd] in
  let stopsHaveCoords :=
    forallb (λ s, hasCoords (RouteStop.lat s) (RouteStop.lng s)) allStops in
  let totalDistance :=
    if stopsHaveCoords then calculateRouteDistance allStops else None in
  let estimatedTime :=
    if stopsHaveCoords then heuristicTime totalDistance (length deliveryStops)
    else (Z.of_nat (length deliveryStops) * 15)%Z in
  let mapsUrl := generateGoogleMapsUrl allStops in
  mret (Route.mk (ManualRoute.scheduledDate routeInfo)
          (ManualRoute.dayOfWeek routeInfo) allStops mapsUrl
          totalDistance (Some estimatedTime) "draft" (length allStops) None None).

(** [POST /api/routes/create-manual] *)
Definition createManualRoutes (routeData : list ManualRoute.t) : M ManualReply :=
  if negb (createManualRoutesSchema routeData) then mret ManualInvalid
  else
    createdRoutes ← mapM manualRoute routeData;
    if (length createdRoutes =? 0)%nat then mret ManualNothing
    else mret (ManualCreated createdRoutes).

(** ** Refreshing the coordinates of the stops *)

(** [a !== b] for the coordinate of a stop and the coordinate of a
    location, a number or [null].  The coordinate of a stop is a number
    or nothing: [undefined], the key being absent, as in every stop
    that the generation, the creation by hand or a refresh builds
    ([loc.lat || undefined], [coords.lat ?? undefined]); [undefined]
    and [null] differ.  A stop in which a client has stored [null] for a
    coordinate is not told apart from these: for the code its [null]
    equals the [null] of a location.  The statements about what a
    refresh reports are about stops that hold a number where the
    location holds none, or that a refresh has written. *)
Definition coordDiffers (stopCoord locCoord : option Q) : bool :=
  match stopCoord, locCoord with
  | Some a, Some b => negb (Qeq_bool a b)
  | _, _ => true
  end.

(** [locationCoords.get(stop.locationId)]: the map holds, for an
    identifier, the coordinates of the last location that has it. *)
Definition locationCoords (locations : list Location.t) (locationId : option string)
    : option (option Q * option Q) :=
  id ← locationId;
  loc ← find (λ loc, String.eqb (Location.id loc) id) (reverse locations);
  Some (Location.lat loc, Location.lng loc).

(** [{ ...stop, lat, lng }] *)
Definition withCoords (stop : RouteStop.t) (lat lng : option Q) : RouteStop.t :=
  RouteStop.mk (RouteStop.id stop) (RouteStop.locationId stop)
    (RouteStop.address stop) (RouteStop.customerName stop)
    (RouteStop.serviceType stop) (RouteStop.notes stop) lat lng
    (RouteStop.sequence stop).

(** The callback of [stops.map]: the stop it returns, and whether it set
    [hasUpdates]. *)
Definition refreshStop (locations : list Location.t) (stop : RouteStop.t)
    : RouteStop.t * bool :=
  match locationCoords locations (RouteStop.locationId stop) with
  | Some (lat, lng) =>
      if coordDiffers (RouteStop.lat stop) lat || coordDiffers (RouteStop.lng stop) lng
      then (withCoords stop lat lng, true)
      else (stop, false)
  | None => (stop, false)
  end.

(** [updatedStops] and [hasUpdates]. *)
Definition refreshStops (locations : list Location.t) (stops : list RouteStop.t)
    : list RouteStop.t * bool :=
  (map (λ stop, (refreshStop locations stop).1) stops,
   existsb (λ stop, (refreshStop locations stop).2) stops).

(** What the handler writes for a route whose stops changed. *)
Record RouteRefresh := mkRouteRefresh {
  refreshedStops : list RouteStop.t;
  refreshedLink : string;
  refreshedDistance : option Q;
  refreshedTime : option Z
}.

(** The body of the loop over the routes; [None] when nothing is
    written. *)
Definition refreshRoute (locations : list Location.t) (route : Row.t)
    : M (option RouteRefresh) :=
  let stops := default [] (Row.stopsJson route) in
  let updatedStops := (refreshStops locations stops).1 in
  let hasUpdates := (refreshStops locations stops).2 in
  if hasUpdates
  then
    let mapsUrl := generateGoogleMapsUrl updatedStops in
    let stopsHaveCoords :=
      forallb (λ s, hasCoords (RouteStop.lat s) (RouteStop.lng s)) updatedStops in
    if stopsHaveCoords
    then
      googleResult ← optimizeRouteWithGoogle updatedStops;
      match googleResult with
      | Some result =>
          mret (Some (mkRouteRefresh updatedStops mapsUrl
                        (Some (totalDistanceKm result))
                        (Some (estimatedTimeMinutes result))))
      | None =>
          let totalDistance := calculateRouteDistance updatedStops in
          mret (Some (mkRouteRefresh updatedStops mapsUrl totalDistance
                        (Some (heuristicTime totalDistance (length updatedStops)))))
      end
    else mret (Some (mkRouteRefresh updatedStops mapsUrl None None))
  else mret None.

(** [for (const route of routes)], with the table of routes and
    [updatedCount]. *)
Fixpoint refreshRoutes (locations : list Location.t) (routes : list Row.t)
    (table : list Row.t) (updatedCount : nat) : M (nat * list Row.t) :=
  match routes with
  | [] => mret (updatedCount, table)
  | route :: rest =>
      refresh ← refreshRoute locations route;
      match refresh with
      | Some u =>
          refreshRoutes locations rest
            (updateRoute (Row.id route)
               (λ r, Row.withRefresh r (refreshedStops u) (refreshedLink u)
                       (refreshedDistance u) (refreshedTime u))
               table)
            (S updatedCount)
      | None => refreshRoutes locations rest table updatedCount
      end
  end.

(** ** Geocoding *)

(** The geocoding service: what the [n]-th request, for a URL, comes
    to. *)
Variable geocoder : nat → string → GeocodeAnswer.

Definition geocodeUrl (address key : string) : string :=
  "https://maps.googleapis.com/maps/api/geocode/json?address="
    +:+ encodeURIComponent address +:+ "&key=" +:+ key.

(** [geocodeAddress]; [n] counts the requests sent so far; [None] is
    [null]. *)
Definition geocodeAddress (address : string) (n : nat)
    : option (option Q * option Q) * nat :=
  if String.eqb (orElseS apiKey "") "" then (None, n)
  else
    match geocoder n (geocodeUrl address (orElseS apiKey "")) with
    | GeocodeError => (None, S n)
    | GeocodeBody status results =>
        if match status with Some s => String.eqb s "OK" | None => false end
        then
          match results with
          | Some (location :: _) => (location, S n)
          | _ => (None, S n)
          end
        else (None, S n)
    end.

(** The callback of [batch.map]. *)
Definition geocodeOne (loc : InsertLocation.t) (n : nat) : InsertLocation.t * nat :=
  if hasCoords (InsertLocation.lat loc) (InsertLocation.lng loc) then (loc, n)
  else
    match geocodeAddress (InsertLocation.address loc) n with
    | (Some coords, n') => (InsertLocation.withCoords loc coords.1 coords.2, n')
    | (None, n') => (loc, n')
    end.

(** [Promise.all(batch.map(...))]: the requests leave in the order of
    the batch, and the results come in that order. *)
Fixpoint geocodeAll (batch : list InsertLocation.t) (n : nat)
    : list InsertLocation.t * nat :=
  match batch with
  | [] => ([], n)
  | loc :: rest =>
      let geocoded := geocodeOne loc n in
      let others := geocodeAll rest geocoded.2 in
      (geocoded.1 :: others.1, others.2)
  end.

(** [for (let i = 0; i < locations.length; i += batchSize)]; [fuel]
    counts the passes left, and [None] is a loop that does not end. *)
Fixpoint geocodeLoop (fuel : nat) (locations : list InsertLocation.t)
    (batchSize : nat) (delayMs : Q) (i : nat) (results : list InsertLocation.t)
    (st : GeoState) : option (list InsertLocation.t * GeoState) :=
  if (i <? length locations)%nat
  then
    match fuel with
    | O => None
    | S fuel' =>
        let batch := slice i (i + batchSize) locations in
        let geocodedBatch := geocodeAll batch (requests st) in
        let results := results ++ geocodedBatch.1 in
        let st :=
          if (i + batchSize <? length locations)%nat
          then mkGeoState geocodedBatch.2 (delays st ++ [delayMs])
          else mkGeoState geocodedBatch.2 (delays st) in
        geocodeLoop fuel' locations batchSize delayMs (i + batchSize) results st
    end
  else Some (results, st).

(** [geocodeBatch]; a pass of the loop moves on by [batchSize], so
    [locations.length] passes are enough when [batchSize] is 1 or
    more. *)
Definition geocodeBatch (locations : list InsertLocation.t) (batchSize : nat)
    (delayMs : Q) (st : GeoState) : option (list InsertLocation.t * GeoState) :=
  geocodeLoop (length locations) locations batchSize delayMs 0 [] st.

(** ** The request for the routes of a day *)

(** [POST /api/routes/generate] for a request that names a day.  The
    day of the request enters in lower case, as [targetDay], the day the
    engine is given: it is [dayOfWeek] here, and [scheduledDate] is the
    date of the request; [driverCount] is an integer, and
    [excludedLocationIds] what the storage holds for the date.  A
    request without a day asks for the routes of all the days, one call
    of the engine for each: it is [None] here.  The handler clears the
    stored routes of the date, or of the day, before it generates: like
    the writes of the generation this is left out. *)
Definition generateForDay (driverCount : Z)
    (allLocations : list ScheduledLocation.t) (excludedLocationIds : list string)
    : option (M GenerateReply) :=
  if String.eqb dayOfWeek "" then None
  else Some (
    if (driverCount =? 0)%Z || (driverCount <? 1)%Z || (10 <? driverCount)%Z
    then mret BadDriverCount
    else if negb (existsb (String.eqb dayOfWeek) validDays) then mret InvalidDay
    else if (length allLocations =? 0)%nat then mret NoLocations
    else
      let dayLocations :=
        filter (λ loc, scheduledOn dayOfWeek loc = true) allLocations in
      if (length dayLocations =? 0)%nat then mret NoneScheduled
      else if negb (String.eqb (orElseS scheduledDate "") "")
      then
        let dayLocations :=
          if (0 <? length excludedLocationIds)%nat
          then filter (λ loc, notExcluded excludedLocationIds loc = true) dayLocations
          else dayLocations in
        if (length dayLocations =? 0)%nat then mret AllExcluded
        else
          routes ← generateRoutesForDay
                     (ScheduledLocation.location <$> dayLocations)
                     (Z.to_nat driverCount);
          mret (Generated routes)
      else
        routes ← generateRoutesForDay
                   (ScheduledLocation.location <$> dayLocations)
                   (Z.to_nat driverCount);
        mret (Generated routes)).

(** ** Notions used in the statements *)

Definition sumQ (l : list Q) : Q := foldr Qplus 0 l.

(** The members of cluster [c]: the locations whose assignment is [c]. *)
Definition membersOf (validLocations : list Location.t) (assignments : list nat)
    (c : nat) : list Location.t :=
  snd <$> filter (λ item, assignments !! item.1 = Some c) (indexed validLocations).

(** The arithmetic mean of a coordinate over a list of locations. *)
Definition meanOf (coord : Location.t → option Q) (ms : list Location.t) : Q :=
  sumQ ((λ m, num (coord m)) <$> ms) / inject_Z (Z.of_nat (length ms)).

(** The state the refinement starts from. *)
Definition initialState (validLocations : list Location.t)
    (seeds : list Centroid.t) : KState :=
  mkKState seeds (replicate (length validLocations) 0%nat).

(** Items whose assignment exists and is the index of a cluster. *)
Definition inRangeItems {A B} (items : list (nat * A)) (assignments : list nat)
    (slots : list B) : Prop :=
  ∀ i x, (i, x) ∈ items →
    ∃ a, assignments !! i = Some a ∧ (a < length slots)%nat.

(** The members of [c] among some items. *)
Definition membersAmong (items : list (nat * Location.t)) (assignments : list nat)
    (c : nat) : list Location.t :=
  snd <$> filter (λ item, assignments !! item.1 = Some c) items.

(** The mean a non-empty accumulator stands for. *)
Definition meanOfAcc (a : Acc) : Centroid.t :=
  Centroid.mk (sumLat a / inject_Z (Z.of_nat (count a)))
              (sumLng a / inject_Z (Z.of_nat (count a))).

(** What every state of the refinement satisfies. *)
Definition wellFormed (validLocations : list Location.t) (k : nat) (st : KState)
    : Prop :=
  length (centroids st) = k
  ∧ length (assignments st) = length validLocations
  ∧ Forall (λ a, a < k)%nat (assignments st).

(** How one centroid changes in an iteration that ends in [stop]. *)
Definition centroidRule (validLocations : list Location.t) (st st' : KState)
    (stop : bool) (c : nat) : Prop :=
  ∃ old new,
    centroids st !! c = Some old ∧ centroids st' !! c = Some new
    ∧ (membersOf validLocations (assignments st') c = [] → new = old)
    ∧ (stop = true → new = old)
    ∧ (stop = false → membersOf validLocations (assignments st') c ≠ [] →
         Centroid.lat new ==
           meanOf Location.lat (membersOf validLocations (assignments st') c)
         ∧ Centroid.lng new ==
           meanOf Location.lng (membersOf validLocations (assignments st') c)).

Definition stopHasCoords (s : RouteStop.t) : bool :=
  hasCoords (RouteStop.lat s) (RouteStop.lng s).

(** The Haversine distances of the consecutive pairs of a stop list. *)
Fixpoint legs (stops : list RouteStop.t) : list Q :=
  match stops with
  | a :: ((b :: _) as rest) =>
      calculateHaversineDistance
        (num (RouteStop.lat a)) (num (RouteStop.lng a))
        (num (RouteStop.lat b)) (num (RouteStop.lng b)) :: legs rest
  | _ => []
  end.

(** Some consecutive pair lacks a latitude or a longitude. *)
Definition pairLacksCoords (stops : list RouteStop.t) : Prop :=
  ∃ i s t, stops !! i = Some s ∧ stops !! S i = Some t
    ∧ (stopHasCoords s = false ∨ stopHasCoords t = false).

(** The preconditions of the call hold: the adapter runs its [try]. *)
Definition callAttempted (stops : list RouteStop.t) : Prop :=
  orElseS apiKey "" ≠ ""
  ∧ (2 <= length stops)%nat
  ∧ Forall (λ s, stopHasCoords s = true) stops.

(** The answers of the provider that the adapter turns into
    "unavailable": a rejected [fetch], a response that is not [ok], a
    body that is not JSON or is [null], a body without routes, with an
    empty list of routes, or with [null] as its first route. *)
Definition failedAnswer (answer : FetchResult) : Prop :=
  answer = NetworkError
  ∨ (∃ body, answer = Response false body)
  ∨ (∃ ok, answer = Response ok None)
  ∨ (∃ ok, answer = Response ok (Some BodyNull))
  ∨ (∃ ok, answer = Response ok (Some (BodyObject None)))
  ∨ (∃ ok, answer = Response ok (Some (BodyObject (Some []))))
  ∨ (∃ ok rest, answer = Response ok (Some (BodyObject (Some (None :: rest))))).

(** The delivery stops built from [items], the identifiers being drawn
    from the [u]-th on. *)
Fixpoint builtFrom (items : list (nat * Location.t)) (u : nat) : list RouteStop.t :=
  match items with
  | [] => []
  | item :: rest => deliveryStopOf (uuidOf u) item.1 item.2 :: builtFrom rest (S u)
  end.

(** The list handed to the optimizer for the locations [locs], when the
    assembly starts in the world [w], and the world at that call. *)
Definition candidateOf (locs : list Location.t) (w : World) : list RouteStop.t :=
  [warehouseStop (uuidOf (uuids w + length locs)) 1 true]
    ++ builtFrom (indexed locs) (uuids w)
    ++ [warehouseStop (uuidOf (uuids w + length locs + 1)) (length locs + 2) false].

Definition worldAtCall (locs : list Location.t) (w : World) : World :=
  mkWorld (uuids w + length locs + 2) (fetches w).

(** The final stop list around the delivery stops [deliveries]. *)
Definition finalStops (deliveries : list RouteStop.t) (u : nat) : list RouteStop.t :=
  [warehouseStop (uuidOf u) 1 true]
    ++ deliveries
    ++ [warehouseStop (uuidOf (S u)) (length deliveries + 2) false].

(** The route assembled for [locs] from the world [w], the optimizer
    having returned [g] and the final depot stops taking the
    identifiers from the [u]-th on. *)
Definition routeWith (locs : list Location.t) (w : World)
    (g : option GoogleRoutesOptimizationResult) (u : nat) : Route.t :=
  match g with
  | Some result =>
      let stops := finalStops (renumber (sliceInner (optimizedStops result))) u in
      Route.mk (orElseS scheduledDate today) dayOfWeek stops
        (generateGoogleMapsUrl stops)
        (Some (totalDistanceKm result)) (Some (estimatedTimeMinutes result))
        "draft" (length stops) None None
  | None =>
      let stops := finalStops (builtFrom (indexed locs) (uuids w)) u in
      Route.mk (orElseS scheduledDate today) dayOfWeek stops
        (generateGoogleMapsUrl stops)
        (calculateRouteDistance stops)
        (Some (heuristicTime (calculateRouteDistance stops) (length locs)))
        "draft" (length stops) None None
  end.

(** [r] is the route assembled for the locations [locs]. *)
Definition generatedFrom (locs : list Location.t) (r : Route.t) : Prop :=
  ∃ w g w2,
    optimizeRouteWithGoogle (candidateOf locs w) (worldAtCall locs w) = (Ok g, w2)
    ∧ r = routeWith locs w g (uuids w2).

(** The block of the [i]-th driver. *)
Definition blockAt {A} (stopsPerDriver i : nat) (l : list A) : list A :=
  take stopsPerDriver (drop (i * stopsPerDriver) l).

(** [hasCoordinates] of [generateRoutesForDay]. *)
Definition hasCoordinates (dayLocations : list Location.t) : bool :=
  (length (filter (λ loc, located loc = true) dayLocations) =? length dayLocations)%nat
  && (0 <? length dayLocations)%nat.

(** The stop [s] is the delivery stop of the location [loc], whatever
    its identifier and its sequence number. *)
Definition deliveryOf (loc : Location.t) (s : RouteStop.t) : Prop :=
  ∃ id, s = RouteStop.withSequence (deliveryStopOf id 0 loc) (RouteStop.sequence s).

(** The provider answers with indices of intermediate waypoints of the
    request. *)
Definition indicesInRange : Prop :=
  ∀ n request ok route routes indices,
    provider n request = Response ok (Some (BodyObject (Some (Some route :: routes)))) →
    optimizedIntermediateWaypointIndex route = Some indices →
    Forall (λ idx, (0 <= idx < Z.of_nat (length (default [] (intermediates request))))%Z)
           indices.

(** The metrics of [r] are the local ones, the optimizer having given
    none. *)
Definition localMetrics (r : Route.t) (deliveries : nat) : Prop :=
  Route.totalDistance r = calculateRouteDistance (Route.stopsJson r)
  ∧ Route.estimatedTime r = Some (heuristicTime (Route.totalDistance r) deliveries).

(** The metrics of [r] are those of a result of the optimizer. *)
Definition optimizerMetrics (r : Route.t) : Prop :=
  ∃ stops w result w',
    optimizeRouteWithGoogle stops w = (Ok (Some result), w')
    ∧ Route.totalDistance r = Some (totalDistanceKm result)
    ∧ Route.estimatedTime r = Some (estimatedTimeMinutes result).

(** The route [r] is the route of the block [block]: its stops are the
    depot, delivery stops, the depot; unless the optimizer gave a result
    the delivery stops are those of the block, in its order, and the
    metrics are the local ones; a block with a stop without coordinates
    has no distance and the flat time. *)
Definition servesBlock (block : list Location.t) (r : Route.t) : Prop :=
  ∃ startId endId deliveries,
    Route.stopsJson r
    = [warehouseStop startId 1 true] ++ deliveries
        ++ [warehouseStop endId (length deliveries + 2) false]
    ∧ (optimizerMetrics r
       ∨ (localMetrics r (length block) ∧ Forall2 deliveryOf block deliveries))
    ∧ ((∃ loc, loc ∈ block ∧ located loc = false) →
         Forall2 deliveryOf block deliveries
         ∧ Route.totalDistance r = None
         ∧ Route.estimatedTime r = Some (15 * Z.of_nat (length block))%Z).

(** ** Notions used in the further statements *)

(** The distance the clusterer compares. *)
Definition centroidDistance (loc : Location.t) (cen : Centroid.t) : Q :=
  calculateHaversineDistance (num (Location.lat loc)) (num (Location.lng loc))
                             (Centroid.lat cen) (Centroid.lng cen).

(** The centroid of index [c] is the nearest to [loc] among [cs], and
    the first such one: none is at a smaller distance, and those of a
    smaller index are farther. *)
Definition nearestCentroid (cs : list Centroid.t) (loc : Location.t) (c : nat) : Prop :=
  ∃ cen, cs !! c = Some cen
    ∧ ∀ j cen', cs !! j = Some cen' →
        centroidDistance loc cen <= centroidDistance loc cen'
        ∧ ((j < c)%nat → centroidDistance loc cen < centroidDistance loc cen').

(** The provider answers with a permutation of the indices of the
    intermediate waypoints of the request. *)
Definition indicesPermute : Prop :=
  ∀ n request ok route routes indices,
    provider n request = Response ok (Some (BodyObject (Some (Some route :: routes)))) →
    optimizedIntermediateWaypointIndex route = Some indices →
    indices ≡ₚ Z.of_nat <$> seq 0 (length (default [] (intermediates request))).

(** A stop without its sequence number. *)
Definition unsequenced (s : RouteStop.t) : RouteStop.t := RouteStop.withSequence s 0.

(** The route [r] is assembled for the locations [locs] from the world
    [w], and the assembly leaves the world [w']. *)
Definition tracedRoute (locs : list Location.t) (r : Route.t) (w w' : World) : Prop :=
  ∃ g w2,
    optimizeRouteWithGoogle (candidateOf locs w) (worldAtCall locs w) = (Ok g, w2)
    ∧ r = routeWith locs w g (uuids w2)
    ∧ w' = mkWorld (uuids w2 + 2) (fetches w2).

(** The routes [routes] are assembled one after the other for the groups
    of locations [groups], from the world [w] to the world [w']. *)
Fixpoint routesTrace (groups : list (list Location.t)) (routes : list Route.t)
    (w w' : World) : Prop :=
  match groups, routes with
  | [], [] => w' = w
  | locs :: groups', r :: routes' =>
      ∃ w1, tracedRoute locs r w w1 ∧ routesTrace groups' routes' w1 w'
  | _, _ => False
  end.

(** For each route of [routes], assembled in turn for the group of
    locations of the same position in [groups] from the world [w] on,
    [P locs g r] holds of the group [locs], of the route [r] and of the
    answer [g] of the optimizer for that route: asked, at that point of
    the run, about the depot stops around the delivery stops of the
    group.  (For a block with a stop without coordinates the adapter is
    not called; it would answer [null] without asking the provider.)
    [w'] is the world the run ends in. *)
Fixpoint eachRoute
    (P : list Location.t → option GoogleRoutesOptimizationResult → Route.t → Prop)
    (groups : list (list Location.t)) (routes : list Route.t) (w w' : World) : Prop :=
  match groups, routes with
  | [], [] => w' = w
  | locs :: groups', r :: routes' =>
      ∃ g w2,
        optimizeRouteWithGoogle (candidateOf locs w) (worldAtCall locs w) = (Ok g, w2)
        ∧ P locs g r
        ∧ eachRoute P groups' routes' (mkWorld (uuids w2 + 2) (fetches w2)) w'
  | _, _ => False
  end.

(** Both coordinates of the location are numbers other than 0: the
    delivery stop built from it keeps them ([loc.lat || undefined]). *)
Definition keepsCoords (loc : Location.t) : bool :=
  truthyQ (Location.lat loc) && truthyQ (Location.lng loc).

(** The value of a hexadecimal digit, in upper case. *)
Definition hexValue (c : ascii) : option nat :=
  if inRange 48 57 c then Some (nat_of_ascii c - 48)%nat
  else if inRange 65 70 c then Some (nat_of_ascii c - 55)%nat
  else None.

(** The reading of a percent-encoded string: [%XX] stands for the byte
    [XX], any other character for itself. *)
Fixpoint percentDecode (s : string) : option string :=
  match s with
  | EmptyString => Some EmptyString
  | String "%" (String h (String l rest)) =>
      hi ← hexValue h;
      lo ← hexValue l;
      String (ascii_of_nat (16 * hi + lo)) <$> percentDecode rest
  | String "%" _ => None
  | String c rest => String c <$> percentDecode rest
  end.

(** The segments of a string between the occurrences of [sep]. *)
Fixpoint splitOn (sep : ascii) (s : string) : list string :=
  match s with
  | EmptyString => [EmptyString]
  | String c rest =>
      if Ascii.eqb c sep then EmptyString :: splitOn sep rest
      else
        match splitOn sep rest with
        | part :: parts => String c part :: parts
        | [] => [String c EmptyString]
        end
  end.

Fixpoint stripPrefix (p s : string) : option string :=
  match p, s with
  | EmptyString, _ => Some s
  | String c p', String d s' => if Ascii.eqb c d then stripPrefix p' s' else None
  | String _ _, EmptyString => None
  end.

(** The addresses a directions link stands for: the segments of its
    path after [/maps/dir/], decoded. *)
Definition addressesOfLink (link : string) : option (list string) :=
  path ← stripPrefix "https://www.google.com/maps/dir/" link;
  mapM percentDecode (splitOn "/" path).

(** The characters of a string. *)
Definition chars (s : string) : list ascii := list_ascii_of_string s.

(** The stops of the route drawn by hand from [routeInfo], the depot
    stops taking the identifiers from the [u]-th on. *)
Definition manualStops (routeInfo : ManualRoute.t) (u : nat) : list RouteStop.t :=
  [manualWarehouseStop (uuidOf u) 1 true]
    ++ renumber (ManualRoute.stops routeInfo)
    ++ [manualWarehouseStop (uuidOf (S u))
          (length (ManualRoute.stops routeInfo) + 2) false].

(** The route [r] is the route drawn by hand from [routeInfo]: a draft
    of the day and the date asked for, whose stops are the depot, the
    stops given, the depot. *)
Definition drawnFrom (routeInfo : ManualRoute.t) (r : Route.t) : Prop :=
  ∃ u,
    Route.stopsJson r = manualStops routeInfo u
    ∧ Route.date r = ManualRoute.scheduledDate routeInfo
    ∧ Route.dayOfWeek r = ManualRoute.dayOfWeek routeInfo
    ∧ Route.status r = "draft"
    ∧ Route.driverId r = None ∧ Route.driverName r = None
    ∧ Route.stopCount r = length (Route.stopsJson r)
    ∧ Route.routeLink r = generateGoogleMapsUrl (Route.stopsJson r)
    ∧ (if forallb (λ s, hasCoords (RouteStop.lat s) (RouteStop.lng s))
                  (Route.stopsJson r)
       then localMetrics r (length (ManualRoute.stops routeInfo))
       else Route.totalDistance r = None
            ∧ Route.estimatedTime r
              = Some (15 * Z.of_nat (length (ManualRoute.stops routeInfo)))%Z).

(** The coordinate of a stop is the coordinate of a location: the same
    number, or none on both sides. *)
Definition sameCoord (stopCoord locCoord : option Q) : Prop :=
  match stopCoord, locCoord with
  | Some a, Some b => a == b
  | None, None => True
  | _, _ => False
  end.

(** A stop without its coordinates. *)
Definition coordsErased (stop : RouteStop.t) : RouteStop.t := withCoords stop None None.

(** What publishing does to a row. *)
Definition publishedRow (r : Row.t) : Row.t :=
  if String.eqb (Row.status r) "assigned" then Row.withStatus r "published" else r.

(** The rows unpublishing changes, for the [date] of the query: the
    published ones, of that date if there is one. *)
Definition toUnpublish (date : option string) (r : Row.t) : bool :=
  String.eqb (Row.status r) "published" && negb (otherDate date r).

(** What unpublishing does to a row. *)
Definition unpublishedRow (date : option string) (r : Row.t) : Row.t :=
  if toUnpublish date r then Row.withStatus r "assigned" else r.

(** The location [r] is the location [loc], or [loc] with the
    coordinates it lacked. *)
Definition geocodedFrom (loc r : InsertLocation.t) : Prop :=
  r = loc
  ∨ (hasCoords (InsertLocation.lat loc) (InsertLocation.lng loc) = false
     ∧ ∃ lat lng, r = InsertLocation.withCoords loc lat lng).

(** The locations a run of the geocoding sends a request for. *)
Definition needGeocoding (locations : list InsertLocation.t) : list InsertLocation.t :=
  filter (λ loc, hasCoords (InsertLocation.lat loc) (InsertLocation.lng loc) = false)
         locations.

(** The character of a decimal digit. *)
Definition digitChar (d : nat) : ascii := ascii_of_nat (48 + d).

(** The numeral of a list of decimal digits, and its value. *)
Fixpoint numeral (ds : list nat) : string :=
  match ds with
  | [] => EmptyString
  | d :: ds' => String (digitChar d) (numeral ds')
  end.

Definition numeralValue (ds : list nat) : Z :=
  fold_left (λ acc d, (acc * 10 + Z.of_nat d)%Z) ds 0%Z.

(** The string does not go on with a decimal digit, nor with the [x] of
    a hexadecimal prefix. *)
Definition endsNumeral (tail : string) : Prop :=
  match tail with
  | EmptyString => True
  | String c _ => digitValue 10 c = None ∧ c ≠ "x"%char ∧ c ≠ "X"%char
  end.

(** The locations a request for the day gets routes for: those
    scheduled on the day and, when the request has a date, not excluded
    for it. *)
Definition selectedFor (allLocations : list ScheduledLocation.t)
    (excludedLocationIds : list string) (loc : ScheduledLocation.t) : Prop :=
  loc ∈ allLocations ∧ scheduledOn dayOfWeek loc = true
  ∧ (orElseS scheduledDate "" ≠ "" →
       Location.id (ScheduledLocation.location loc) ∉ excludedLocationIds).

(** * Properties *)

(** ** The clusterer *)

Lemma scanCentroids_range lat lng cs c minDist closest :
  scanCentroids lat lng cs c minDist closest = closest ∨
  (c <= scanCentroids lat lng cs c minDist closest
   ∧ scanCentroids lat lng cs c minDist closest < c + length cs)%nat.
Proof.
  revert c minDist closest.
  induction cs as [|cen rest IH]; intros c minDist closest; simpl; [by left|].
  destruct (ltInf _ minDist).
  - destruct (IH (S c) (Some (calculateHaversineDistance lat lng
                                 (Centroid.lat cen) (Centroid.lng cen))) c)
      as [-> | ?]; right; lia.
  - destruct (IH (S c) minDist closest) as [-> | ?]; [by left | right; lia].
Qed.

Lemma closestCentroid_lt centroids loc :
  (0 < length centroids)%nat →
  (closestCentroid centroids loc < length centroids)%nat.
Proof.
  intros Hk. unfold closestCentroid.
  destruct (scanCentroids_range (num (Location.lat loc)) (num (Location.lng loc))
              centroids 0 None 0) as [-> | ?]; lia.
Qed.

Lemma elem_of_indexed {A} (l : list A) i x :
  (i, x) ∈ indexed l ↔ l !! i = Some x.
Proof.
  unfold indexed. rewrite elem_of_lookup_imap. split.
  - intros (j & y & [= -> ->] & H). done.
  - intros H. by exists i, x.
Qed.

Lemma indexed_snd {A} (l : list A) : snd <$> indexed l = l.
Proof.
  unfold indexed. rewrite fmap_imap.
  rewrite (imap_ext _ (λ _ x, x)); [|done].
  induction l as [|x l IH]; [done|].
  rewrite imap_cons. f_equal. apply IH.
Qed.

Lemma initCentroids_total validLocations k :
  (0 < length validLocations)%nat →
  ∃ seeds, initCentroids validLocations k = Some seeds ∧ length seeds = k.
Proof.
  intros Hn. unfold initCentroids.
  destruct (mapM_is_Some_2
    (λ i, loc ← validLocations !!
             Nat.min (i * (length validLocations / k)) (length validLocations - 1);
          Some (Centroid.mk (num (Location.lat loc)) (num (Location.lng loc))))
    (seq 0 k)) as [seeds Hs].
  - apply Forall_forall. intros i _. simpl.
    destruct (lookup_lt_is_Some_2 validLocations
                (Nat.min (i * (length validLocations / k)) (length validLocations - 1)))
      as [loc ->]; [lia | by eexists].
  - exists seeds. split; [done|].
    apply length_mapM in Hs. rewrite length_seq in Hs. done.
Qed.

Lemma inRangeItems_cons {A B} i (x : A) items assignments (slots : list B) :
  inRangeItems ((i, x) :: items) assignments slots →
  (∃ a, assignments !! i = Some a ∧ (a < length slots)%nat)
  ∧ inRangeItems items assignments slots.
Proof.
  intros H. split.
  - apply (H i x). left.
  - intros j y Hj. apply (H j y). by right.
Qed.

Lemma inRangeItems_indexed {A B} (l : list A) assignments (slots : list B) :
  length assignments = length l →
  Forall (λ a, a < length slots)%nat assignments →
  inRangeItems (indexed l) assignments slots.
Proof.
  intros Hlen Hall i x Hi. apply elem_of_indexed in Hi.
  destruct (lookup_lt_is_Some_2 assignments i) as [a Ha].
  { rewrite Hlen. by eapply lookup_lt_Some. }
  exists a. split; [done|].
  by eapply (proj1 (Forall_lookup _ _) Hall).
Qed.

Lemma accumulate_spec items assignments acc0 :
  inRangeItems items assignments acc0 →
  ∃ acc, accumulate items assignments acc0 = Some acc
    ∧ length acc = length acc0
    ∧ ∀ c a0, acc0 !! c = Some a0 →
        ∃ a, acc !! c = Some a
          ∧ count a = (count a0 + length (membersAmong items assignments c))%nat
          ∧ sumLat a ==
              sumLat a0 + sumQ ((λ m, num (Location.lat m)) <$>
                                  membersAmong items assignments c)
          ∧ sumLng a ==
              sumLng a0 + sumQ ((λ m, num (Location.lng m)) <$>
                                  membersAmong items assignments c).
Proof.
  revert acc0. induction items as [|[i loc] rest IH]; intros acc0 Hin.
  - exists acc0. split; [done|]. split; [done|].
    intros c a0 Hc. exists a0. unfold membersAmong; simpl.
    repeat split; [done|lia|ring|ring].
  - apply inRangeItems_cons in Hin. destruct Hin as [(a & Ha & Hlt) Hrest].
    destruct (lookup_lt_is_Some_2 acc0 a Hlt) as [slot Hslot].
    destruct (IH (alter (accAdd loc) a acc0)) as (acc & Hacc & Hlen & Hsum).
    { intros j y Hj. destruct (Hrest j y Hj) as (b & Hb & Hb').
      exists b. by rewrite length_alter. }
    exists acc. simpl. rewrite Ha; simpl. rewrite Hslot; simpl.
    split; [done|]. split; [by rewrite Hlen, length_alter|].
    intros c a0 Hc. unfold membersAmong. rewrite filter_cons. simpl.
    destruct (decide (a = c)) as [->|Hne].
    + destruct (Hsum c (accAdd loc a0)) as (r & Hr & Hcnt & Hlat & Hlng).
      { by rewrite list_lookup_alter_eq, Hc. }
      exists r. split; [done|].
      rewrite decide_True by done.
      unfold membersAmong in Hcnt, Hlat, Hlng.
      rewrite !fmap_cons. cbn [length sumQ foldr snd].
      split; [rewrite Hcnt; cbn [count accAdd]; lia|]. split.
      * rewrite Hlat. cbn [sumLat accAdd]. unfold sumQ. ring.
      * rewrite Hlng. cbn [sumLng accAdd]. unfold sumQ. ring.
    + destruct (Hsum c a0) as (r & Hr & Hcnt & Hlat & Hlng).
      { by rewrite list_lookup_alter_ne. }
      exists r. split; [done|].
      rewrite decide_False by congruence.
      done.
Qed.

Lemma recompute_spec cs acc centroids :
  (∀ c, c ∈ cs → c < length centroids ∧ c < length acc)%nat →
  ∃ centroids', recompute cs acc centroids = Some centroids'
    ∧ length centroids' = length centroids
    ∧ ∀ c, centroids' !! c =
        if decide (c ∈ cs)
        then a ← acc !! c;
             if (0 <? count a)%nat then Some (meanOfAcc a) else centroids !! c
        else centroids !! c.
Proof.
  revert centroids. induction cs as [|c0 rest IH]; intros centroids Hcs.
  - exists centroids. split; [done|]. split; [done|]. intros c.
    rewrite decide_False; [done | apply not_elem_of_nil].
  - destruct (Hcs c0) as [Hc0 Hc0']; [left|].
    destruct (lookup_lt_is_Some_2 acc c0 Hc0') as [a0 Ha0].
    simpl. rewrite Ha0. simpl.
    destruct (0 <? count a0)%nat eqn:Hpos.
    + destruct (IH (<[c0 := meanOfAcc a0]> centroids)) as (r & Hr & Hlen & Hlook).
      { intros c Hc. rewrite length_insert. apply Hcs. by right. }
      exists r. split; [exact Hr|]. split; [by rewrite Hlen, length_insert|].
      intros c. rewrite Hlook.
      destruct (decide (c = c0)) as [->|Hne].
      * rewrite (decide_True (P := c0 ∈ c0 :: rest)) by left.
        rewrite Ha0. simpl. rewrite Hpos.
        destruct (decide (c0 ∈ rest)); [done|].
        by rewrite list_lookup_insert_eq.
      * rewrite list_lookup_insert_ne by done.
        destruct (decide (c ∈ rest)) as [Hin|Hnin].
        -- rewrite decide_True by (by right). done.
        -- rewrite decide_False; [done|].
           intros Hin. apply elem_of_cons in Hin. by destruct Hin.
    + destruct (IH centroids) as (r & Hr & Hlen & Hlook).
      { intros c Hc. apply Hcs. by right. }
      exists r. split; [exact Hr|]. split; [done|].
      intros c. rewrite Hlook.
      destruct (decide (c = c0)) as [->|Hne].
      * rewrite (decide_True (P := c0 ∈ c0 :: rest)) by left.
        rewrite Ha0. simpl. rewrite Hpos.
        destruct (decide (c0 ∈ rest)); simpl; rewrite ?Hpos; done.
      * destruct (decide (c ∈ rest)) as [Hin|Hnin].
        -- rewrite decide_True by (by right). done.
        -- rewrite decide_False; [done|].
           intros Hin. apply elem_of_cons in Hin. by destruct Hin.
Qed.

Lemma newAssignments_wf validLocations cs :
  (0 < length cs)%nat →
  Forall (λ a, a < length cs)%nat (map (closestCentroid cs) validLocations).
Proof.
  intros Hk. apply Forall_forall. intros a Ha.
  apply list_elem_of_In, in_map_iff in Ha. destruct Ha as (loc & <- & _).
  by apply closestCentroid_lt.
Qed.

Lemma kMeansIteration_spec validLocations k st :
  (0 < k)%nat → wellFormed validLocations k st →
  ∃ st' stop, kMeansIteration validLocations k st = Some (st', stop)
    ∧ wellFormed validLocations k st'
    ∧ ∀ c, (c < k)%nat → centroidRule validLocations st st' stop c.
Proof.
  intros Hk (Hcs & Has & Hall). unfold kMeansIteration.
  pose proof (newAssignments_wf validLocations (centroids st)) as Hnew.
  rewrite Hcs in Hnew. specialize (Hnew Hk).
  set (newA := map (closestCentroid (centroids st)) validLocations) in *.
  assert (length newA = length validLocations) as HlenA
    by (unfold newA; apply length_map).
  destruct (hasConverged newA (assignments st)).
  - eexists _, true. split; [done|]. split; [done|].
    intros c Hc. destruct (lookup_lt_is_Some_2 (centroids st) c) as [old Hold]; [lia|].
    exists old, old. simpl. by repeat split.
  - unfold updateCentroids.
    destruct (accumulate_spec (indexed validLocations) newA
                (replicate k (mkAcc 0 0 0))) as (acc & Hacc & Hlen & Hsum).
    { apply inRangeItems_indexed; [done|]. by rewrite length_replicate. }
    rewrite length_replicate in Hlen.
    destruct (recompute_spec (seq 0 k) acc (centroids st)) as (cs' & Hcs' & Hlen' & Hlook).
    { intros c Hc. apply elem_of_seq in Hc. lia. }
    rewrite Hacc. simpl. rewrite Hcs'. simpl.
    eexists _, false. split; [done|]. split.
    { split; [simpl; lia|]. done. }
    intros c Hc. destruct (lookup_lt_is_Some_2 (centroids st) c) as [old Hold]; [lia|].
    destruct (Hsum c (mkAcc 0 0 0)) as (a & Ha & Hcnt & Hlat & Hlng).
    { by apply lookup_replicate_2. }
    specialize (Hlook c). rewrite decide_True in Hlook by (apply elem_of_seq; lia).
    rewrite Ha in Hlook. simpl in Hlook.
    change (membersAmong (indexed validLocations) newA c)
      with (membersOf validLocations newA c) in Hcnt, Hlat, Hlng.
    cbn [count sumLat sumLng] in Hcnt, Hlat, Hlng.
    unfold centroidRule. simpl.
    destruct (0 <? count a)%nat eqn:Hpos.
    + exists old, (meanOfAcc a). split; [done|]. split; [done|]. split.
      { intros Hnil. rewrite Hnil in Hcnt. simpl in Hcnt.
        apply Nat.ltb_lt in Hpos. lia. }
      split; [done|]. intros _ _. unfold meanOfAcc, meanOf.
      cbn [Centroid.lat Centroid.lng].
      rewrite Hcnt, Hlat, Hlng, Nat.add_0_l. split; by rewrite Qplus_0_l.
    + exists old, old. rewrite Hlook. split; [done|]. split; [done|].
      split; [done|]. split; [done|]. intros _ Hne.
      apply Nat.ltb_ge in Hpos.
      destruct (membersOf validLocations newA c); [done|]. simpl in Hcnt. lia.
Qed.

Lemma initialState_wf validLocations k seeds :
  (0 < k)%nat → length seeds = k →
  wellFormed validLocations k (initialState validLocations seeds).
Proof.
  intros Hk Hs. unfold wellFormed, initialState. simpl.
  split; [done|]. split; [by rewrite length_replicate|].
  apply Forall_forall. intros a Ha. apply elem_of_replicate in Ha. lia.
Qed.

Lemma kMeansLoop_spec iterations validLocations k st :
  (0 < k)%nat → wellFormed validLocations k st →
  ∃ st', kMeansLoop iterations validLocations k st = Some st'
    ∧ wellFormed validLocations k st'.
Proof.
  intros Hk. revert st. induction iterations as [|n IH]; intros st Hwf.
  - by exists st.
  - destruct (kMeansIteration_spec validLocations k st Hk Hwf)
      as (st1 & stop & Hit & Hwf1 & _).
    simpl. rewrite Hit. simpl. destruct stop.
    + by exists st1.
    + by apply IH.
Qed.

Lemma concat_alter_snoc {A} (x : A) a (cl : list (list A)) :
  (a < length cl)%nat →
  concat (alter (λ c, c ++ [x]) a cl) ≡ₚ x :: concat cl.
Proof.
  revert a. induction cl as [|c cl IH]; intros a Ha; simpl in Ha; [lia|].
  destruct a as [|a].
  - change ((c ++ [x]) ++ concat cl ≡ₚ x :: c ++ concat cl).
    rewrite <- app_assoc. simpl.
    rewrite <- Permutation_middle. done.
  - change (c ++ concat (alter (λ c, c ++ [x]) a cl) ≡ₚ x :: c ++ concat cl).
    rewrite IH by lia. by rewrite Permutation_middle.
Qed.

Lemma pushAll_spec items assignments clusters :
  inRangeItems items assignments clusters →
  ∃ r, pushAll items assignments clusters = Some r
    ∧ length r = length clusters
    ∧ concat r ≡ₚ concat clusters ++ (snd <$> items).
Proof.
  revert clusters. induction items as [|[i loc] rest IH]; intros clusters Hin.
  - exists clusters. simpl. by rewrite app_nil_r.
  - apply inRangeItems_cons in Hin. destruct Hin as [(a & Ha & Hlt) Hrest].
    destruct (lookup_lt_is_Some_2 clusters a Hlt) as [slot Hslot].
    destruct (IH (alter (λ cl, cl ++ [loc]) a clusters)) as (r & Hr & Hlen & Hperm).
    { intros j y Hj. destruct (Hrest j y Hj) as (b & Hb & Hb').
      exists b. by rewrite length_alter. }
    exists r. simpl. rewrite Ha. simpl. rewrite Hslot. simpl.
    split; [done|]. split; [by rewrite Hlen, length_alter|].
    rewrite Hperm, concat_alter_snoc by done.
    simpl. by rewrite Permutation_middle.
Qed.

Lemma concat_filter_nonEmpty {A} (cl : list (list A)) :
  concat (filter (λ cluster, nonEmpty cluster = true) cl) = concat cl.
Proof.
  induction cl as [|c cl IH]; [done|].
  rewrite filter_cons. destruct c as [|x c].
  - rewrite decide_False by done. done.
  - rewrite decide_True by done. simpl. by rewrite IH.
Qed.

Lemma concat_singletons {A} (l : list A) : concat (map (λ x, [x]) l) = l.
Proof. induction l as [|x l IH]; [done|]. simpl. by rewrite IH. Qed.

Lemma length_zero_iff {A} (l : list A) : (length l =? 0)%nat = true ↔ l = [].
Proof. destruct l; simpl; split; done. Qed.

(** The run of the clusterer on more located stops than clusters. *)
Lemma kMeansClustering_refined locations k :
  (0 < k)%nat → (k < length (filter (λ loc, located loc = true) locations))%nat →
  ∃ seeds st clusters,
    initCentroids (filter (λ loc, located loc = true) locations) k = Some seeds
    ∧ kMeansLoop maxIterations (filter (λ loc, located loc = true) locations) k
        (initialState (filter (λ loc, located loc = true) locations) seeds) = Some st
    ∧ wellFormed (filter (λ loc, located loc = true) locations) k st
    ∧ pushAll (indexed (filter (λ loc, located loc = true) locations))
        (assignments st) (replicate k []) = Some clusters
    ∧ length clusters = k
    ∧ concat clusters ≡ₚ filter (λ loc, located loc = true) locations
    ∧ kMeansClustering locations k
      = Some (filter (λ cluster, nonEmpty cluster = true) clusters).
Proof.
  intros Hk Hn. set (valid := filter (λ loc, located loc = true) locations) in *.
  destruct (initCentroids_total valid k) as (seeds & Hseeds & Hlen); [lia|].
  destruct (kMeansLoop_spec maxIterations valid k (initialState valid seeds) Hk)
    as (st & Hst & Hwf); [by apply initialState_wf|].
  destruct (pushAll_spec (indexed valid) (assignments st) (replicate k []))
    as (clusters & Hcl & Hlcl & Hperm).
  { destruct Hwf as (_ & Hla & Hall).
    apply inRangeItems_indexed; [done|by rewrite length_replicate]. }
  exists seeds, st, clusters. rewrite length_replicate in Hlcl.
  repeat (split; [done|]). split.
  { rewrite Hperm, indexed_snd.
    replace (concat (replicate k [])) with (@nil Location.t); [done|].
    clear. induction k; [done|]. simpl. done. }
  unfold kMeansClustering. fold valid.
  replace (length valid =? 0)%nat with false
    by (symmetry; apply Nat.eqb_neq; lia).
  replace (k <=? 0)%nat with false by (symmetry; apply Nat.leb_gt; lia).
  replace (length valid <=? k)%nat with false by (symmetry; apply Nat.leb_gt; lia).
  unfold initialState in Hst.
  cbn -[kMeansLoop maxIterations pushAll filter initCentroids].
  rewrite Hseeds. cbn -[kMeansLoop maxIterations pushAll filter].
  rewrite Hst. cbn -[pushAll filter]. by rewrite Hcl.
Qed.

(** What the clusterer returns for a positive number of clusters. *)
Lemma kMeansClustering_clusters locations k :
  (1 <= k)%nat →
  ∃ clusters, kMeansClustering locations k = Some clusters
    ∧ concat clusters ≡ₚ filter (λ loc, located loc = true) locations
    ∧ Forall (λ cluster, cluster ≠ []) clusters
    ∧ (length clusters <= k)%nat.
Proof.
  intros Hk.
  destruct (decide (k < length (filter (λ loc, located loc = true) locations))%nat)
    as [Hlt|Hge].
  - destruct (kMeansClustering_refined locations k) as
      (seeds & st & clusters & _ & _ & _ & _ & Hlen & Hperm & Hrun); [lia|done|].
    exists (filter (λ cluster, nonEmpty cluster = true) clusters).
    split; [done|]. split; [by rewrite concat_filter_nonEmpty|]. split.
    + apply Forall_forall. intros c Hc. apply list_elem_of_filter in Hc.
      destruct Hc as [Hc _]. by destruct c.
    + rewrite <- Hlen. apply length_filter.
  - unfold kMeansClustering.
    set (valid := filter (λ loc, located loc = true) locations) in *.
    destruct (length valid =? 0)%nat eqn:Hz; simpl.
    + apply length_zero_iff in Hz. rewrite Hz. exists []. simpl.
      split; [done|]. split; [done|]. split; [constructor | simpl; lia].
    + replace (k <=? 0)%nat with false by (symmetry; apply Nat.leb_gt; lia).
      replace (length valid <=? k)%nat with true by (symmetry; apply Nat.leb_le; lia).
      exists (map (λ loc, [loc]) valid). split; [done|].
      split; [by rewrite concat_singletons|]. split.
      * apply Forall_forall. intros c Hc.
        apply list_elem_of_In, in_map_iff in Hc. by destruct Hc as (x & <- & _).
      * rewrite length_map. lia.
Qed.

(** ** The sequencer *)

Section SequencerFacts.

Context {T : Type} (latOf lngOf : T → option Q).

Lemma scanRemaining_spec current rest pre i nearestIdx nearestDist :
  i = length pre →
  match nearestDist with
  | None => pre = []
  | Some d =>
      ∃ x, pre !! nearestIdx = Some x ∧ d = legDistance latOf lngOf current x
           ∧ firstNearest latOf lngOf current pre nearestIdx
  end →
  pre ++ rest ≠ [] →
  firstNearest latOf lngOf current (pre ++ rest)
    (scanRemaining latOf lngOf current rest i nearestIdx nearestDist).
Proof.
  revert pre i nearestIdx nearestDist.
  induction rest as [|r rest IH]; intros pre i nearestIdx nearestDist Hi Hinv Hne.
  - rewrite app_nil_r in *. simpl. destruct nearestDist as [d|].
    + by destruct Hinv as (x & _ & _ & H).
    + done.
  - simpl. fold (legDistance latOf lngOf current r).
    rewrite (cons_middle r pre rest), app_assoc.
    assert ((pre ++ [r]) !! i = Some r) as Hr
      by (subst i; by rewrite list_lookup_middle).
    assert (S i = length (pre ++ [r])) as HSi
      by (rewrite length_app; simpl; lia).
    destruct (ltInf (legDistance latOf lngOf current r) nearestDist) eqn:Hlt.
    + apply IH; [done| |by destruct pre].
      exists r. split; [done|]. split; [done|]. exists r. split; [done|].
      intros j y Hj. destruct (decide (j < length pre)%nat) as [Hjlt|Hjge].
      * rewrite lookup_app_l in Hj by done.
        destruct nearestDist as [d|]; [|subst pre; simpl in Hjlt; lia].
        destruct Hinv as (x & Hx & -> & (x' & Hx' & Hmin)).
        assert (x' = x) as -> by congruence.
        destruct (Hmin j y Hj) as [Hle _].
        unfold ltInf in Hlt.
        destruct (Qlt_le_dec (legDistance latOf lngOf current r) (legDistance latOf lngOf current x));
          [|done].
        split; [lra|]. intros _. lra.
      * assert (j = i) as ->.
        { apply lookup_lt_Some in Hj. lia. }
        rewrite Hr in Hj. injection Hj as <-. split; [lra | lia].
    + destruct nearestDist as [d|]; [|done].
      destruct Hinv as (x & Hx & -> & (x' & Hx' & Hmin)).
      assert (x' = x) as -> by congruence.
      unfold ltInf in Hlt.
      destruct (Qlt_le_dec (legDistance latOf lngOf current r) (legDistance latOf lngOf current x));
        [done|].
      apply IH; [done| |by destruct pre].
      assert ((pre ++ [r]) !! nearestIdx = Some x) as Hx2.
      { rewrite lookup_app_l; [done|]. by eapply lookup_lt_Some. }
      exists x. split; [done|]. split; [done|]. exists x. split; [done|].
      intros j y Hj. destruct (decide (j < length pre)%nat) as [Hjlt|Hjge].
      * rewrite lookup_app_l in Hj by done. by apply Hmin.
      * assert (j = i) as ->.
        { apply lookup_lt_Some in Hj. lia. }
        rewrite Hr in Hj. injection Hj as <-.
        split; [done|]. intros Hlt'. apply lookup_lt_Some in Hx. lia.
Qed.

Lemma scanRemaining_first current remaining :
  remaining ≠ [] →
  firstNearest latOf lngOf current remaining
    (scanRemaining latOf lngOf current remaining 0 0 None).
Proof. intros Hne. by apply (scanRemaining_spec current remaining [] 0%nat 0%nat None). Qed.

Lemma sorted_lookup_le (l : list nat) a b i j :
  StronglySorted lt l → l !! a = Some i → l !! b = Some j →
  (a <= b)%nat → (i <= j)%nat.
Proof.
  intros Hs. revert a b. induction Hs as [|x l Hs IH Hall]; intros a b Ha Hb Hab.
  - done.
  - destruct a as [|a], b as [|b]; simpl in *.
    + injection Ha as <-. injection Hb as <-. lia.
    + injection Ha as <-.
      assert (j ∈ l) as Hj by (by eapply list_elem_of_lookup_2).
      pose proof (proj1 (Forall_forall _ _) Hall j Hj). lia.
    + lia.
    + apply (IH a b); [done|done|lia].
Qed.

Lemma sorted_delete (l : list nat) idx :
  StronglySorted lt l → StronglySorted lt (delete idx l).
Proof.
  intros Hs. revert idx. induction Hs as [|x l Hs IH Hall]; intros idx.
  - destruct idx; constructor.
  - destruct idx as [|idx]; [done|].
    change (StronglySorted lt (x :: delete idx l)).
    constructor; [apply IH | by apply Forall_delete].
Qed.

Lemma sorted_delete_filter (l : list nat) idx i :
  StronglySorted lt l → l !! idx = Some i →
  filter (λ j, j ≠ i) l = delete idx l.
Proof.
  intros Hs. revert idx. induction Hs as [|x l Hs IH Hall]; intros idx Hidx.
  - done.
  - rewrite filter_cons. destruct idx as [|idx]; simpl in Hidx.
    + injection Hidx as ->. rewrite decide_False by (intros H; by apply H).
      change (filter (λ j, j ≠ i) l = l).
      clear IH Hs. induction l as [|y l IHl]; [done|].
      apply Forall_cons in Hall. destruct Hall as [Hy Hall].
      rewrite filter_cons, decide_True by lia. f_equal. by apply IHl.
    + assert (i ∈ l) as Hi by (by eapply list_elem_of_lookup_2).
      pose proof (proj1 (Forall_forall _ _) Hall i Hi).
      rewrite decide_True by lia.
      change (x :: filter (λ j, j ≠ i) l = x :: delete idx l).
      f_equal. by apply IH.
Qed.

Lemma sorted_seq s m : StronglySorted lt (seq s m).
Proof.
  revert s. induction m as [|m IH]; intros s; simpl; constructor; [apply IH|].
  apply Forall_forall. intros j Hj. apply elem_of_seq in Hj. lia.
Qed.

Lemma nnLoop_step fuel result remaining :
  remaining ≠ [] →
  nnLoop latOf lngOf (S fuel) result remaining =
    current ← last result;
    picked ← remaining !! scanRemaining latOf lngOf current remaining 0 0 None;
    nnLoop latOf lngOf fuel (result ++ [picked])
      (delete (scanRemaining latOf lngOf current remaining 0 0 None) remaining).
Proof. by destruct remaining. Qed.

(** The loop, from a state whose [remaining] holds the stops at the
    positions [positions] of [input], in the order of [input]. *)
Lemma nnLoop_spec (input : list T) fuel result remaining c current positions :
  (length remaining <= fuel)%nat →
  last result = Some current → input !! c = Some current →
  Forall2 (λ i x, input !! i = Some x) positions remaining →
  StronglySorted lt positions →
  ∃ order out,
    nnLoop latOf lngOf fuel result remaining = Some (result ++ out)
    ∧ out ≡ₚ remaining
    ∧ Forall2 (λ i x, input !! i = Some x) order out
    ∧ greedyWalk latOf lngOf input c positions order.
Proof.
  revert result remaining c current positions.
  induction fuel as [|fuel IH];
    intros result remaining c current positions Hfuel Hlast Hc Hpos Hsorted.
  - destruct remaining; [|simpl in Hfuel; lia].
    exists [], []. apply Forall2_nil_inv_r in Hpos as ->.
    simpl. rewrite app_nil_r. by repeat split.
  - destruct remaining as [|r0 rem0] eqn:Hrem.
    { exists [], []. apply Forall2_nil_inv_r in Hpos as ->.
      simpl. rewrite app_nil_r. by repeat split. }
    rewrite <- Hrem in *.
    assert (remaining ≠ []) as Hne by (by rewrite Hrem).
    destruct (scanRemaining_first current remaining Hne) as (x & Hx & Hmin).
    set (idx := scanRemaining latOf lngOf current remaining 0 0 None) in *.
    destruct (Forall2_lookup_r _ _ _ _ _ Hpos Hx) as (i & Hi & Hix).
    destruct (IH (result ++ [x]) (delete idx remaining) i x (delete idx positions))
      as (order & out & Hrun & Hperm & Hlook & Hwalk).
    { rewrite length_delete by (by eexists). lia. }
    { apply last_snoc. }
    { done. }
    { by apply Forall2_delete. }
    { by apply sorted_delete. }
    exists (i :: order), (x :: out). split; [|split; [|split]].
    + rewrite nnLoop_step by done. rewrite Hlast.
      cbn [mbind option_bind]. fold idx. rewrite Hx.
      cbn [mbind option_bind]. rewrite Hrun.
      by rewrite <- app_assoc.
    + rewrite Hperm. symmetry. by apply delete_Permutation.
    + by constructor.
    + simpl. split; [by eapply list_elem_of_lookup_2|]. split.
      * intros j cur' x' y Hj Hc' Hi' Hy.
        assert (cur' = current) as -> by congruence.
        assert (x' = x) as -> by congruence.
        apply list_elem_of_lookup_1 in Hj. destruct Hj as [jj Hjj].
        destruct (Forall2_lookup_l _ _ _ _ _ Hpos Hjj) as (y' & Hy' & Hjy).
        assert (y' = y) as -> by congruence.
        destruct (Hmin jj y Hy') as [Hle Hstrict]. split; [done|].
        intros Heq. destruct (decide (jj < idx)%nat) as [Hlt|Hge].
        -- specialize (Hstrict Hlt). lra.
        -- apply (sorted_lookup_le positions idx jj); [done|done|done|lia].
      * by rewrite (sorted_delete_filter positions idx i).
Qed.

(** What the sequencer returns, with the input positions [order] of
    the elements of its output. *)
Lemma nearestNeighborOrdering_walk (locations : list T) :
  ∃ out order,
    nearestNeighborOrdering latOf lngOf locations = Some out
    ∧ out ≡ₚ locations
    ∧ Forall2 (λ i x, locations !! i = Some x) order out
    ∧ match order with
      | [] => locations = []
      | first :: rest =>
          first = 0%nat
          ∧ greedyWalk latOf lngOf locations 0 (seq 1 (length locations - 1)) rest
      end
    ∧ ((length locations <= 1)%nat → out = locations).
Proof.
  unfold nearestNeighborOrdering.
  destruct locations as [|first remaining].
  { exists [], []. simpl. by repeat split. }
  destruct remaining as [|second rest].
  { exists [first], [0%nat]. simpl. split; [done|]. split; [done|].
    split; [by repeat constructor|]. by repeat split. }
  set (remaining := second :: rest).
  destruct (nnLoop_spec (first :: remaining) (length remaining) [first] remaining
              0%nat first (seq 1 (length remaining)))
    as (order & out & Hrun & Hperm & Hlook & Hwalk).
  { done. }
  { done. }
  { done. }
  { apply Forall2_same_length_lookup. split; [by rewrite length_seq|].
    intros i j x Hj Hx. apply lookup_seq in Hj. destruct Hj as [-> _]. done. }
  { apply sorted_seq. }
  exists (first :: out), (0%nat :: order).
  split; [exact Hrun|]. split; [by rewrite Hperm|].
  split; [by constructor|]. split.
  - split; [done|].
    replace (length (first :: remaining) - 1)%nat with (length remaining)
      by (simpl; lia).
    done.
  - simpl. lia.
Qed.

(** C7. The sequencer returns (it does not throw) a permutation of its
    input.  With [order] the input positions of the output elements:
    the first is position 0, and every next one is, among the positions
    not visited yet, one at minimal distance of the stop selected just
    before, the smallest such position when distances are equal.  A
    list of length 0 or 1 is returned as it is. *)
Theorem nearestNeighborOrdering_greedy (locations : list T) :
  ∃ out order,
    nearestNeighborOrdering latOf lngOf locations = Some out
    ∧ out ≡ₚ locations
    ∧ Forall2 (λ i x, locations !! i = Some x) order out
    ∧ match order with
      | [] => locations = []
      | first :: rest =>
          first = 0%nat
          ∧ greedyWalk latOf lngOf locations 0 (seq 1 (length locations - 1)) rest
      end
    ∧ ((length locations <= 1)%nat → out = locations).
Proof.
  destruct (nearestNeighborOrdering_walk locations)
    as (out & order & Hrun & Hperm & Hpos & Hwalk & Hshort).
  exists out, order. by repeat split.
Qed.

End SequencerFacts.

(** ** The distance estimator *)

Lemma sumLegs_step a b rest totalMeters :
  sumLegs (a :: b :: rest) totalMeters =
    match RouteStop.lat a, RouteStop.lng a, RouteStop.lat b, RouteStop.lng b with
    | Some lat1, Some lng1, Some lat2, Some lng2 =>
        sumLegs (b :: rest)
          (totalMeters + calculateHaversineDistance lat1 lng1 lat2 lng2)
    | _, _, _, _ => None
    end.
Proof. done. Qed.

Lemma sumLegs_None stops totalMeters :
  pairLacksCoords stops → sumLegs stops totalMeters = None.
Proof.
  revert totalMeters. induction stops as [|a rest IH]; intros totalMeters.
  - by intros (i & s & t & Hs & _).
  - intros (i & s & t & Hs & Ht & Hlack).
    destruct rest as [|b rest]; [done|].
    destruct i as [|i].
    + simpl in Hs, Ht. injection Hs as <-. injection Ht as <-.
      rewrite sumLegs_step.
      unfold stopHasCoords, hasCoords in Hlack.
      destruct (RouteStop.lat a), (RouteStop.lng a),
               (RouteStop.lat b), (RouteStop.lng b); try done;
        by destruct Hlack.
    + rewrite sumLegs_step.
      destruct (RouteStop.lat a), (RouteStop.lng a),
               (RouteStop.lat b), (RouteStop.lng b); try done.
      apply IH. by exists i, s, t.
Qed.

Lemma sumLegs_Some stops totalMeters :
  ¬ pairLacksCoords stops →
  ∃ m, sumLegs stops totalMeters = Some m ∧ m == totalMeters + sumQ (legs stops).
Proof.
  revert totalMeters. induction stops as [|a rest IH]; intros totalMeters Hall.
  - exists totalMeters. split; [done|]. simpl. ring.
  - destruct rest as [|b rest].
    { exists totalMeters. split; [done|]. simpl. ring. }
    assert (stopHasCoords a = true ∧ stopHasCoords b = true) as [Ha Hb].
    { destruct (stopHasCoords a) eqn:Ea, (stopHasCoords b) eqn:Eb; try done;
        exfalso; apply Hall; exists 0%nat, a, b; rewrite ?Ea, ?Eb; auto. }
    assert (¬ pairLacksCoords (b :: rest)) as Hrest.
    { intros (i & s & t & Hs & Ht & Hlack). apply Hall. by exists (S i), s, t. }
    unfold stopHasCoords, hasCoords in Ha, Hb. rewrite sumLegs_step.
    change (legs (a :: b :: rest)) with
      (calculateHaversineDistance
         (num (RouteStop.lat a)) (num (RouteStop.lng a))
         (num (RouteStop.lat b)) (num (RouteStop.lng b)) :: legs (b :: rest)).
    destruct (RouteStop.lat a) as [lat1|], (RouteStop.lng a) as [lng1|],
             (RouteStop.lat b) as [lat2|], (RouteStop.lng b) as [lng2|]; try done.
    destruct (IH (totalMeters + calculateHaversineDistance lat1 lng1 lat2 lng2) Hrest)
      as (m & Hm & Heq).
    exists m. split; [done|]. rewrite Heq.
    unfold sumQ, num. cbn [foldr default from_option id]. ring.
Qed.

Lemma round1_nonneg x : 0 <= x → 0 <= round1 x.
Proof.
  intros Hx. unfold round1, Math_round.
  assert (0 <= Qfloor (x * 10 + (1 # 2)))%Z as Hz.
  { change 0%Z with (Qfloor 0). apply Qfloor_resp_le. lra. }
  apply Qle_shift_div_l; [done|]. rewrite Qmult_0_l.
  change 0 with (inject_Z 0). by rewrite <- Zle_Qle.
Qed.

Lemma round1_comp x y : x == y → round1 x = round1 y.
Proof.
  intros H. unfold round1, Math_round.
  by rewrite (Qfloor_comp (x * 10 + (1 # 2)) (y * 10 + (1 # 2))) by (by rewrite H).
Qed.

Section EstimatorFacts.

(** [Math.sqrt] has no negative value, and [Math.atan2] has none on
    the first quadrant. *)
Hypothesis Math_sqrt_nonneg : ∀ x, 0 <= Math_sqrt x.
Hypothesis Math_atan2_nonneg : ∀ y x, 0 <= y → 0 <= x → 0 <= Math_atan2 y x.

Lemma calculateHaversineDistance_nonneg lat1 lon1 lat2 lon2 :
  0 <= calculateHaversineDistance lat1 lon1 lat2 lon2.
Proof.
  unfold calculateHaversineDistance.
  apply Qmult_le_0_compat; [done|].
  apply Qmult_le_0_compat; [done|].
  apply Math_atan2_nonneg; apply Math_sqrt_nonneg.
Qed.

Lemma legs_nonneg stops : 0 <= sumQ (legs stops).
Proof.
  induction stops as [|a rest IH]; [done|].
  destruct rest as [|b rest]; [done|].
  change (legs (a :: b :: rest)) with
    (calculateHaversineDistance
       (num (RouteStop.lat a)) (num (RouteStop.lng a))
       (num (RouteStop.lat b)) (num (RouteStop.lng b)) :: legs (b :: rest)).
  cbn [sumQ foldr].
  pose proof (calculateHaversineDistance_nonneg
                (num (RouteStop.lat a)) (num (RouteStop.lng a))
                (num (RouteStop.lat b)) (num (RouteStop.lng b))).
  unfold sumQ in IH. lra.
Qed.

(** The three cases of the distance estimator, and the sign of its
    result. *)
Lemma calculateRouteDistance_cases (stops : list RouteStop.t) :
  ((length stops < 2)%nat → calculateRouteDistance stops = Some 0)
  ∧ ((2 <= length stops)%nat → pairLacksCoords stops →
       calculateRouteDistance stops = None)
  ∧ ((2 <= length stops)%nat → ¬ pairLacksCoords stops →
       calculateRouteDistance stops = Some (round1 (sumQ (legs stops) / 1000)))
  ∧ (∀ d, calculateRouteDistance stops = Some d → 0 <= d).
Proof.
  assert (H12 : (length stops < 2)%nat → calculateRouteDistance stops = Some 0).
  { intros Hlen. unfold calculateRouteDistance.
    by replace (length stops <? 2)%nat with true
      by (symmetry; by apply Nat.ltb_lt). }
  assert (H3 : (2 <= length stops)%nat → ¬ pairLacksCoords stops →
               calculateRouteDistance stops
               = Some (round1 (sumQ (legs stops) / 1000))).
  { intros Hlen Hall. unfold calculateRouteDistance.
    replace (length stops <? 2)%nat with false
      by (symmetry; apply Nat.ltb_ge; lia).
    destruct (sumLegs_Some stops 0 Hall) as (m & -> & Hm).
    f_equal. apply round1_comp. rewrite Hm. field. }
  split; [exact H12|]. split; [|split; [exact H3|]].
  - intros Hlen Hlack. unfold calculateRouteDistance.
    replace (length stops <? 2)%nat with false
      by (symmetry; apply Nat.ltb_ge; lia).
    by rewrite sumLegs_None.
  - intros d Hd. destruct (decide (length stops < 2)%nat) as [Hlt|Hge].
    + rewrite H12 in Hd by done. by injection Hd as <-.
    + unfold calculateRouteDistance in Hd.
      replace (length stops <? 2)%nat with false in Hd
        by (symmetry; apply Nat.ltb_ge; lia).
      destruct (sumLegs stops 0) as [m|] eqn:Hs; [|done].
      injection Hd as <-. apply round1_nonneg.
      assert (¬ pairLacksCoords stops) as Hall.
      { intros Hlack. by rewrite sumLegs_None in Hs. }
      destruct (sumLegs_Some stops 0 Hall) as (m' & Hm' & Heq).
      assert (m' = m) as -> by congruence.
      pose proof (legs_nonneg stops).
      apply Qle_shift_div_l; [done|]. lra.
Qed.

(** C2. The distance estimator returns 0 on fewer than two stops;
    [null] as soon as a consecutive pair lacks a latitude or a
    longitude; and otherwise the sum of the Haversine distances of
    the consecutive pairs, in kilometers, rounded to one decimal.
    What it returns as a number is never negative. *)
Theorem calculateRouteDistance_spec (stops : list RouteStop.t) :
  ((length stops < 2)%nat → calculateRouteDistance stops = Some 0)
  ∧ (pairLacksCoords stops → calculateRouteDistance stops = None)
  ∧ ((2 <= length stops)%nat → ¬ pairLacksCoords stops →
       calculateRouteDistance stops = Some (round1 (sumQ (legs stops) / 1000)))
  ∧ (∀ d, calculateRouteDistance stops = Some d → 0 <= d).
Proof.
  destruct (calculateRouteDistance_cases stops) as (Hshort & Hnull & Hsum & Hsign).
  split; [done|]. split; [|by split].
  intros Hlack. apply Hnull; [|done].
  destruct Hlack as (i & s & t & _ & Ht & _).
  apply lookup_lt_Some in Ht. lia.
Qed.

End EstimatorFacts.

(** ** The adapter of the external optimizer *)

Lemma bind_Ok {A B} (m : M A) (f : A → M B) w a w1 :
  m w = (Ok a, w1) → (m ≫= f) w = f a w1.
Proof. intros H. unfold mbind, M_bind. by rewrite H. Qed.

Lemma bind_Thrown {A B} (m : M A) (f : A → M B) w w1 :
  m w = (Thrown, w1) → (m ≫= f) w = (Thrown, w1).
Proof. intros H. unfold mbind, M_bind. by rewrite H. Qed.

Lemma tryCatch_returns {A} (body : M (option A)) w :
  ∃ r w', tryCatch body (mret None) w = (Ok r, w').
Proof.
  unfold tryCatch. destruct (body w) as [[r|] w1].
  - by exists r, w1.
  - by exists None, w1.
Qed.

Lemma tryCatch_Thrown {A} (body : M (option A)) w w1 :
  body w = (Thrown, w1) → tryCatch body (mret None) w = (Ok None, w1).
Proof. intros H. unfold tryCatch. by rewrite H. Qed.

Lemma tryCatch_Ok {A} (body handler : M A) w a w1 :
  body w = (Ok a, w1) → tryCatch body handler w = (Ok a, w1).
Proof. intros H. unfold tryCatch. by rewrite H. Qed.

Lemma classic_callAttempted stops : callAttempted stops ∨ ¬ callAttempted stops.
Proof.
  unfold callAttempted.
  destruct (decide (orElseS apiKey "" = "")); [right; by intros (? & _)|].
  destruct (decide (2 <= length stops)%nat); [|right; by intros (_ & ? & _)].
  destruct (decide (Forall (λ s, stopHasCoords s = true) stops));
    [by left | right; by intros (_ & _ & ?)].
Qed.

Lemma filter_length_all {A} (P : A → Prop) `{∀ x, Decision (P x)} (l : list A) :
  length (filter P l) = length l ↔ Forall P l.
Proof.
  induction l as [|x l IH]; [by split|].
  rewrite filter_cons. destruct (decide (P x)) as [Hx|Hx].
  - simpl. rewrite Forall_cons. split.
    + intros Hl. split; [done|]. apply IH. lia.
    + intros [_ Hl]. f_equal. by apply IH.
  - pose proof (length_filter P l). split; [simpl; lia|].
    intros Hall. apply Forall_cons in Hall. by destruct Hall.
Qed.

Lemma optimizeRouteWithGoogle_attempted stops :
  callAttempted stops →
  optimizeRouteWithGoogle stops = tryCatch (optimizeRouteBody stops) (mret None).
Proof.
  intros (Hkey & Hlen & Hall). unfold optimizeRouteWithGoogle.
  replace (String.eqb (orElseS apiKey "") "") with false
    by (symmetry; by apply String.eqb_neq).
  replace (length stops <? 2)%nat with false by (symmetry; apply Nat.ltb_ge; lia).
  apply (filter_length_all (λ s, stopHasCoords s = true)) in Hall.
  unfold stopHasCoords in Hall. rewrite Hall, Nat.eqb_refl. done.
Qed.

Lemma optimizeRouteWithGoogle_skipped stops w :
  ¬ callAttempted stops → optimizeRouteWithGoogle stops w = (Ok None, w).
Proof.
  intros Hnot. unfold optimizeRouteWithGoogle.
  destruct (String.eqb (orElseS apiKey "") "") eqn:Hkey; [done|].
  destruct (length stops <? 2)%nat eqn:Hlen; [done|].
  destruct (length (filter (λ s, hasCoords (RouteStop.lat s) (RouteStop.lng s) = true)
                      stops) =? length stops)%nat eqn:Hall; [|done].
  exfalso. apply Hnot. split; [by apply String.eqb_neq|].
  split; [apply Nat.ltb_ge in Hlen; lia|].
  apply Nat.eqb_eq in Hall.
  by apply (filter_length_all (λ s, stopHasCoords s = true)) in Hall.
Qed.

Lemma optimizeRouteWithGoogle_returns stops w :
  ∃ r w', optimizeRouteWithGoogle stops w = (Ok r, w').
Proof.
  unfold optimizeRouteWithGoogle.
  destruct (String.eqb (orElseS apiKey "") ""); [by eexists _, _|].
  destruct (length stops <? 2)%nat; [by eexists _, _|].
  destruct (negb _); [by eexists _, _|].
  apply tryCatch_returns.
Qed.

Lemma optimizeRouteWithGoogle_failed stops w origin destination :
  stops !! 0%nat = Some origin →
  stops !! (length stops - 1)%nat = Some destination →
  failedAnswer (provider (fetches w)
                  (requestBodyOf origin destination (sliceInner stops))) →
  optimizeRouteWithGoogle stops w = (Ok None, w)
  ∨ optimizeRouteWithGoogle stops w
    = (Ok None, mkWorld (uuids w) (S (fetches w))).
Proof.
  intros Ho Hd Hfail.
  destruct (classic_callAttempted stops) as [Hatt|Hnot];
    [|left; by apply optimizeRouteWithGoogle_skipped].
  right. rewrite optimizeRouteWithGoogle_attempted by done.
  unfold tryCatch, optimizeRouteBody. rewrite Ho, Hd. simpl.
  unfold mbind, M_bind, mret, M_ret, fetch.
  destruct Hfail as [-> | [[body ->] | [[ok ->] | [[ok ->] | [[ok ->] | [[ok ->] |
    (ok & rest & ->)]]]]]]; simpl; try done.
  - by destruct body.
  - by destruct ok.
  - by destruct ok.
  - by destruct ok.
  - by destruct ok.
Qed.

Lemma optimizeRouteWithGoogle_Some stops w g w' :
  optimizeRouteWithGoogle stops w = (Ok (Some g), w') →
  ∃ origin destination route rest,
    callAttempted stops
    ∧ stops !! 0%nat = Some origin
    ∧ stops !! (length stops - 1)%nat = Some destination
    ∧ provider (fetches w) (requestBodyOf origin destination (sliceInner stops))
      = Response true (Some (BodyObject (Some (Some route :: rest))))
    ∧ g = mkOptimization
            (resequence (reorderStops stops origin destination (sliceInner stops) route))
            (round1 (orElseQ (distanceMeters route) 0 / 1000))
            (minutesOfDuration (duration route))
    ∧ w' = mkWorld (uuids w) (S (fetches w)).
Proof.
  intros Hrun.
  destruct (classic_callAttempted stops) as [Hatt|Hnot];
    [|by rewrite optimizeRouteWithGoogle_skipped in Hrun].
  rewrite optimizeRouteWithGoogle_attempted in Hrun by done.
  destruct Hatt as (Hkey & Hlen & Hall).
  destruct (lookup_lt_is_Some_2 stops 0%nat) as [origin Ho]; [lia|].
  destruct (lookup_lt_is_Some_2 stops (length stops - 1)%nat) as [destination Hd]; [lia|].
  exists origin, destination.
  unfold tryCatch, optimizeRouteBody in Hrun. rewrite Ho, Hd in Hrun.
  simpl in Hrun. unfold mbind, M_bind, mret, M_ret, fetch in Hrun.
  destruct (provider (fetches w)
              (requestBodyOf origin destination (sliceInner stops)))
    as [|ok body] eqn:Hanswer; simpl in Hrun; [done|].
  destruct body as [[|[[|[route|] rest]|]]|]; simpl in Hrun;
    destruct ok; simpl in Hrun; try done.
  exists route, rest. injection Hrun as <- <-.
  by repeat split.
Qed.

(** ** Route assembly *)

Lemma createWarehouseStop_run sequence isStart w :
  createWarehouseStop sequence isStart w
  = (Ok (warehouseStop (uuidOf (uuids w)) sequence isStart),
     mkWorld (S (uuids w)) (fetches w)).
Proof. done. Qed.

Lemma mapM_deliveryStop_run items w :
  mapM deliveryStop items w
  = (Ok (builtFrom items (uuids w)), mkWorld (uuids w + length items) (fetches w)).
Proof.
  revert w. induction items as [|item rest IH]; intros [u f].
  - simpl. unfold mret, M_ret. by rewrite Nat.add_0_r.
  - cbn [mapM].
    rewrite (bind_Ok _ _ (mkWorld u f) (deliveryStopOf (uuidOf u) item.1 item.2)
               (mkWorld (S u) f)) by done.
    rewrite (bind_Ok _ _ _ _ _ (IH _)). unfold mret, M_ret.
    cbn [uuids fetches builtFrom length]. do 2 f_equal. lia.
Qed.

Lemma length_builtFrom items u : length (builtFrom items u) = length items.
Proof. revert u. induction items as [|i r IH]; intros u; simpl; by rewrite ?IH. Qed.

Lemma length_indexed {A} (l : list A) : length (indexed l) = length l.
Proof. apply length_imap. Qed.

Lemma builtFrom_lacking locs u :
  forallb (λ s, hasCoords (RouteStop.lat s) (RouteStop.lng s))
          (builtFrom (indexed locs) u) = false →
  ¬ Forall (λ s, stopHasCoords s = true) (builtFrom (indexed locs) u).
Proof.
  intros Hf Hall. apply not_true_iff_false in Hf. apply Hf.
  apply forallb_forall. intros s Hs.
  apply (proj1 (Forall_forall _ _) Hall). by apply list_elem_of_In.
Qed.

Lemma finalStops_lacking deliveries u :
  ¬ Forall (λ s, stopHasCoords s = true) deliveries →
  calculateRouteDistance (finalStops deliveries u) = None.
Proof.
  intros Hnot. unfold calculateRouteDistance.
  assert (2 <= length (finalStops deliveries u))%nat as Hlen.
  { unfold finalStops. rewrite !length_app. simpl. lia. }
  replace (length (finalStops deliveries u) <? 2)%nat with false
    by (symmetry; apply Nat.ltb_ge; lia).
  rewrite sumLegs_None; [done|].
  apply not_Forall_Exists in Hnot; [|intros s; apply _].
  apply Exists_exists in Hnot. destruct Hnot as (s & Hs & Hlack).
  apply list_elem_of_lookup_1 in Hs. destruct Hs as [i Hi].
  destruct (lookup_lt_is_Some_2 (finalStops deliveries u) (S (S i))) as [t Ht].
  { unfold finalStops. rewrite !length_app. simpl.
    apply lookup_lt_Some in Hi. lia. }
  exists (S i), s, t. split; [|split; [done|]].
  - unfold finalStops. rewrite lookup_app_r by (simpl; lia).
    replace (S i - length [warehouseStop (uuidOf u) 1 true])%nat with i
      by (simpl; lia).
    by apply lookup_app_l_Some.
  - left. by apply not_true_iff_false.
Qed.

Lemma routeForBlock_run routeLocations w :
  ∃ g w2,
    optimizeRouteWithGoogle (candidateOf routeLocations w)
      (worldAtCall routeLocations w) = (Ok g, w2)
    ∧ routeForBlock routeLocations w
      = (Ok (routeWith routeLocations w g (uuids w2)),
         mkWorld (uuids w2 + 2) (fetches w2)).
Proof.
  unfold routeForBlock.
  rewrite (bind_Ok _ _ _ _ _ (mapM_deliveryStop_run (indexed routeLocations) w)).
  rewrite length_indexed.
  set (built := builtFrom (indexed routeLocations) (uuids w)).
  assert (length built = length routeLocations) as Hlen
    by (unfold built; by rewrite length_builtFrom, length_indexed).
  rewrite (bind_Ok _ _ _ _ _ (createWarehouseStop_run _ _ _)). cbn [uuids fetches].
  rewrite (bind_Ok _ _ _ _ _ (createWarehouseStop_run _ _ _)). cbn [uuids fetches].
  rewrite Hlen.
  replace (S (S (uuids w + length routeLocations)))
    with (uuids w + length routeLocations + 2)%nat by lia.
  replace (S (uuids w + length routeLocations))
    with (uuids w + length routeLocations + 1)%nat by lia.
  fold (candidateOf routeLocations w). fold (worldAtCall routeLocations w).
  destruct (optimizeRouteWithGoogle_returns (candidateOf routeLocations w)
              (worldAtCall routeLocations w)) as (g & w2 & Hg).
  replace (hasCoords
             (RouteStop.lat (warehouseStop (uuidOf (uuids w + length routeLocations))
                               1 true))
             (RouteStop.lng (warehouseStop (uuidOf (uuids w + length routeLocations))
                               1 true))) with true by done.
  rewrite andb_true_r.
  destruct (forallb (λ s, hasCoords (RouteStop.lat s) (RouteStop.lng s)) built)
    eqn:Hcoords.
  - exists g, w2. split; [done|].
    rewrite (bind_Ok _ _ _ _ _ Hg).
    rewrite (bind_Ok _ _ _ _ _ (createWarehouseStop_run _ _ _)). cbn [uuids fetches].
    rewrite (bind_Ok _ _ _ _ _ (createWarehouseStop_run _ _ _)). cbn [uuids fetches].
    unfold createRoute, mret, M_ret, routeWith.
    replace (S (S (uuids w2))) with (uuids w2 + 2)%nat by lia.
    destruct g as [result|]; [done|].
    fold built. by rewrite <- Hlen.
  - assert (¬ Forall (λ s, stopHasCoords s = true) built) as Hnot
      by (by apply builtFrom_lacking).
    assert (optimizeRouteWithGoogle (candidateOf routeLocations w)
              (worldAtCall routeLocations w)
            = (Ok None, worldAtCall routeLocations w)) as Hskip.
    { apply optimizeRouteWithGoogle_skipped. intros (_ & _ & Hall).
      apply Hnot. unfold candidateOf in Hall. fold built in Hall.
      apply Forall_app in Hall. destruct Hall as [_ Hall].
      apply Forall_app in Hall. by destruct Hall. }
    exists None, (worldAtCall routeLocations w). split; [done|].
    unfold mbind at 1, M_bind at 1, mret at 1, M_ret at 1.
    rewrite (bind_Ok _ _ _ _ _ (createWarehouseStop_run _ _ _)). cbn [uuids fetches].
    rewrite (bind_Ok _ _ _ _ _ (createWarehouseStop_run _ _ _)). cbn [uuids fetches].
    unfold createRoute, mret, M_ret, routeWith. fold built.
    unfold worldAtCall. cbn [uuids fetches].
    rewrite finalStops_lacking by done.
    unfold heuristicTime, truthyQ. rewrite <- Hlen.
    replace (S (S (uuids w + length built + 2)))
      with (uuids w + length built + 2 + 2)%nat by lia.
    done.
Qed.

Lemma routeForCluster_run cluster w :
  ∃ orderedLocations g w2,
    nearestNeighborOrdering Location.lat Location.lng cluster = Some orderedLocations
    ∧ orderedLocations ≡ₚ cluster
    ∧ optimizeRouteWithGoogle (candidateOf orderedLocations w)
        (worldAtCall orderedLocations w) = (Ok g, w2)
    ∧ routeForCluster cluster w
      = (Ok (routeWith orderedLocations w g (uuids w2)),
         mkWorld (uuids w2 + 2) (fetches w2)).
Proof.
  destruct (nearestNeighborOrdering_walk Location.lat Location.lng cluster)
    as (ordered & order & Hnn & Hperm & _).
  destruct (optimizeRouteWithGoogle_returns (candidateOf ordered w)
              (worldAtCall ordered w)) as (g & w2 & Hg).
  exists ordered, g, w2. split; [done|]. split; [done|]. split; [done|].
  unfold routeForCluster. rewrite Hnn.
  unfold liftOpt. unfold mbind at 1, M_bind at 1, mret at 1, M_ret at 1.
  rewrite (bind_Ok _ _ _ _ _ (mapM_deliveryStop_run (indexed ordered) w)).
  rewrite length_indexed.
  set (built := builtFrom (indexed ordered) (uuids w)).
  assert (length built = length ordered) as Hlen
    by (unfold built; by rewrite length_builtFrom, length_indexed).
  rewrite (bind_Ok _ _ _ _ _ (createWarehouseStop_run _ _ _)). cbn [uuids fetches].
  rewrite (bind_Ok _ _ _ _ _ (createWarehouseStop_run _ _ _)). cbn [uuids fetches].
  rewrite Hlen.
  replace (S (S (uuids w + length ordered)))
    with (uuids w + length ordered + 2)%nat by lia.
  replace (S (uuids w + length ordered))
    with (uuids w + length ordered + 1)%nat by lia.
  fold (candidateOf ordered w). fold (worldAtCall ordered w).
  rewrite (bind_Ok _ _ _ _ _ Hg).
  rewrite (bind_Ok _ _ _ _ _ (createWarehouseStop_run _ _ _)). cbn [uuids fetches].
  rewrite (bind_Ok _ _ _ _ _ (createWarehouseStop_run _ _ _)). cbn [uuids fetches].
  unfold createRoute, mret, M_ret, routeWith.
  replace (S (S (uuids w2))) with (uuids w2 + 2)%nat by lia.
  destruct g as [result|]; [done|].
  fold built. by rewrite <- Hlen.
Qed.

(** The routes of the clusters, one for each that is not empty. *)
Lemma forClusters_run clusters createdRoutes w :
  ∃ routes w',
    forClusters clusters createdRoutes w = (Ok (createdRoutes ++ routes), w')
    ∧ Forall2 (λ cluster r,
                 ∃ orderedLocations,
                   nearestNeighborOrdering Location.lat Location.lng cluster
                     = Some orderedLocations
                   ∧ orderedLocations ≡ₚ cluster
                   ∧ generatedFrom orderedLocations r)
        (filter (λ cluster, cluster ≠ []) clusters) routes.
Proof.
  revert createdRoutes w.
  induction clusters as [|cluster rest IH]; intros createdRoutes w.
  - exists [], w. simpl. rewrite app_nil_r. split; [done|constructor].
  - rewrite filter_cons. cbn [forClusters].
    destruct cluster as [|loc cluster].
    + rewrite decide_False by (by intros H). simpl. apply IH.
    + rewrite decide_True by done.
      replace (length (loc :: cluster) =? 0)%nat with false by done.
      destruct (routeForCluster_run (loc :: cluster) w)
        as (ordered & g & w2 & Hnn & Hperm & Hg & Hrun).
      rewrite (bind_Ok _ _ _ _ _ Hrun).
      destruct (IH (createdRoutes ++ [routeWith ordered w g (uuids w2)])
                   (mkWorld (uuids w2 + 2) (fetches w2)))
        as (routes & w' & Hrest & Hall).
      exists (routeWith ordered w g (uuids w2) :: routes), w'.
      split; [by rewrite Hrest, <- app_assoc|].
      constructor; [|done].
      exists ordered. split; [done|]. split; [done|]. by exists w, g, w2.
Qed.

Lemma slice_blockAt {A} stopsPerDriver i (l : list A) :
  slice (i * stopsPerDriver)
        (Nat.min (i * stopsPerDriver + stopsPerDriver) (length l)) l
  = blockAt stopsPerDriver i l.
Proof.
  unfold slice, blockAt.
  destruct (decide (i * stopsPerDriver + stopsPerDriver <= length l)%nat).
  - f_equal. lia.
  - rewrite !take_ge; [done| |]; rewrite length_drop; lia.
Qed.

(** The routes of the fallback: one for each driver of [drivers] whose
    block starts inside the list, up to the first whose block does
    not. *)
Lemma forDrivers_run s m dayLocations stopsPerDriver createdRoutes w :
  ∃ routes w',
    forDrivers (seq s m) dayLocations stopsPerDriver createdRoutes w
      = (Ok (createdRoutes ++ routes), w')
    ∧ (length routes <= m)%nat
    ∧ (∀ j, (j < length routes)%nat → ((s + j) * stopsPerDriver < length dayLocations)%nat)
    ∧ ((length routes < m)%nat →
         (length dayLocations <= (s + length routes) * stopsPerDriver)%nat)
    ∧ Forall2 (λ i r, generatedFrom (blockAt stopsPerDriver i dayLocations) r)
        (seq s (length routes)) routes.
Proof.
  revert s createdRoutes w. induction m as [|m IH]; intros s createdRoutes w.
  - exists [], w. simpl. rewrite app_nil_r.
    split; [done|]. split; [done|]. split; [intros j Hj; lia|].
    split; [lia|constructor].
  - cbn [seq forDrivers].
    destruct (length dayLocations <=? s * stopsPerDriver)%nat eqn:Hbreak.
    + exists [], w. rewrite app_nil_r. apply Nat.leb_le in Hbreak. simpl.
      split; [done|]. split; [lia|]. split; [intros j Hj; lia|].
      split; [intros _; by rewrite Nat.add_0_r|constructor].
    + apply Nat.leb_gt in Hbreak. rewrite slice_blockAt.
      destruct (routeForBlock_run (blockAt stopsPerDriver s dayLocations) w)
        as (g & w2 & Hg & Hrun).
      rewrite (bind_Ok _ _ _ _ _ Hrun).
      destruct (IH (S s)
                  (createdRoutes ++
                     [routeWith (blockAt stopsPerDriver s dayLocations) w g (uuids w2)])
                  (mkWorld (uuids w2 + 2) (fetches w2)))
        as (routes & w' & Hrest & Hlen & Hstart & Hstop & Hall).
      exists (routeWith (blockAt stopsPerDriver s dayLocations) w g (uuids w2) :: routes),
             w'.
      split; [by rewrite Hrest, <- app_assoc|]. simpl.
      split; [lia|]. split; [|split].
      * intros [|j] Hj; [by rewrite Nat.add_0_r|].
        replace (s + S j)%nat with (S s + j)%nat by lia. apply Hstart. lia.
      * intros Hlt. replace (s + S (length routes))%nat
          with (S s + length routes)%nat by lia. apply Hstop. lia.
      * constructor; [by exists w, g, w2|done].
Qed.

Lemma kMeansClustering_returns locations k :
  ∃ clusters, kMeansClustering locations k = Some clusters
    ∧ Forall (λ cluster, cluster ≠ []) clusters
    ∧ (length clusters <= k)%nat
    ∧ ∀ cluster loc, cluster ∈ clusters → loc ∈ cluster → loc ∈ locations.
Proof.
  destruct k as [|k].
  - exists []. unfold kMeansClustering. rewrite orb_true_r.
    split; [done|]. split; [constructor|]. split; [done|].
    intros cluster loc Hc. by apply elem_of_nil in Hc.
  - destruct (kMeansClustering_clusters locations (S k)) as
      (clusters & Hrun & Hperm & Hne & Hlen); [lia|].
    exists clusters. split; [done|]. split; [done|]. split; [done|].
    intros cluster loc Hc Hloc.
    assert (loc ∈ concat clusters) as Hin.
    { apply list_elem_of_In, in_concat. exists cluster.
      split; by apply list_elem_of_In. }
    rewrite Hperm in Hin. apply list_elem_of_filter in Hin. by destruct Hin.
Qed.

Lemma ceilRatio_covers n k : (1 <= k)%nat → (n <= k * ceilRatio n k)%nat.
Proof.
  intros Hk. unfold ceilRatio.
  pose proof (Nat.div_mod (n + k - 1) k ltac:(lia)) as Hdm.
  pose proof (Nat.mod_upper_bound (n + k - 1) k ltac:(lia)). lia.
Qed.

Lemma ceilRatio_pos n k : (1 <= n)%nat → (1 <= k)%nat → (1 <= ceilRatio n k)%nat.
Proof.
  intros Hn Hk. pose proof (ceilRatio_covers n k Hk).
  destruct (ceilRatio n k); lia.
Qed.

Lemma blockAt_elem {A} stopsPerDriver i (l : list A) x :
  x ∈ blockAt stopsPerDriver i l → x ∈ l.
Proof.
  unfold blockAt. intros H.
  apply list_elem_of_lookup_1 in H. destruct H as [j Hj].
  apply lookup_take_Some in Hj. destruct Hj as [Hj _].
  rewrite lookup_drop in Hj. by eapply list_elem_of_lookup_2.
Qed.

Lemma blockAt_nonEmpty {A} stopsPerDriver i (l : list A) :
  (1 <= stopsPerDriver)%nat → (i * stopsPerDriver < length l)%nat →
  blockAt stopsPerDriver i l ≠ [].
Proof.
  intros Hs Hi Hnil. apply (f_equal length) in Hnil.
  unfold blockAt in Hnil. rewrite length_take, length_drop in Hnil.
  simpl in Hnil. lia.
Qed.

Lemma generateRoutesForDay_clustered dayLocations driverCount w :
  hasCoordinates dayLocations = true →
  ∃ clusters routes w',
    kMeansClustering dayLocations driverCount = Some clusters
    ∧ generateRoutesForDay dayLocations driverCount w = (Ok routes, w')
    ∧ Forall2 (λ cluster r,
                 ∃ orderedLocations,
                   nearestNeighborOrdering Location.lat Location.lng cluster
                     = Some orderedLocations
                   ∧ orderedLocations ≡ₚ cluster
                   ∧ generatedFrom orderedLocations r)
        clusters routes.
Proof.
  intros Hhas. unfold generateRoutesForDay. fold (hasCoordinates dayLocations).
  rewrite Hhas.
  destruct (kMeansClustering_returns dayLocations driverCount)
    as (clusters & Hrun & Hne & _ & _).
  rewrite Hrun. unfold liftOpt.
  unfold mbind at 1, M_bind at 1, mret at 1, M_ret at 1.
  destruct (forClusters_run clusters [] w) as (routes & w' & Hfor & Hall).
  exists clusters, routes, w'. split; [done|]. split; [done|].
  replace (filter (λ cluster, cluster ≠ []) clusters) with clusters in Hall; [done|].
  clear -Hne. induction Hne as [|c cl Hc Hcl IH]; [done|].
  by rewrite filter_cons, decide_True, <- IH.
Qed.

Lemma generateRoutesForDay_fallback dayLocations driverCount w :
  hasCoordinates dayLocations = false →
  ∃ routes w',
    generateRoutesForDay dayLocations driverCount w = (Ok routes, w')
    ∧ (length routes <= driverCount)%nat
    ∧ (∀ j, (j < length routes)%nat →
            (j * ceilRatio (length dayLocations) driverCount < length dayLocations)%nat)
    ∧ ((1 <= driverCount)%nat →
         (length dayLocations
            <= length routes * ceilRatio (length dayLocations) driverCount)%nat)
    ∧ Forall2 (λ i r,
                 generatedFrom
                   (blockAt (ceilRatio (length dayLocations) driverCount) i dayLocations) r)
        (seq 0 (length routes)) routes.
Proof.
  intros Hhas. unfold generateRoutesForDay. fold (hasCoordinates dayLocations).
  rewrite Hhas.
  destruct (forDrivers_run 0 driverCount dayLocations
              (ceilRatio (length dayLocations) driverCount) [] w)
    as (routes & w' & Hrun & Hlen & Hstart & Hstop & Hall).
  exists routes, w'. split; [done|]. split; [done|]. split; [exact Hstart|].
  split; [|done]. intros Hk.
  destruct (decide (length routes < driverCount)%nat) as [Hlt|Hge].
  - by apply Hstop.
  - assert (length routes = driverCount) as -> by lia.
    by apply ceilRatio_covers.
Qed.

(** ** The shape of a generated route *)

Lemma sliceInner_bookends {A} (a b : A) (m : list A) :
  sliceInner ([a] ++ m ++ [b]) = m.
Proof.
  unfold sliceInner, slice.
  replace (length ([a] ++ m ++ [b]) - 1 - 1)%nat with (length m)
    by (rewrite !length_app; simpl; lia).
  change (take (length m) (m ++ [b]) = m). apply take_app_length.
Qed.

Lemma sliceInner_lookup {A} (l : list A) x :
  x ∈ sliceInner l →
  ∃ i, l !! i = Some x ∧ (1 <= i)%nat ∧ (i + 1 < length l)%nat.
Proof.
  unfold sliceInner, slice. intros H.
  apply list_elem_of_lookup_1 in H. destruct H as [j Hj].
  apply lookup_take_Some in Hj. destruct Hj as [Hj Hlt].
  rewrite lookup_drop in Hj. exists (1 + j)%nat. split; [done|]. lia.
Qed.

Lemma lookup_sliceInner {A} (l : list A) i x :
  l !! i = Some x → (1 <= i)%nat → (i + 1 < length l)%nat → x ∈ sliceInner l.
Proof.
  intros Hi H1 H2. unfold sliceInner, slice.
  apply list_elem_of_lookup. exists (i - 1)%nat.
  apply lookup_take_Some. split; [|lia]. rewrite lookup_drop.
  replace (1 + (i - 1))%nat with i by lia. done.
Qed.

Lemma fmap_add_seq a s n : (λ j, j + a)%nat <$> seq s n = seq (s + a) n.
Proof.
  revert s. induction n as [|n IH]; intros s; [done|].
  simpl. f_equal. apply (IH (S s)).
Qed.

Lemma sequence_renumber deliveryStops :
  RouteStop.sequence <$> renumber deliveryStops = seq 2 (length deliveryStops).
Proof.
  unfold renumber. rewrite fmap_imap.
  rewrite (imap_ext _ (λ idx _, (idx + 2)%nat)) by done.
  by rewrite imap_seq_0, fmap_add_seq.
Qed.

Lemma sequence_builtFrom items u :
  RouteStop.sequence <$> builtFrom items u = (λ item, (item.1 + 2)%nat) <$> items.
Proof.
  revert u. induction items as [|item rest IH]; intros u; [done|].
  simpl. f_equal. apply IH.
Qed.

Lemma indexed_fst {A} (l : list A) : fst <$> indexed l = seq 0 (length l).
Proof.
  unfold indexed. rewrite fmap_imap.
  rewrite (imap_ext _ (λ i _, i)) by done.
  rewrite (imap_seq_0 l (λ i, i)). apply list_fmap_id.
Qed.

Lemma sequence_built locs u :
  RouteStop.sequence <$> builtFrom (indexed locs) u = seq 2 (length locs).
Proof.
  rewrite sequence_builtFrom.
  change 2%nat with (0 + 2)%nat at 2.
  rewrite <- (fmap_add_seq 2 0), <- indexed_fst, <- list_fmap_compose. done.
Qed.

Lemma sequence_finalStops deliveries u :
  RouteStop.sequence <$> deliveries = seq 2 (length deliveries) →
  RouteStop.sequence <$> finalStops deliveries u
  = seq 1 (length (finalStops deliveries u)).
Proof.
  intros Hseq. unfold finalStops. rewrite !fmap_app, !length_app, Hseq. simpl.
  f_equal. rewrite seq_app. simpl. do 2 f_equal. lia.
Qed.

Lemma built_deliveryOf items u s :
  s ∈ builtFrom items u → ∃ item, item ∈ items ∧ deliveryOf item.2 s.
Proof.
  revert u. induction items as [|item rest IH]; intros u Hs; simpl in Hs.
  - by apply elem_of_nil in Hs.
  - apply elem_of_cons in Hs. destruct Hs as [->|Hs].
    + exists item. split; [left|]. by exists (uuidOf u).
    + destruct (IH _ Hs) as (it & Hit & Hd). exists it. split; [by right|done].
Qed.

Lemma deliveryOf_withSequence loc s n :
  deliveryOf loc s → deliveryOf loc (RouteStop.withSequence s n).
Proof. intros [id ->]. by exists id. Qed.

Lemma optimized_deliveries stops w g w' d :
  indicesInRange →
  optimizeRouteWithGoogle stops w = (Ok (Some g), w') →
  d ∈ sliceInner (optimizedStops g) →
  ∃ s n, s ∈ sliceInner stops ∧ d = RouteStop.withSequence s n.
Proof.
  intros Hrange Hrun Hd.
  destruct (optimizeRouteWithGoogle_Some stops w g w' Hrun)
    as (origin & destination & route & rest & Hatt & Ho & Hdest & Hanswer & -> & _).
  cbn [optimizedStops] in Hd.
  apply sliceInner_lookup in Hd. destruct Hd as (i & Hi & H1 & H2).
  unfold resequence in Hi, H2. rewrite length_imap in H2.
  apply list_lookup_imap_Some in Hi. destruct Hi as (y & Hy & ->).
  unfold reorderStops in Hy, H2.
  assert (Hplain : map Some stops !! i = Some y →
                   (i + 1 < length (map Some stops))%nat →
                   ∃ s n, s ∈ sliceInner stops
                     ∧ match y with
                       | Some s0 => RouteStop.withSequence s0 (i + 1)
                       | None => RouteStop.ofUndefined (i + 1)
                       end = RouteStop.withSequence s n).
  { intros Hy' H2'. rewrite length_map in H2'.
    rewrite list_lookup_fmap in Hy'.
    destruct (stops !! i) as [s|] eqn:Hs; [|done]. injection Hy' as <-.
    exists s, (i + 1)%nat. split; [by eapply lookup_sliceInner|done]. }
  destruct (optimizedIntermediateWaypointIndex route) as [indices|] eqn:Hidx;
    [|by apply Hplain].
  destruct (0 <? length (sliceInner stops))%nat eqn:Hpos; [|by apply Hplain].
  rewrite !length_app, length_map in H2. simpl in H2.
  destruct i as [|i]; [lia|]. simpl in Hy.
  rewrite lookup_app_l in Hy by (rewrite length_map; lia).
  rewrite list_lookup_fmap in Hy.
  destruct (indices !! i) as [idx|] eqn:Hi; [|done]. injection Hy as <-.
  pose proof (Hrange _ _ _ _ _ _ Hanswer Hidx) as Hall.
  pose proof (proj1 (Forall_lookup _ _) Hall i idx Hi) as Hin.
  unfold requestBodyOf in Hin. cbn [intermediates] in Hin.
  rewrite Hpos in Hin. cbn [default from_option id] in Hin.
  rewrite length_map in Hin.
  unfold lookupZ. replace (idx <? 0)%Z with false by (symmetry; apply Z.ltb_ge; lia).
  destruct (lookup_lt_is_Some_2 (sliceInner stops) (Z.to_nat idx)) as [s Hs]; [lia|].
  rewrite Hs. exists s, (S i + 1)%nat. split; [by eapply list_elem_of_lookup_2|done].
Qed.

Lemma sliceInner_candidateOf locs w :
  sliceInner (candidateOf locs w) = builtFrom (indexed locs) (uuids w).
Proof. unfold candidateOf. apply sliceInner_bookends. Qed.

Lemma built_Forall2 items u :
  Forall2 (λ item s, deliveryOf item.2 s) items (builtFrom items u).
Proof.
  revert u. induction items as [|item rest IH]; intros u; simpl; constructor.
  - by exists (uuidOf u).
  - apply IH.
Qed.

Lemma built_in_order locs u :
  Forall2 deliveryOf locs (builtFrom (indexed locs) u).
Proof.
  pose proof (built_Forall2 (indexed locs) u) as H.
  rewrite <- (indexed_snd locs) at 1.
  apply Forall2_fmap_l. eapply Forall2_impl; [exact H|done].
Qed.

Lemma generatedFrom_shape locs r :
  generatedFrom locs r →
  ∃ startId endId deliveries,
    Route.stopsJson r
    = [warehouseStop startId 1 true] ++ deliveries
        ++ [warehouseStop endId (length deliveries + 2) false]
    ∧ RouteStop.sequence <$> Route.stopsJson r = seq 1 (length (Route.stopsJson r))
    ∧ Route.stopCount r = length (Route.stopsJson r)
    ∧ Route.routeLink r = generateGoogleMapsUrl (Route.stopsJson r)
    ∧ (indicesInRange →
         Forall (λ d, ∃ loc, loc ∈ locs ∧ deliveryOf loc d) deliveries)
    ∧ (optimizerMetrics r
       ∨ (localMetrics r (length deliveries) ∧ Forall2 deliveryOf locs deliveries)).
Proof.
  intros (w & g & w2 & Hg & ->).
  exists (uuidOf (uuids w2)), (uuidOf (S (uuids w2))).
  destruct g as [result|]; unfold routeWith; cbn [Route.stopsJson Route.stopCount
    Route.routeLink Route.totalDistance Route.estimatedTime].
  - exists (renumber (sliceInner (optimizedStops result))).
    split; [done|]. split.
    { apply sequence_finalStops. rewrite sequence_renumber.
      unfold renumber. by rewrite length_imap. }
    split; [done|]. split; [done|]. split.
    + intros Hrange. apply Forall_forall. intros d Hd.
      unfold renumber in Hd. apply elem_of_lookup_imap_1 in Hd.
      destruct Hd as (i & d0 & -> & Hd0).
      apply list_elem_of_lookup_2 in Hd0.
      destruct (optimized_deliveries _ _ _ _ _ Hrange Hg Hd0) as (s & n & Hs & ->).
      rewrite sliceInner_candidateOf in Hs.
      destruct (built_deliveryOf _ _ _ Hs) as ([j loc] & Hitem & Hdel).
      exists loc. split; [by apply elem_of_indexed, list_elem_of_lookup_2 in Hitem|].
      by apply (deliveryOf_withSequence loc (RouteStop.withSequence s n)),
               deliveryOf_withSequence.
    + left. by exists (candidateOf locs w), (worldAtCall locs w), result, w2.
  - exists (builtFrom (indexed locs) (uuids w)).
    assert (length (builtFrom (indexed locs) (uuids w)) = length locs) as Hlen
      by (by rewrite length_builtFrom, length_indexed).
    split; [done|]. split.
    { apply sequence_finalStops. rewrite Hlen. apply sequence_built. }
    split; [done|]. split; [done|]. split.
    + intros _. apply Forall_forall. intros d Hd.
      destruct (built_deliveryOf _ _ _ Hd) as ([j loc] & Hitem & Hdel).
      exists loc. split; [by apply elem_of_indexed, list_elem_of_lookup_2 in Hitem|done].
    + right. split; [|apply built_in_order].
      unfold localMetrics. cbn [Route.totalDistance Route.estimatedTime Route.stopsJson].
      by rewrite Hlen.
Qed.

Lemma Forall2_Forall_r {A B} (P : A → B → Prop) (Q' : B → Prop) l k :
  Forall2 P l k → (∀ x y, x ∈ l → P x y → Q' y) → Forall Q' k.
Proof.
  intros H HPQ. induction H as [|x y l k Hxy Hlk IH]; constructor.
  - apply (HPQ x y); [left|done].
  - apply IH. intros x' y' Hx'. apply HPQ. by right.
Qed.

(** The routes of a generation: it returns, and each route is assembled
    for some of the day's locations. *)
Lemma generateRoutesForDay_routes dayLocations driverCount w :
  ∃ routes w',
    generateRoutesForDay dayLocations driverCount w = (Ok routes, w')
    ∧ Forall (λ r, ∃ locs, locs ≠ []
                     ∧ (∀ loc, loc ∈ locs → loc ∈ dayLocations)
                     ∧ generatedFrom locs r) routes.
Proof.
  destruct (hasCoordinates dayLocations) eqn:Hhas.
  - destruct (generateRoutesForDay_clustered dayLocations driverCount w Hhas)
      as (clusters & routes & w' & Hk & Hrun & Hall).
    destruct (kMeansClustering_returns dayLocations driverCount)
      as (clusters' & Hk' & Hne & _ & Hsub).
    assert (clusters' = clusters) as -> by congruence.
    exists routes, w'. split; [done|].
    apply (Forall2_Forall_r _ _ _ _ Hall).
    intros cluster r Hc (ordered & _ & Hperm & Hgen).
    exists ordered. split; [|split; [|done]].
    + intros ->. apply Permutation_nil_l in Hperm.
      by apply (proj1 (Forall_forall _ _) Hne cluster Hc).
    + intros loc Hloc. rewrite Hperm in Hloc. by eapply Hsub.
  - destruct (generateRoutesForDay_fallback dayLocations driverCount w Hhas)
      as (routes & w' & Hrun & Hlen & Hstart & _ & Hall).
    exists routes, w'. split; [done|].
    apply (Forall2_Forall_r _ _ _ _ Hall).
    intros i r Hi Hgen. apply elem_of_seq in Hi.
    exists (blockAt (ceilRatio (length dayLocations) driverCount) i dayLocations).
    split; [|split; [|done]].
    + specialize (Hstart i ltac:(lia)).
      apply blockAt_nonEmpty; [|done].
      apply ceilRatio_pos; lia.
    + intros loc. apply blockAt_elem.
Qed.

Lemma stopCount_deliveries r startId endId deliveries :
  Route.stopsJson r
  = [warehouseStop startId 1 true] ++ deliveries
      ++ [warehouseStop endId (length deliveries + 2) false] →
  Route.stopCount r = length (Route.stopsJson r) →
  (Route.stopCount r - 2)%nat = length deliveries.
Proof. intros Hs ->. rewrite Hs, !length_app. simpl. lia. Qed.

Lemma heuristicTime_known d deliveries :
  ¬ d == 0 →
  heuristicTime (Some d) deliveries
  = (Math_round (double (double (double d / 40) * 60)) + 5 * Z.of_nat deliveries)%Z.
Proof.
  intros Hd. unfold heuristicTime, truthyQ.
  destruct (Qeq_bool d 0) eqn:Heq; [by apply Qeq_bool_iff in Heq|].
  cbn [num default negb].
  set (minutes := Math_round _). clearbody minutes. lia.
Qed.

Lemma heuristicTime_unknown deliveries :
  heuristicTime None deliveries = (15 * Z.of_nat deliveries)%Z.
Proof. unfold heuristicTime. simpl. lia. Qed.

(** C4. The adapter never throws: it returns a result or [null].  It
    returns [null] when the credentials are missing, when there are
    fewer than 2 stops, when a stop lacks a coordinate, and when the
    provider fails (a rejected call, a response that is not a success, a
    body that cannot be read, or no route in it).  Generation never
    fails either, and a route for which no optimizer result was returned
    has the metrics of the local heuristic: every route when the adapter
    is unavailable throughout. *)
Theorem optimizeRouteWithGoogle_never_throws stops w :
  (∃ r w', optimizeRouteWithGoogle stops w = (Ok r, w'))
  ∧ (orElseS apiKey "" = "" → (optimizeRouteWithGoogle stops w).1 = Ok None)
  ∧ ((length stops < 2)%nat → (optimizeRouteWithGoogle stops w).1 = Ok None)
  ∧ ((∃ s, s ∈ stops ∧ stopHasCoords s = false) →
       (optimizeRouteWithGoogle stops w).1 = Ok None)
  ∧ (∀ origin destination,
       stops !! 0%nat = Some origin →
       stops !! (length stops - 1)%nat = Some destination →
       failedAnswer (provider (fetches w)
                       (requestBodyOf origin destination (sliceInner stops))) →
       (optimizeRouteWithGoogle stops w).1 = Ok None)
  ∧ (∀ dayLocations driverCount,
       ∃ routes w',
         generateRoutesForDay dayLocations driverCount w = (Ok routes, w')
         ∧ Forall (λ r, optimizerMetrics r
                        ∨ localMetrics r (Route.stopCount r - 2)) routes
         ∧ ((∀ stops' w0, (optimizeRouteWithGoogle stops' w0).1 = Ok None) →
              Forall (λ r, localMetrics r (Route.stopCount r - 2)) routes)).
Proof.
  split; [apply optimizeRouteWithGoogle_returns|].
  split; [|split; [|split; [|split]]].
  - intros Hkey. rewrite optimizeRouteWithGoogle_skipped; [done|].
    by intros (Hk & _).
  - intros Hlen. rewrite optimizeRouteWithGoogle_skipped; [done|].
    intros (_ & Hl & _). lia.
  - intros (s & Hs & Hlack). rewrite optimizeRouteWithGoogle_skipped; [done|].
    intros (_ & _ & Hall).
    pose proof (proj1 (Forall_forall _ _) Hall s Hs). congruence.
  - intros origin destination Ho Hd Hfail.
    by destruct (optimizeRouteWithGoogle_failed stops w origin destination Ho Hd Hfail)
      as [-> | ->].
  - intros dayLocations driverCount.
    destruct (generateRoutesForDay_routes dayLocations driverCount w)
      as (routes & w' & Hrun & Hall).
    exists routes, w'. split; [done|].
    assert (Forall (λ r, optimizerMetrics r
                         ∨ localMetrics r (Route.stopCount r - 2)) routes) as Hboth.
    { eapply Forall_impl; [exact Hall|]. intros r (locs & _ & _ & Hgen).
      destruct (generatedFrom_shape locs r Hgen)
        as (startId & endId & deliveries & Hstops & _ & Hcount & _ & _ & Hmetrics).
      rewrite (stopCount_deliveries r startId endId deliveries Hstops Hcount).
      destruct Hmetrics as [Hopt | [Hlocal _]]; [by left | by right]. }
    split; [done|]. intros Hnone.
    eapply Forall_impl; [exact Hboth|]. intros r [Hopt | Hlocal]; [|done].
    destruct Hopt as (stops' & w0 & result & w1 & Hcall & _).
    specialize (Hnone stops' w0). by rewrite Hcall in Hnone.
Qed.

Lemma prefix_Start name : String.prefix "Start:" ("Start: " +:+ name) = true.
Proof. done. Qed.

Lemma prefix_End name : String.prefix "End:" ("End: " +:+ name) = true.
Proof. done. Qed.

(** C5. Generation returns, and every generated route has a stop list
    whose sequence numbers are exactly 1, 2, ..., [stopCount], with
    [stopCount] the length of the list; its first stop is the synthetic
    depot stop named [Start: ...] with sequence 1, its last stop the
    synthetic depot stop named [End: ...] with sequence
    [deliveries + 2]; and every stop between is the delivery stop of one
    of the day's locations, as long as the optimizer, when it reorders,
    answers with indices of the intermediate stops it was given. *)
Theorem generated_routes_bookended dayLocations driverCount w :
  ∃ routes w',
    generateRoutesForDay dayLocations driverCount w = (Ok routes, w')
    ∧ Forall (λ r,
        RouteStop.sequence <$> Route.stopsJson r = seq 1 (Route.stopCount r)
        ∧ Route.stopCount r = length (Route.stopsJson r)
        ∧ ∃ startId endId deliveries startName endName,
            Route.stopsJson r
            = [warehouseStop startId 1 true] ++ deliveries
                ++ [warehouseStop endId (length deliveries + 2) false]
            ∧ RouteStop.customerName (warehouseStop startId 1 true) = Some startName
            ∧ String.prefix "Start:" startName = true
            ∧ RouteStop.customerName
                (warehouseStop endId (length deliveries + 2) false) = Some endName
            ∧ String.prefix "End:" endName = true
            ∧ (indicesInRange →
                 Forall (λ d, ∃ loc, loc ∈ dayLocations ∧ deliveryOf loc d)
                        deliveries)) routes.
Proof.
  destruct (generateRoutesForDay_routes dayLocations driverCount w)
    as (routes & w' & Hrun & Hall).
  exists routes, w'. split; [done|].
  eapply Forall_impl; [exact Hall|]. intros r (locs & _ & Hsub & Hgen).
  destruct (generatedFrom_shape locs r Hgen)
    as (startId & endId & deliveries & Hstops & Hseq & Hcount & _ & Hdel & _).
  split; [by rewrite Hcount|]. split; [done|].
  exists startId, endId, deliveries. eexists _, _.
  split; [done|]. split; [done|]. split; [apply prefix_Start|].
  split; [done|]. split; [apply prefix_End|].
  intros Hrange. eapply Forall_impl; [exact (Hdel Hrange)|].
  intros d (loc & Hloc & Hd). exists loc. split; [by apply Hsub|done].
Qed.

(** ** The fallback blocks *)

Lemma blockAt_succ {A} stopsPerDriver i (l : list A) :
  blockAt stopsPerDriver (S i) l = blockAt stopsPerDriver i (drop stopsPerDriver l).
Proof.
  unfold blockAt. by rewrite drop_drop.
Qed.

Lemma concat_blocks {A} stopsPerDriver m (l : list A) :
  (length l <= m * stopsPerDriver)%nat →
  concat ((λ i, blockAt stopsPerDriver i l) <$> seq 0 m) = l.
Proof.
  revert l. induction m as [|m IH]; intros l Hlen.
  - destruct l; [done|simpl in Hlen; lia].
  - cbn [seq fmap list_fmap concat]. rewrite <- fmap_S_seq, <- list_fmap_compose.
    rewrite (list_fmap_ext _ (λ i, blockAt stopsPerDriver i (drop stopsPerDriver l)))
      by (intros _ i _; apply blockAt_succ).
    rewrite IH by (rewrite length_drop; lia).
    unfold blockAt. simpl. by rewrite drop_0, take_drop.
Qed.

Lemma length_blockAt {A} stopsPerDriver i (l : list A) :
  length (blockAt stopsPerDriver i l)
  = Nat.min stopsPerDriver (length l - i * stopsPerDriver).
Proof. unfold blockAt. by rewrite length_take, length_drop. Qed.

Lemma built_lacking locs u loc :
  loc ∈ locs → located loc = false →
  ¬ Forall (λ s, stopHasCoords s = true) (builtFrom (indexed locs) u).
Proof.
  intros Hloc Hun Hall.
  apply list_elem_of_lookup_1 in Hloc. destruct Hloc as [i Hi].
  pose proof (built_in_order locs u) as Hord.
  destruct (Forall2_lookup_l _ _ _ _ _ Hord Hi) as (s & Hs & [id Hd]).
  pose proof (proj1 (Forall_lookup _ _) Hall i s Hs) as Hc.
  rewrite Hd in Hc. unfold stopHasCoords, located, hasCoords in Hc, Hun.
  cbn in Hc.
  destruct (Location.lat loc) as [q|], (Location.lng loc); simpl in *; try done.
  all: by destruct (Qeq_bool q 0).
Qed.

Lemma generatedFrom_servesBlock block r :
  generatedFrom block r → servesBlock block r.
Proof.
  intros Hgen.
  destruct (generatedFrom_shape block r Hgen)
    as (startId & endId & deliveries & Hstops & _ & _ & _ & _ & Hmetrics).
  destruct Hgen as (w & g & w2 & Hg & Hr).
  exists startId, endId, deliveries. split; [done|]. split.
  { destruct Hmetrics as [Hopt | [Hlocal Hord]]; [by left|right].
    split; [|done]. by rewrite (Forall2_length _ _ _ Hord). }
  intros (loc & Hloc & Hun).
  pose proof (built_lacking block (uuids w) loc Hloc Hun) as Hlack.
  assert (g = None) as ->.
  { rewrite optimizeRouteWithGoogle_skipped in Hg; [congruence|].
    intros (_ & _ & Hall). apply Hlack. unfold candidateOf in Hall.
    apply Forall_app in Hall. destruct Hall as [_ Hall].
    apply Forall_app in Hall. by destruct Hall. }
  subst r. unfold routeWith in *.
  cbn [Route.stopsJson Route.totalDistance Route.estimatedTime] in *.
  unfold finalStops in Hstops.
  apply (f_equal sliceInner) in Hstops. rewrite !sliceInner_bookends in Hstops.
  subst deliveries. split; [apply built_in_order|].
  rewrite finalStops_lacking by done. split; [done|].
  by rewrite heuristicTime_unknown.
Qed.

(** C8. When some stop of the day lacks coordinates (and there is a
    driver), generation returns, and cuts the stops, in their input
    order, into consecutive blocks of [ceil(n / k)] stops, the last one
    possibly smaller: the blocks put together are the input, none is
    empty, there is one route for each block and at most [k] routes.
    For 5 stops without coordinates and [k = 2] the blocks have 3 and 2
    stops, and the routes have no distance and the times 45 and 30
    ([15 * deliveries]). *)
Theorem fallback_blocks :
  (∀ dayLocations driverCount w,
     (1 <= driverCount)%nat →
     (∃ loc, loc ∈ dayLocations ∧ located loc = false) →
     ∃ routes w',
       generateRoutesForDay dayLocations driverCount w = (Ok routes, w')
       ∧ (length routes <= driverCount)%nat
       ∧ ∃ blocks,
           blocks = (λ i, blockAt (ceilRatio (length dayLocations) driverCount)
                            i dayLocations) <$> seq 0 (length routes)
           ∧ concat blocks = dayLocations
           ∧ Forall (λ block, block ≠ []
                       ∧ (length block
                            <= ceilRatio (length dayLocations) driverCount)%nat) blocks
           ∧ (∀ i block, blocks !! i = Some block → (S i < length blocks)%nat →
                length block = ceilRatio (length dayLocations) driverCount)
           ∧ Forall2 servesBlock blocks routes)
  ∧ (∀ l1 l2 l3 l4 l5 w,
       Forall (λ loc, Location.lat loc = None ∧ Location.lng loc = None)
              [l1; l2; l3; l4; l5] →
       ∃ r1 r2 w',
         generateRoutesForDay [l1; l2; l3; l4; l5] 2 w = (Ok [r1; r2], w')
         ∧ servesBlock [l1; l2; l3] r1 ∧ servesBlock [l4; l5] r2
         ∧ Route.totalDistance r1 = None ∧ Route.totalDistance r2 = None
         ∧ Route.estimatedTime r1 = Some 45%Z
         ∧ Route.estimatedTime r2 = Some 30%Z).
Proof.
  assert (Hgeneral : ∀ dayLocations driverCount w,
     (1 <= driverCount)%nat →
     (∃ loc, loc ∈ dayLocations ∧ located loc = false) →
     ∃ routes w',
       generateRoutesForDay dayLocations driverCount w = (Ok routes, w')
       ∧ (length routes <= driverCount)%nat
       ∧ ∃ blocks,
           blocks = (λ i, blockAt (ceilRatio (length dayLocations) driverCount)
                            i dayLocations) <$> seq 0 (length routes)
           ∧ concat blocks = dayLocations
           ∧ Forall (λ block, block ≠ []
                       ∧ (length block
                            <= ceilRatio (length dayLocations) driverCount)%nat) blocks
           ∧ (∀ i block, blocks !! i = Some block → (S i < length blocks)%nat →
                length block = ceilRatio (length dayLocations) driverCount)
           ∧ Forall2 servesBlock blocks routes).
  { intros dayLocations driverCount w Hk (loc & Hloc & Hun).
    assert (hasCoordinates dayLocations = false) as Hhas.
    { unfold hasCoordinates. apply andb_false_iff. left. apply Nat.eqb_neq.
      intros Hall. apply (filter_length_all (λ l, located l = true)) in Hall.
      pose proof (proj1 (Forall_forall _ _) Hall loc Hloc). congruence. }
    destruct (generateRoutesForDay_fallback dayLocations driverCount w Hhas)
      as (routes & w' & Hrun & Hlen & Hstart & Hcover & Hall).
    specialize (Hcover Hk).
    set (spd := ceilRatio (length dayLocations) driverCount) in *.
    assert (1 <= length dayLocations)%nat as Hn.
    { destruct dayLocations; [by apply elem_of_nil in Hloc | simpl; lia]. }
    assert (1 <= spd)%nat as Hspd by (by apply ceilRatio_pos).
    exists routes, w'. split; [done|]. split; [done|].
    eexists. split; [reflexivity|]. split; [by apply concat_blocks|].
    split; [|split].
    - apply Forall_fmap, Forall_forall. intros i Hi. apply elem_of_seq in Hi.
      simpl. split.
      + apply blockAt_nonEmpty; [done|]. apply Hstart. lia.
      + rewrite length_blockAt. lia.
    - intros i block Hi HS. rewrite length_fmap, length_seq in HS.
      rewrite list_lookup_fmap in Hi.
      destruct (seq 0 (length routes) !! i) as [j|] eqn:Hj; [|done].
      apply lookup_seq in Hj. destruct Hj as [-> _]. injection Hi as <-.
      rewrite length_blockAt. specialize (Hstart (S i) HS). simpl in *. lia.
    - apply Forall2_fmap_l. eapply Forall2_impl; [exact Hall|].
      intros i r. apply generatedFrom_servesBlock. }
  split; [exact Hgeneral|].
  intros l1 l2 l3 l4 l5 w Hnull.
  assert (∀ loc, loc ∈ [l1; l2; l3; l4; l5] → located loc = false) as Hun.
  { intros loc Hloc. destruct (proj1 (Forall_forall _ _) Hnull loc Hloc) as [Hlat _].
    unfold located. by rewrite Hlat. }
  destruct (Hgeneral [l1; l2; l3; l4; l5] 2%nat w) as
    (routes & w' & Hrun & Hlen & blocks & -> & Hconcat & _ & _ & Hall);
    [lia | exists l1; split; [left | apply Hun; left] |].
  change (ceilRatio (length [l1; l2; l3; l4; l5]) 2) with 3%nat in *.
  destruct routes as [|r1 [|r2 [|r3 routes]]]; simpl in Hlen, Hconcat;
    [done|done| |lia].
  cbn in Hall. apply Forall2_cons in Hall. destruct Hall as [H1 Hall].
  apply Forall2_cons in Hall. destruct Hall as [H2 _].
  exists r1, r2, w'. split; [done|]. split; [done|]. split; [done|].
  destruct H1 as (s1 & e1 & d1 & _ & _ & Hflat1).
  destruct H2 as (s2 & e2 & d2 & _ & _ & Hflat2).
  destruct Hflat1 as (_ & Hd1 & Ht1);
    [exists l1; split; [left | apply Hun; left]|].
  destruct Hflat2 as (_ & Hd2 & Ht2);
    [exists l4; split; [left | apply Hun; do 3 right; left]|].
  by repeat split.
Qed.

(** ** The map link *)

(** C9. For a stop list that is not empty, the map link is
    [https://www.google.com/maps/dir/] followed by the addresses of the
    stops, each percent-encoded, joined by [/], in the order of the
    list; and the link of a generated route is the one of its final stop
    list. *)
Theorem generateGoogleMapsUrl_format :
  (∀ stops addresses,
     stops ≠ [] →
     RouteStop.address <$> stops = Some <$> addresses →
     generateGoogleMapsUrl stops
     = "https://www.google.com/maps/dir/"
         +:+ join "/" (encodeURIComponent <$> addresses))
  ∧ (∀ dayLocations driverCount w,
       ∃ routes w',
         generateRoutesForDay dayLocations driverCount w = (Ok routes, w')
         ∧ Forall (λ r, Route.routeLink r = generateGoogleMapsUrl (Route.stopsJson r))
                  routes).
Proof.
  split.
  - intros stops addresses Hne Haddr. unfold generateGoogleMapsUrl.
    destruct stops as [|s stops]; [done|]. cbn [length Nat.eqb]. cbv zeta.
    do 2 f_equal.
    change (map (λ stop, encodeURIComponent (toStringU (RouteStop.address stop)))
                (s :: stops))
      with ((λ o, encodeURIComponent (toStringU o)) ∘ RouteStop.address
              <$> (s :: stops)).
    rewrite list_fmap_compose, Haddr, <- list_fmap_compose. done.
  - intros dayLocations driverCount w.
    destruct (generateRoutesForDay_routes dayLocations driverCount w)
      as (routes & w' & Hrun & Hall).
    exists routes, w'. split; [done|].
    eapply Forall_impl; [exact Hall|]. intros r (locs & _ & _ & Hgen).
    by destruct (generatedFrom_shape locs r Hgen)
      as (startId & endId & deliveries & _ & _ & _ & Hlink & _).
Qed.

(** ** The clusterer, stated *)

(** C3. For every list of locations and every [k >= 1], [kMeansClustering]
    returns (it does not throw), and the clusters it returns partition
    the located stops: put together they are the located stops, each taken
    once; none of them is empty; and there are at most [k] of them. *)
Theorem kMeansClustering_partition locations k :
  (1 <= k)%nat →
  ∃ clusters, kMeansClustering locations k = Some clusters
    ∧ concat clusters ≡ₚ filter (λ loc, located loc = true) locations
    ∧ Forall (λ cluster, cluster ≠ []) clusters
    ∧ (length clusters <= k)%nat.
Proof.
  intros Hk.
  destruct (kMeansClustering_clusters locations k Hk)
    as (clusters & Hrun & Hperm & Hne & Hlen).
  exists clusters. by repeat split.
Qed.

(** C6. With [n] located stops and [k >= n], the clusterer returns the
    [n] singleton clusters of the located stops, in their order, without
    any refinement; with 2 located stops and [k = 5] these are 2
    clusters, and generation produces 2 routes. *)
Theorem kMeansClustering_singletons :
  (∀ locations k,
     (length (filter (λ loc, located loc = true) locations) <= k)%nat →
     kMeansClustering locations k
     = Some ((λ loc, [loc]) <$> filter (λ loc, located loc = true) locations))
  ∧ (∀ l1 l2 w,
       located l1 = true → located l2 = true →
       kMeansClustering [l1; l2] 5 = Some [[l1]; [l2]]
       ∧ ∃ r1 r2 w', generateRoutesForDay [l1; l2] 5 w = (Ok [r1; r2], w')).
Proof.
  assert (Hsingle : ∀ locations k,
     (length (filter (λ loc, located loc = true) locations) <= k)%nat →
     kMeansClustering locations k
     = Some ((λ loc, [loc]) <$> filter (λ loc, located loc = true) locations)).
  { intros locations k Hk. unfold kMeansClustering.
    set (valid := filter (λ loc, located loc = true) locations) in *.
    destruct (length valid =? 0)%nat eqn:Hz.
    - apply length_zero_iff in Hz. by rewrite Hz.
    - apply Nat.eqb_neq in Hz.
      replace (k <=? 0)%nat with false by (symmetry; apply Nat.leb_gt; lia).
      by replace (length valid <=? k)%nat with true by (symmetry; by apply Nat.leb_le). }
  split; [exact Hsingle|]. intros l1 l2 w H1 H2.
  assert (filter (λ loc, located loc = true) [l1; l2] = [l1; l2]) as Hvalid.
  { rewrite !filter_cons, !decide_True by done. done. }
  assert (kMeansClustering [l1; l2] 5 = Some [[l1]; [l2]]) as Hk.
  { rewrite Hsingle by (rewrite Hvalid; simpl; lia). by rewrite Hvalid. }
  split; [done|].
  destruct (generateRoutesForDay_clustered [l1; l2] 5 w)
    as (clusters & routes & w' & Hk' & Hrun & Hall).
  { unfold hasCoordinates. by rewrite Hvalid. }
  assert (clusters = [[l1]; [l2]]) as -> by congruence.
  apply Forall2_length in Hall.
  destruct routes as [|r1 [|r2 [|r3 routes]]]; try done.
  by exists r1, r2, w'.
Qed.

(** C10. From the seeds on, after any number of iterations, the
    refinement is in a state with [k] centroids, and the next iteration
    runs (nothing is divided by zero, nothing is read out of range) and
    leaves [k] centroids again: a centroid with no member after the
    reassignment keeps its coordinates, none changes in the iteration
    that stops the loop, and otherwise a centroid with members becomes
    the mean of the coordinates of its members. *)
Theorem centroids_stay_defined validLocations k seeds iterations :
  (0 < k)%nat →
  initCentroids validLocations k = Some seeds →
  ∃ st,
    kMeansLoop iterations validLocations k (initialState validLocations seeds)
    = Some st
    ∧ length (centroids st) = k
    ∧ ∃ st' stop,
        kMeansIteration validLocations k st = Some (st', stop)
        ∧ length (centroids st') = k
        ∧ ∀ c, (c < k)%nat → centroidRule validLocations st st' stop c.
Proof.
  intros Hk Hseeds.
  assert (length seeds = k) as Hlen.
  { unfold initCentroids in Hseeds. apply length_mapM in Hseeds.
    by rewrite length_seq in Hseeds. }
  destruct (kMeansLoop_spec iterations validLocations k
              (initialState validLocations seeds) Hk) as (st & Hst & Hwf);
    [by apply initialState_wf|].
  exists st. split; [done|]. split; [by destruct Hwf|].
  destruct (kMeansIteration_spec validLocations k st Hk Hwf)
    as (st' & stop & Hit & Hwf' & Hrule).
  exists st', stop. split; [done|]. split; [by destruct Hwf'|done].
Qed.

(** ** Further properties of the clusterer *)

(** The scan over the centroids is the scan of the sequencer over their
    coordinates. *)
Lemma scanCentroids_scanRemaining lat lng cs c minDist closest :
  scanCentroids lat lng cs c minDist closest
  = scanRemaining (λ p : Q * Q, Some p.1) (λ p : Q * Q, Some p.2) (lat, lng)
      ((λ cen, (Centroid.lat cen, Centroid.lng cen)) <$> cs) c closest minDist.
Proof.
  revert c minDist closest.
  induction cs as [|cen cs IH]; intros c minDist closest; [done|].
  rewrite fmap_cons. cbn [scanCentroids scanRemaining num fst snd Centroid.lat Centroid.lng].
  destruct (ltInf _ minDist); apply IH.
Qed.

(** X1. The centroid a location is assigned to is at a minimal distance
    of the location among all the centroids, and the first such one:
    every centroid of a smaller index is strictly farther. *)
Theorem closestCentroid_nearest (centroids : list Centroid.t) (loc : Location.t) :
  centroids ≠ [] →
  ∃ cen, centroids !! closestCentroid centroids loc = Some cen
    ∧ ∀ j cen', centroids !! j = Some cen' →
        centroidDistance loc cen <= centroidDistance loc cen'
        ∧ ((j < closestCentroid centroids loc)%nat →
            centroidDistance loc cen < centroidDistance loc cen').
Proof.
  intros Hne. unfold closestCentroid. rewrite scanCentroids_scanRemaining.
  set (pairs := (λ cen, (Centroid.lat cen, Centroid.lng cen)) <$> centroids).
  set (here := (num (Location.lat loc), num (Location.lng loc))).
  destruct (scanRemaining_first (λ p : Q * Q, Some p.1) (λ p : Q * Q, Some p.2)
              here pairs) as (x & Hx & Hmin).
  { unfold pairs. by destruct centroids. }
  unfold pairs in Hx. rewrite list_lookup_fmap in Hx.
  destruct (centroids !! _) as [cen|] eqn:Hcen; [|done].
  simpl in Hx. injection Hx as <-.
  exists cen. split; [done|]. intros j cen' Hj.
  apply (Hmin j (Centroid.lat cen', Centroid.lng cen')).
  unfold pairs. by rewrite list_lookup_fmap, Hj.
Qed.

Lemma kMeansIteration_assignments validLocations k st st' stop :
  kMeansIteration validLocations k st = Some (st', stop) →
  assignments st' = map (closestCentroid (centroids st)) validLocations.
Proof.
  unfold kMeansIteration. destruct (hasConverged _ _).
  - by intros [= <- _].
  - destruct (updateCentroids _ _ _ _); simpl; [|done]. by intros [= <- _].
Qed.

Lemma membersAmong_cons i loc rest assignments a c :
  assignments !! i = Some a →
  membersAmong ((i, loc) :: rest) assignments c
  = if decide (a = c) then loc :: membersAmong rest assignments c
    else membersAmong rest assignments c.
Proof.
  intros Ha. unfold membersAmong. rewrite filter_cons. simpl. rewrite Ha.
  destruct (decide (a = c)) as [->|Hne].
  - by rewrite decide_True.
  - rewrite decide_False; [done|]. congruence.
Qed.

(** What the final pass leaves in each cluster. *)
Lemma pushAll_lookup items assignments clusters r :
  pushAll items assignments clusters = Some r →
  length r = length clusters
  ∧ ∀ c, r !! c = (λ cl, cl ++ membersAmong items assignments c) <$> clusters !! c.
Proof.
  revert clusters. induction items as [|[i loc] rest IH]; intros clusters Hrun.
  - injection Hrun as <-. split; [done|]. intros c.
    destruct (clusters !! c) as [cl|]; simpl; [|done].
    unfold membersAmong. by rewrite filter_nil, fmap_nil, app_nil_r.
  - simpl in Hrun. destruct (assignments !! i) as [a|] eqn:Ha; [|done].
    simpl in Hrun. destruct (clusters !! a) as [slot|] eqn:Hslot; [|done].
    simpl in Hrun. destruct (IH _ Hrun) as [Hlen Hlook].
    split; [by rewrite Hlen, length_alter|].
    intros c. rewrite Hlook, (membersAmong_cons i loc rest assignments a c Ha).
    destruct (decide (a = c)) as [->|Hne].
    + rewrite list_lookup_alter. destruct (clusters !! c) as [cl|]; [|done].
      rewrite decide_True by done.
      cbn [fmap option_fmap option_map]. by rewrite <- app_assoc.
    + by rewrite list_lookup_alter_ne.
Qed.

Lemma hasConverged_spec (newAssignments assignments : list nat) :
  length newAssignments = length assignments →
  hasConverged newAssignments assignments = true ↔ newAssignments = assignments.
Proof.
  intros Hlen. unfold hasConverged. rewrite forallb_forall. split.
  - intros Hall. apply list_eq. intros i.
    destruct (newAssignments !! i) as [a|] eqn:Ha.
    + specialize (Hall (i, a)). simpl in Hall.
      symmetry. eapply bool_decide_eq_true_1, Hall.
      apply list_elem_of_In, elem_of_indexed. done.
    + symmetry. apply lookup_ge_None. apply lookup_ge_None in Ha. lia.
  - intros -> [i a] Hin. apply list_elem_of_In, elem_of_indexed in Hin.
    by apply bool_decide_eq_true_2.
Qed.

(** The centroid the scan returns is the first nearest one. *)
Lemma closestCentroid_nearestCentroid (cs : list Centroid.t) (loc : Location.t) :
  cs ≠ [] → nearestCentroid cs loc (closestCentroid cs loc).
Proof.
  intros Hne. unfold closestCentroid. rewrite scanCentroids_scanRemaining.
  set (pairs := (λ cen, (Centroid.lat cen, Centroid.lng cen)) <$> cs).
  set (here := (num (Location.lat loc), num (Location.lng loc))).
  destruct (scanRemaining_first (λ p : Q * Q, Some p.1) (λ p : Q * Q, Some p.2)
              here pairs) as (x & Hx & Hmin).
  { unfold pairs. by destruct cs. }
  unfold pairs in Hx. rewrite list_lookup_fmap in Hx.
  destruct (cs !! _) as [cen|] eqn:Hcen; [|done].
  simpl in Hx. injection Hx as <-.
  exists cen. split; [done|]. intros j cen' Hj.
  apply (Hmin j (Centroid.lat cen', Centroid.lng cen')).
  unfold pairs. by rewrite list_lookup_fmap, Hj.
Qed.

(** A pass that ends the loop leaves the state as it was. *)
Lemma kMeansIteration_fixed validLocations k st st' :
  length (assignments st) = length validLocations →
  kMeansIteration validLocations k st = Some (st', true) → st' = st.
Proof.
  intros Hlen Hit.
  pose proof (hasConverged_spec
                (map (closestCentroid (centroids st)) validLocations)
                (assignments st)) as Hconv.
  rewrite length_map in Hconv. specialize (Hconv (eq_sym Hlen)).
  unfold kMeansIteration in Hit.
  destruct (hasConverged _ _) eqn:Hc.
  - injection Hit as <-. rewrite (proj1 Hconv eq_refl). by destruct st.
  - destruct (updateCentroids _ _ _ _); simpl in Hit; [|done]. by injection Hit.
Qed.

(** The state the loop returns after [S n] passes at most is the one a
    pass leaves, from the state the loop returns after [n] passes at
    most: the last pass that is run, or a pass that would change
    nothing. *)
Lemma kMeansLoop_last_pass n validLocations k st final :
  (0 < k)%nat → wellFormed validLocations k st →
  kMeansLoop (S n) validLocations k st = Some final →
  ∃ before stop,
    kMeansLoop n validLocations k st = Some before
    ∧ wellFormed validLocations k before
    ∧ kMeansIteration validLocations k before = Some (final, stop).
Proof.
  intros Hk. revert st. induction n as [|n IH]; intros st Hwf Hrun.
  - destruct (kMeansIteration_spec validLocations k st Hk Hwf)
      as (st1 & stop & Hit & _ & _).
    simpl in Hrun. rewrite Hit in Hrun. simpl in Hrun.
    assert (final = st1) as -> by (destruct stop; congruence).
    by exists st, stop.
  - destruct (kMeansIteration_spec validLocations k st Hk Hwf)
      as (st1 & stop & Hit & Hwf1 & _).
    change (kMeansLoop (S (S n)) validLocations k st)
      with ('(st', stop) ← kMeansIteration validLocations k st;
            if stop : bool then Some st' else kMeansLoop (S n) validLocations k st')
      in Hrun.
    change (kMeansLoop (S n) validLocations k st)
      with ('(st', stop) ← kMeansIteration validLocations k st;
            if stop : bool then Some st' else kMeansLoop n validLocations k st').
    rewrite Hit in Hrun. rewrite Hit. cbn [mbind option_bind] in *. destruct stop.
    + injection Hrun as <-.
      assert (st1 = st) as -> by (eapply kMeansIteration_fixed; [apply Hwf|done]).
      by exists st, true.
    + by apply IH.
Qed.

(** X2. With more located stops than clusters, the clusters returned are
    the non-empty cells of the [k] centroids of the last assignment
    pass, those the loop holds after 19 passes at most: the pass from
    there leaves the state the loop returns, it assigns to each located
    stop the centroid nearest to it (the first such one), and the
    clusters are, in the order of the centroids, the stops assigned to
    each in the order of the input, the centroids without a stop left
    out. *)
Theorem kMeansClustering_cells (locations : list Location.t) (k : nat) :
  (1 <= k)%nat →
  (k < length (filter (λ loc, located loc = true) locations))%nat →
  ∃ seeds before final stop,
    initCentroids (filter (λ loc, located loc = true) locations) k = Some seeds
    ∧ kMeansLoop 19 (filter (λ loc, located loc = true) locations) k
        (initialState (filter (λ loc, located loc = true) locations) seeds)
      = Some before
    ∧ kMeansIteration (filter (λ loc, located loc = true) locations) k before
      = Some (final, stop)
    ∧ kMeansLoop maxIterations (filter (λ loc, located loc = true) locations) k
        (initialState (filter (λ loc, located loc = true) locations) seeds)
      = Some final
    ∧ length (centroids before) = k
    ∧ Forall2 (nearestCentroid (centroids before))
        (filter (λ loc, located loc = true) locations) (assignments final)
    ∧ kMeansClustering locations k
      = Some (filter (λ cluster, nonEmpty cluster = true)
                (membersOf (filter (λ loc, located loc = true) locations)
                   (assignments final) <$> seq 0 k)).
Proof.
  intros Hk Hn.
  destruct (kMeansClustering_refined locations k) as
    (seeds & final & clusters & Hseeds & Hloop & _ & Hpush & Hlen & _ & Hrun);
    [lia|done|].
  set (valid := filter (λ loc, located loc = true) locations) in *.
  destruct (initCentroids_total valid k) as (seeds' & Hseeds' & Hlseeds); [lia|].
  assert (seeds' = seeds) as -> by congruence.
  pose proof Hloop as Hlast. change maxIterations with (S 19) in Hlast.
  apply kMeansLoop_last_pass in Hlast; [|lia|apply initialState_wf; [lia|done]].
  destruct Hlast as (before & stop & Hbefore & Hwf & Hpass).
  exists seeds, before, final, stop.
  split; [done|]. split; [done|]. split; [done|]. split; [done|].
  split; [apply Hwf|].
  pose proof (kMeansIteration_assignments _ _ _ _ _ Hpass) as Hasg.
  split.
  - rewrite Hasg. apply Forall2_fmap_r, Forall_Forall2_diag, Forall_forall.
    intros loc _. apply closestCentroid_nearestCentroid.
    destruct Hwf as (Hcs & _). destruct (centroids before); [simpl in Hcs; lia|done].
  - rewrite Hrun. f_equal. f_equal.
    destruct (pushAll_lookup _ _ _ _ Hpush) as [_ Hlook].
    apply list_eq. intros c. rewrite Hlook, list_lookup_fmap.
    destruct (decide (c < k)%nat) as [Hc|Hc].
    + rewrite lookup_replicate_2 by done. rewrite lookup_seq_lt by done. done.
    + assert (replicate k (@nil Location.t) !! c = None) as ->
        by (apply lookup_replicate_None; lia).
      rewrite lookup_seq_ge by lia. done.
Qed.

(** X3. A pass of the refinement ends the loop exactly when no stop
    changes its cluster; the pass then leaves the state as it was, and
    the loop returns that state whatever the number of passes left. *)
Theorem kMeansIteration_stops_at_fixed_point
    (validLocations : list Location.t) (k : nat) (st st' : KState) (stop : bool) :
  length (assignments st) = length validLocations →
  kMeansIteration validLocations k st = Some (st', stop) →
  (stop = true ↔ assignments st' = assignments st)
  ∧ (stop = true →
       st' = st ∧ ∀ n, kMeansLoop (S n) validLocations k st = Some st).
Proof.
  intros Hlen Hit.
  pose proof (kMeansIteration_assignments _ _ _ _ _ Hit) as Hasg.
  pose proof (hasConverged_spec
                (map (closestCentroid (centroids st)) validLocations)
                (assignments st)) as Hconv.
  rewrite length_map in Hconv. specialize (Hconv (eq_sym Hlen)).
  unfold kMeansIteration in Hit.
  destruct (hasConverged _ _) eqn:Hc.
  - injection Hit as <- <-. pose proof (proj1 Hconv eq_refl) as Heq.
    assert (mkKState (centroids st)
              (map (closestCentroid (centroids st)) validLocations) = st) as Hst.
    { rewrite Heq. by destruct st. }
    split; [split; [intros _; simpl; apply Heq|done]|].
    intros _. split; [done|]. intros n. simpl. unfold kMeansIteration.
    rewrite Hc. simpl. by rewrite Hst.
  - destruct (updateCentroids _ _ _ _); simpl in Hit; [|done].
    injection Hit as <- <-. split; [|done]. split; [done|].
    simpl. intros Heq. by apply Hconv in Heq.
Qed.

(** ** Further properties of the optimizer adapter *)

(** The world after the adapter: one call of the provider when the
    preconditions hold, none otherwise. *)
Lemma optimizeRouteWithGoogle_world stops w g w' :
  optimizeRouteWithGoogle stops w = (Ok g, w') →
  (callAttempted stops ∧ w' = mkWorld (uuids w) (S (fetches w)))
  ∨ (¬ callAttempted stops ∧ g = None ∧ w' = w).
Proof.
  intros Hrun.
  destruct (classic_callAttempted stops) as [Hatt|Hnot].
  - left. split; [done|].
    rewrite optimizeRouteWithGoogle_attempted in Hrun by done.
    destruct Hatt as (Hkey & Hlen & Hall).
    destruct (lookup_lt_is_Some_2 stops 0%nat) as [origin Ho]; [lia|].
    destruct (lookup_lt_is_Some_2 stops (length stops - 1)%nat) as [destination Hd];
      [lia|].
    unfold tryCatch, optimizeRouteBody in Hrun. rewrite Ho, Hd in Hrun.
    simpl in Hrun. unfold mbind, M_bind, mret, M_ret, fetch in Hrun.
    destruct (provider (fetches w)
                (requestBodyOf origin destination (sliceInner stops)))
      as [|ok body]; simpl in Hrun; [congruence|].
    destruct body as [[|[[|[route|] rest]|]]|]; simpl in Hrun;
      destruct ok; simpl in Hrun; congruence.
  - right. rewrite optimizeRouteWithGoogle_skipped in Hrun by done.
    split; [done|]. split; congruence.
Qed.

Lemma sequence_resequence (stops : list (option RouteStop.t)) :
  RouteStop.sequence <$> resequence stops = seq 1 (length stops).
Proof.
  unfold resequence. apply list_eq. intros i.
  rewrite list_lookup_fmap, list_lookup_imap.
  destruct (stops !! i) as [s|] eqn:Hs; simpl.
  - rewrite lookup_seq_lt by (by eapply lookup_lt_Some).
    destruct s; simpl; f_equal; lia.
  - rewrite lookup_seq_ge; [done|]. by apply lookup_ge_None.
Qed.

Lemma length_resequence (stops : list (option RouteStop.t)) :
  length (resequence stops) = length stops.
Proof. apply length_imap. Qed.

(** A list of two elements or more is its first element, the elements
    between, and its last element. *)
Lemma bookends_sliceInner {A} (l : list A) a b :
  (2 <= length l)%nat → l !! 0%nat = Some a → l !! (length l - 1)%nat = Some b →
  l = [a] ++ sliceInner l ++ [b].
Proof.
  intros Hlen Ha Hb. unfold sliceInner, slice.
  destruct l as [|x l]; [done|]. simpl in Ha. injection Ha as ->.
  simpl. f_equal. simpl in Hlen, Hb.
  rewrite Nat.sub_0_r in *. rewrite drop_0.
  destruct (length l) as [|n] eqn:Hn; [lia|]. simpl in Hb.
  replace (S n - 1)%nat with n by lia.
  rewrite <- (take_drop n l) at 1. f_equal.
  assert (l !! n = Some b) as Hb'.
  { destruct n; simpl in Hb; [by destruct l|]. done. }
  apply list_eq. intros [|i].
  - rewrite lookup_drop, Nat.add_0_r. done.
  - rewrite lookup_drop. simpl. apply lookup_ge_None. lia.
Qed.

(** Picking the elements of a list by a permutation of its indices
    gives a permutation of the list. *)
Lemma picks_permutation {A} (l : list A) (indices : list Z) :
  indices ≡ₚ Z.of_nat <$> seq 0 (length l) →
  map (λ idx, lookupZ idx l) indices ≡ₚ Some <$> l.
Proof.
  intros Hperm.
  change (map (λ idx, lookupZ idx l) indices) with ((λ idx, lookupZ idx l) <$> indices).
  rewrite Hperm, <- list_fmap_compose.
  assert ((λ idx, lookupZ idx l) ∘ Z.of_nat <$> seq 0 (length l) = Some <$> l) as ->;
    [|done].
  apply list_eq. intros i. rewrite !list_lookup_fmap.
  destruct (l !! i) as [x|] eqn:Hx.
  - rewrite lookup_seq_lt by (by eapply lookup_lt_Some). simpl.
    unfold lookupZ. replace (Z.of_nat i <? 0)%Z with false by (symmetry; apply Z.ltb_ge; lia).
    by rewrite Nat2Z.id, Hx.
  - rewrite lookup_seq_ge; [done|]. by apply lookup_ge_None.
Qed.

Lemma unsequenced_resequence_fmap (stops : list (option RouteStop.t)) :
  unsequenced <$> resequence stops
  = (λ stop, match stop with
             | Some s => unsequenced s
             | None => RouteStop.ofUndefined 0
             end) <$> stops.
Proof.
  unfold resequence. apply list_eq. intros i.
  rewrite !list_lookup_fmap, list_lookup_imap.
  by destruct (stops !! i) as [[s|]|].
Qed.

(** The list the adapter renumbers: the origin, stops picked among the
    intermediate ones, the destination. *)
Lemma reorderStops_bookends stops origin destination route :
  (2 <= length stops)%nat →
  stops !! 0%nat = Some origin →
  stops !! (length stops - 1)%nat = Some destination →
  ∃ mid,
    reorderStops stops origin destination (sliceInner stops) route
    = [Some origin] ++ mid ++ [Some destination]
    ∧ ((∀ indices,
          optimizedIntermediateWaypointIndex route = Some indices →
          indices ≡ₚ Z.of_nat <$> seq 0 (length (sliceInner stops))) →
       mid ≡ₚ Some <$> sliceInner stops).
Proof.
  intros Hlen Ho Hd.
  pose proof (bookends_sliceInner stops origin destination Hlen Ho Hd) as Hstops.
  assert (map Some stops
          = [Some origin] ++ (Some <$> sliceInner stops) ++ [Some destination]) as Hplain.
  { rewrite Hstops at 1. change (map Some) with (fmap (M:=list) (@Some RouteStop.t)).
    by rewrite !fmap_app. }
  unfold reorderStops.
  destruct (optimizedIntermediateWaypointIndex route) as [indices|];
    [|by exists (Some <$> sliceInner stops)].
  destruct (0 <? length (sliceInner stops))%nat;
    [|by exists (Some <$> sliceInner stops)].
  exists (map (λ idx, lookupZ idx (sliceInner stops)) indices). split; [done|].
  intros Hperm. apply picks_permutation. by apply Hperm.
Qed.

(** X4. A result of the adapter: the provider was called exactly once;
    the stops are numbered 1, 2, ... in their order, the first one is the
    first stop of the input and the last one its last stop; and when the
    provider answers with a permutation of the indices of the
    intermediate stops, the stops of the result are the stops of the
    input, rearranged. *)
Theorem optimizeRouteWithGoogle_result (stops : list RouteStop.t) (w w' : World)
    (g : GoogleRoutesOptimizationResult) :
  optimizeRouteWithGoogle stops w = (Ok (Some g), w') →
  ∃ origin destination,
    stops !! 0%nat = Some origin
    ∧ stops !! (length stops - 1)%nat = Some destination
    ∧ RouteStop.sequence <$> optimizedStops g = seq 1 (length (optimizedStops g))
    ∧ optimizedStops g !! 0%nat = Some (RouteStop.withSequence origin 1)
    ∧ optimizedStops g !! (length (optimizedStops g) - 1)%nat
      = Some (RouteStop.withSequence destination (length (optimizedStops g)))
    ∧ w' = mkWorld (uuids w) (S (fetches w))
    ∧ (indicesPermute →
         unsequenced <$> optimizedStops g ≡ₚ unsequenced <$> stops).
Proof.
  intros Hrun.
  destruct (optimizeRouteWithGoogle_Some stops w g w' Hrun)
    as (origin & destination & route & rest & Hatt & Ho & Hd & Hanswer & -> & ->).
  destruct Hatt as (_ & Hlen & _).
  destruct (reorderStops_bookends stops origin destination route Hlen Ho Hd)
    as (mid & Hl & Hperm).
  exists origin, destination. cbn [optimizedStops]. rewrite Hl.
  split; [done|]. split; [done|].
  split; [by rewrite sequence_resequence, length_resequence|].
  rewrite length_resequence. split; [done|]. split.
  { set (l := [Some origin] ++ mid ++ [Some destination]).
    assert (length l = S (S (length mid))) as Hll
      by (unfold l; rewrite !length_app; simpl; lia).
    assert (l !! S (length mid) = Some (Some destination)) as Hlast.
    { change l with ((Some origin :: mid) ++ [Some destination]).
      rewrite lookup_app_r by (simpl; lia). simpl. by rewrite Nat.sub_diag. }
    unfold resequence. rewrite list_lookup_imap, Hll.
    replace (S (S (length mid)) - 1)%nat with (S (length mid)) by lia.
    rewrite Hlast. simpl. do 2 f_equal. lia. }
  split; [done|]. intros Hprov.
  rewrite unsequenced_resequence_fmap.
  rewrite (bookends_sliceInner stops origin destination Hlen Ho Hd) at 1.
  rewrite Hperm.
  - rewrite !fmap_app, <- list_fmap_compose. done.
  - intros indices Hidx.
    pose proof (Hprov _ _ _ _ _ _ Hanswer Hidx) as Hp.
    unfold requestBodyOf in Hp. cbn [intermediates] in Hp.
    destruct (0 <? length (sliceInner stops))%nat eqn:Hpos.
    + cbn [default from_option id] in Hp. by rewrite length_map in Hp.
    + apply Nat.ltb_ge in Hpos.
      replace (length (sliceInner stops)) with 0%nat by lia. done.
Qed.

(** ** Further properties of the generation *)

Lemma forClusters_trace clusters createdRoutes w :
  ∃ routes w' groups,
    forClusters clusters createdRoutes w = (Ok (createdRoutes ++ routes), w')
    ∧ Forall2 (λ cluster orderedLocations,
                 nearestNeighborOrdering Location.lat Location.lng cluster
                   = Some orderedLocations
                 ∧ orderedLocations ≡ₚ cluster)
        (filter (λ cluster, cluster ≠ []) clusters) groups
    ∧ routesTrace groups routes w w'.
Proof.
  revert createdRoutes w.
  induction clusters as [|cluster rest IH]; intros createdRoutes w.
  - exists [], w, []. simpl. rewrite app_nil_r. split; [done|]. split; [constructor|done].
  - rewrite filter_cons. cbn [forClusters].
    destruct cluster as [|loc cluster].
    + rewrite decide_False by (by intros H). simpl. apply IH.
    + rewrite decide_True by done.
      replace (length (loc :: cluster) =? 0)%nat with false by done.
      destruct (routeForCluster_run (loc :: cluster) w)
        as (ordered & g & w2 & Hnn & Hperm & Hg & Hrun).
      rewrite (bind_Ok _ _ _ _ _ Hrun).
      destruct (IH (createdRoutes ++ [routeWith ordered w g (uuids w2)])
                   (mkWorld (uuids w2 + 2) (fetches w2)))
        as (routes & w' & groups & Hrest & Hall & Htrace).
      exists (routeWith ordered w g (uuids w2) :: routes), w', (ordered :: groups).
      split; [by rewrite Hrest, <- app_assoc|].
      split; [by constructor|].
      simpl. exists (mkWorld (uuids w2 + 2) (fetches w2)). split; [|done].
      by exists g, w2.
Qed.

Lemma forDrivers_trace s m dayLocations stopsPerDriver createdRoutes w :
  ∃ routes w',
    forDrivers (seq s m) dayLocations stopsPerDriver createdRoutes w
      = (Ok (createdRoutes ++ routes), w')
    ∧ (length routes <= m)%nat
    ∧ (∀ j, (j < length routes)%nat → ((s + j) * stopsPerDriver < length dayLocations)%nat)
    ∧ ((length routes < m)%nat →
         (length dayLocations <= (s + length routes) * stopsPerDriver)%nat)
    ∧ routesTrace ((λ i, blockAt stopsPerDriver i dayLocations) <$> seq s (length routes))
        routes w w'.
Proof.
  revert s createdRoutes w. induction m as [|m IH]; intros s createdRoutes w.
  - exists [], w. simpl. rewrite app_nil_r.
    split; [done|]. split; [done|]. split; [intros j Hj; lia|].
    split; [lia|done].
  - cbn [seq forDrivers].
    destruct (length dayLocations <=? s * stopsPerDriver)%nat eqn:Hbreak.
    + exists [], w. rewrite app_nil_r. apply Nat.leb_le in Hbreak. simpl.
      split; [done|]. split; [lia|]. split; [intros j Hj; lia|].
      split; [intros _; by rewrite Nat.add_0_r|done].
    + apply Nat.leb_gt in Hbreak. rewrite slice_blockAt.
      destruct (routeForBlock_run (blockAt stopsPerDriver s dayLocations) w)
        as (g & w2 & Hg & Hrun).
      rewrite (bind_Ok _ _ _ _ _ Hrun).
      destruct (IH (S s)
                  (createdRoutes ++
                     [routeWith (blockAt stopsPerDriver s dayLocations) w g (uuids w2)])
                  (mkWorld (uuids w2 + 2) (fetches w2)))
        as (routes & w' & Hrest & Hlen & Hstart & Hstop & Htrace).
      exists (routeWith (blockAt stopsPerDriver s dayLocations) w g (uuids w2) :: routes),
             w'.
      split; [by rewrite Hrest, <- app_assoc|]. simpl.
      split; [lia|]. split; [|split].
      * intros [|j] Hj; [by rewrite Nat.add_0_r|].
        replace (s + S j)%nat with (S s + j)%nat by lia. apply Hstart. lia.
      * intros Hlt. replace (s + S (length routes))%nat
          with (S s + length routes)%nat by lia. apply Hstop. lia.
      * exists (mkWorld (uuids w2 + 2) (fetches w2)). split; [|done].
        by exists g, w2.
Qed.

Lemma routesTrace_length groups routes w w' :
  routesTrace groups routes w w' → length routes = length groups.
Proof.
  revert routes w. induction groups as [|locs groups IH]; intros [|r routes] w H;
    simpl in H; try done.
  destruct H as (w1 & _ & H). simpl. f_equal. by eapply IH.
Qed.

Lemma filter_all {A} (P : A → Prop) `{∀ x, Decision (P x)} (l : list A) :
  Forall P l → filter P l = l.
Proof.
  induction 1 as [|x l Hx Hl IH]; [done|].
  by rewrite filter_cons, decide_True, IH.
Qed.

Lemma concat_Forall2_perm {A} (l1 l2 : list (list A)) :
  Forall2 (λ a b, b ≡ₚ a) l1 l2 → concat l2 ≡ₚ concat l1.
Proof.
  induction 1 as [|a b l1 l2 Hab Hl IH]; [done|]. simpl. by rewrite Hab, IH.
Qed.

Lemma length_concat_nonEmpty {A} (l : list (list A)) :
  Forall (λ x, x ≠ []) l → (length l <= length (concat l))%nat.
Proof.
  induction 1 as [|x l Hx Hl IH]; [done|]. simpl. rewrite length_app.
  destruct x; [done|]. simpl. lia.
Qed.

Lemma hasCoordinates_true dayLocations :
  hasCoordinates dayLocations = true →
  filter (λ loc, located loc = true) dayLocations = dayLocations
  ∧ dayLocations ≠ [].
Proof.
  unfold hasCoordinates. intros H. apply andb_true_iff in H. destruct H as [Hall Hpos].
  apply Nat.eqb_eq in Hall.
  apply (filter_length_all (λ l, located l = true)) in Hall.
  split; [by apply filter_all|]. by destruct dayLocations.
Qed.

(** The groups of locations the routes are assembled for: they are not
    empty, no more than the drivers, and with one driver or more they
    hold every location of the day once. *)
Lemma generateRoutesForDay_trace dayLocations driverCount w :
  ∃ routes w' groups,
    generateRoutesForDay dayLocations driverCount w = (Ok routes, w')
    ∧ routesTrace groups routes w w'
    ∧ Forall (λ locs, locs ≠ []) groups
    ∧ (length groups <= driverCount)%nat
    ∧ (length groups <= length dayLocations)%nat
    ∧ ((1 <= driverCount)%nat → concat groups ≡ₚ dayLocations)
    ∧ (hasCoordinates dayLocations = true → Forall (λ loc, located loc = true) dayLocations)
    ∧ (hasCoordinates dayLocations = false →
         groups = (λ i, blockAt (ceilRatio (length dayLocations) driverCount)
                          i dayLocations) <$> seq 0 (length routes)).
Proof.
  destruct (hasCoordinates dayLocations) eqn:Hhas.
  - destruct (hasCoordinates_true _ Hhas) as [Hfilter Hne].
    unfold generateRoutesForDay. fold (hasCoordinates dayLocations). rewrite Hhas.
    destruct (kMeansClustering_returns dayLocations driverCount)
      as (clusters & Hrun & Hcne & Hlen & _).
    rewrite Hrun. unfold liftOpt.
    unfold mbind at 1, M_bind at 1, mret at 1, M_ret at 1.
    destruct (forClusters_trace clusters [] w)
      as (routes & w' & groups & Hfor & Hall & Htrace).
    rewrite (filter_all (λ cluster, cluster ≠ []) clusters Hcne) in Hall.
    assert (length groups = length clusters) as Hlg
      by (symmetry; by eapply Forall2_length).
    assert (Forall (λ locs, locs ≠ []) groups) as Hgne.
    { eapply Forall2_Forall_r; [exact Hall|].
      intros cluster ordered Hin [_ Hperm] ->.
      apply Permutation_nil_l in Hperm.
      exact (proj1 (Forall_forall _ _) Hcne cluster Hin (eq_sym Hperm)). }
    assert (concat groups ≡ₚ concat clusters) as Hcc.
    { apply concat_Forall2_perm. eapply Forall2_impl; [exact Hall|].
      by intros ?? [_ ?]. }
    exists routes, w', groups. split; [done|]. split; [done|]. split; [done|].
    split; [lia|].
    assert ((1 <= driverCount)%nat → concat groups ≡ₚ dayLocations) as Hcover.
    { intros Hk. destruct (kMeansClustering_clusters dayLocations driverCount Hk)
        as (clusters' & Hrun' & Hperm & _).
      assert (clusters' = clusters) as -> by congruence.
      by rewrite Hcc, Hperm, Hfilter. }
    split; [|split; [done|split; [|done]]].
    + destruct driverCount as [|k]; [lia|].
      rewrite <- (Hcover ltac:(lia)). by apply length_concat_nonEmpty.
    + intros _. rewrite <- Hfilter. apply Forall_forall. intros loc Hloc.
      apply list_elem_of_filter in Hloc. by destruct Hloc.
  - unfold generateRoutesForDay. fold (hasCoordinates dayLocations). rewrite Hhas.
    set (spd := ceilRatio (length dayLocations) driverCount).
    destruct (forDrivers_trace 0 driverCount dayLocations spd [] w)
      as (routes & w' & Hrun & Hlen & Hstart & Hstop & Htrace).
    exists routes, w', ((λ i, blockAt spd i dayLocations) <$> seq 0 (length routes)).
    split; [done|]. split; [done|].
    assert ((1 <= length routes)%nat →
            (1 <= spd)%nat ∧ (1 <= length dayLocations)%nat) as Hpos.
    { intros Hr. pose proof (Hstart 0%nat ltac:(lia)) as H0. simpl in H0.
      split; [|lia]. apply ceilRatio_pos; lia. }
    rewrite length_fmap, length_seq.
    split; [|split; [done|split; [|split; [|done]]]].
    + apply Forall_fmap, Forall_forall. intros i Hi. apply elem_of_seq in Hi. simpl.
      apply blockAt_nonEmpty; [apply Hpos; lia|]. apply (Hstart i). lia.
    + destruct (length routes) as [|n] eqn:Hn; [lia|].
      destruct Hpos as [Hspd _]; [lia|].
      pose proof (Hstart n ltac:(lia)) as Hlast. simpl in Hlast. nia.
    + intros Hk. rewrite concat_blocks; [done|].
      destruct (decide (length routes < driverCount)%nat) as [Hlt|Hge].
      * by apply Hstop.
      * replace (length routes) with driverCount by lia.
        fold spd. pose proof (ceilRatio_covers (length dayLocations) driverCount Hk).
        unfold spd. lia.
Qed.

Lemma routesTrace_Forall2 groups routes w w' :
  routesTrace groups routes w w' →
  Forall2 (λ locs r, ∃ w0 w1, tracedRoute locs r w0 w1) groups routes.
Proof.
  revert routes w. induction groups as [|locs groups IH]; intros [|r routes] w H;
    simpl in H; try done.
  destruct H as (w1 & Hr & H). constructor; [by exists w, w1|by eapply IH].
Qed.

Lemma length_finalStops deliveries u :
  length (finalStops deliveries u) = (length deliveries + 2)%nat.
Proof. unfold finalStops. rewrite !length_app. simpl. lia. Qed.

Lemma tracedRoute_draft locs r w w' :
  tracedRoute locs r w w' →
  (2 <= Route.stopCount r)%nat
  ∧ Route.stopCount r = length (Route.stopsJson r)
  ∧ Route.status r = "draft" ∧ Route.driverId r = None ∧ Route.driverName r = None.
Proof.
  intros (g & w2 & _ & -> & _). unfold routeWith.
  destruct g as [result|]; cbn [Route.stopCount Route.stopsJson Route.status
    Route.driverId Route.driverName]; rewrite length_finalStops;
    (split; [lia|]); done.
Qed.

(** X5. The generation returns routes, no more than the drivers and no
    more than the locations of the day; each one is a draft without a
    driver, and holds two stops or more. *)
Theorem generateRoutesForDay_bounds (dayLocations : list Location.t)
    (driverCount : nat) (w : World) :
  ∃ routes w',
    generateRoutesForDay dayLocations driverCount w = (Ok routes, w')
    ∧ (length routes <= driverCount)%nat
    ∧ (length routes <= length dayLocations)%nat
    ∧ Forall (λ r, (2 <= Route.stopCount r)%nat
                   ∧ Route.stopCount r = length (Route.stopsJson r)
                   ∧ Route.status r = "draft"
                   ∧ Route.driverId r = None ∧ Route.driverName r = None) routes.
Proof.
  destruct (generateRoutesForDay_trace dayLocations driverCount w)
    as (routes & w' & groups & Hrun & Htrace & _ & Hk & Hn & _).
  exists routes, w'. split; [done|].
  rewrite (routesTrace_length _ _ _ _ Htrace).
  split; [done|]. split; [done|].
  eapply Forall2_Forall_r; [exact (routesTrace_Forall2 _ _ _ _ Htrace)|].
  intros locs r _ (w0 & w1 & Hr). by eapply tracedRoute_draft.
Qed.

(** The worlds of the assembly of one route. *)
Lemma tracedRoute_world locs r w w' :
  tracedRoute locs r w w' →
  uuids w' = (uuids w + length locs + 4)%nat
  ∧ ((callAttempted (candidateOf locs w) ∧ fetches w' = S (fetches w))
     ∨ (¬ callAttempted (candidateOf locs w) ∧ fetches w' = fetches w
        ∧ r = routeWith locs w None (uuids w + length locs + 2))).
Proof.
  intros (g & w2 & Hg & -> & ->).
  destruct (optimizeRouteWithGoogle_world _ _ _ _ Hg) as [[Hatt ->]|(Hnot & -> & ->)];
    unfold worldAtCall; cbn [uuids fetches].
  - split; [lia|]. by left.
  - split; [lia|]. right. done.
Qed.

Lemma routesTrace_world groups routes w w' :
  routesTrace groups routes w w' →
  uuids w' = (uuids w + length (concat groups) + 4 * length routes)%nat
  ∧ (fetches w <= fetches w' <= fetches w + length routes)%nat
  ∧ (orElseS apiKey "" = "" → fetches w' = fetches w)
  ∧ ((∀ locs w0, locs ∈ groups → callAttempted (candidateOf locs w0)) →
       fetches w' = (fetches w + length routes)%nat).
Proof.
  revert routes w. induction groups as [|locs groups IH]; intros [|r routes] w H;
    simpl in H; try done.
  - subst w'. simpl. repeat split; lia.
  - destruct H as (w1 & Hr & H).
    destruct (IH _ _ H) as (Hu & Hf & Hkey & Hall).
    destruct (tracedRoute_world _ _ _ _ Hr) as [Hu1 Hf1].
    simpl. rewrite length_app. split; [lia|]. split; [|split].
    + destruct Hf1 as [[_ Hf1]|(_ & Hf1 & _)]; lia.
    + intros Hk. destruct Hf1 as [[(Hk' & _) _]|(_ & Hf1 & _)]; [done|].
      rewrite Hkey by done. done.
    + intros Hatt. rewrite Hall.
      * destruct Hf1 as [[_ Hf1]|(Hnot & _)]; [lia|].
        exfalso. apply Hnot, Hatt. by left.
      * intros locs' w0 Hin. apply Hatt. by right.
Qed.

(** What holds of every assembled route holds of each route of a
    trace. *)
Lemma routesTrace_eachRoute
    (P : list Location.t → option GoogleRoutesOptimizationResult → Route.t → Prop)
    groups routes w w' :
  (∀ locs w0 g u, P locs g (routeWith locs w0 g u)) →
  routesTrace groups routes w w' → eachRoute P groups routes w w'.
Proof.
  intros HP. revert routes w.
  induction groups as [|locs groups IH]; intros [|r routes] w H; simpl in H; try done.
  destruct H as (w1 & (g & w2 & Hg & -> & ->) & H).
  simpl. exists g, w2. split; [done|]. split; [apply HP|by apply IH].
Qed.

(** C1 (as amended). Generation returns, for groups of locations that
    hold every location of the day once.  The routes are assembled one
    for each group, in turn, and the optimizer is asked about each: the
    depot, the delivery stops of the group, the depot.  When it returns
    a result for a route, the distance and the time of the route are
    those of that result, and its delivery stops the ones the result
    carries.  When it returns none, the delivery stops are those of the
    group in its order, the distance is the one of the distance
    estimator on the final stop list, and the time is
    [round(distance / 40 * 60) + 5 * deliveries], the quotient and the
    product being doubles, when that distance is a number other than 0,
    and [15 * deliveries] when it is [null] ([deliveries] being the
    number of stops without the two depot stops). *)
Theorem estimatedTime_of_generated_routes dayLocations driverCount w :
  ∃ routes w' groups,
    generateRoutesForDay dayLocations driverCount w = (Ok routes, w')
    ∧ ((1 <= driverCount)%nat → concat groups ≡ₚ dayLocations)
    ∧ eachRoute (λ locs g r,
        match g with
        | Some result =>
            Route.totalDistance r = Some (totalDistanceKm result)
            ∧ Route.estimatedTime r = Some (estimatedTimeMinutes result)
            ∧ sliceInner (Route.stopsJson r)
              = renumber (sliceInner (optimizedStops result))
        | None =>
            Forall2 deliveryOf locs (sliceInner (Route.stopsJson r))
            ∧ Route.totalDistance r = calculateRouteDistance (Route.stopsJson r)
            ∧ (∀ d, Route.totalDistance r = Some d → ¬ d == 0 →
                 Route.estimatedTime r
                 = Some (Math_round (double (double (double d / 40) * 60))
                         + 5 * Z.of_nat (Route.stopCount r - 2))%Z)
            ∧ (Route.totalDistance r = None →
                 Route.estimatedTime r
                 = Some (15 * Z.of_nat (Route.stopCount r - 2))%Z)
        end) groups routes w w'.
Proof.
  destruct (generateRoutesForDay_trace dayLocations driverCount w)
    as (routes & w' & groups & Hrun & Htrace & _ & _ & _ & Hcover & _).
  exists routes, w', groups. split; [done|]. split; [done|].
  apply routesTrace_eachRoute; [|done].
  intros locs w0 [result|] u; unfold routeWith;
    cbn [Route.totalDistance Route.estimatedTime Route.stopsJson Route.stopCount].
  - split; [done|]. split; [done|]. unfold finalStops. apply sliceInner_bookends.
  - assert (length (builtFrom (indexed locs) (uuids w0)) = length locs) as Hlen
      by (by rewrite length_builtFrom, length_indexed).
    rewrite length_finalStops, Hlen.
    replace (length locs + 2 - 2)%nat with (length locs) by lia.
    split; [unfold finalStops; rewrite sliceInner_bookends; apply built_in_order|].
    split; [done|]. split.
    + intros d Hd Hnz. rewrite Hd. f_equal. by apply heuristicTime_known.
    + intros Hnone. rewrite Hnone. f_equal. apply heuristicTime_unknown.
Qed.

Lemma keepsCoords_stop id index loc :
  keepsCoords loc = true → stopHasCoords (deliveryStopOf id index loc) = true.
Proof.
  unfold keepsCoords, stopHasCoords, deliveryStopOf, truthyQ, orUndefinedQ.
  cbn [RouteStop.lat RouteStop.lng]. intros H. apply andb_true_iff in H.
  destruct H as [Hlat Hlng].
  destruct (Location.lat loc) as [lat|]; [|done].
  destruct (Location.lng loc) as [lng|]; [|done].
  destruct (Qeq_bool lat 0); [done|]. by destruct (Qeq_bool lng 0).
Qed.

Lemma stop_without_coords id index loc :
  keepsCoords loc = false → stopHasCoords (deliveryStopOf id index loc) = false.
Proof.
  unfold keepsCoords, stopHasCoords, deliveryStopOf, truthyQ, orUndefinedQ.
  cbn [RouteStop.lat RouteStop.lng]. intros H.
  destruct (Location.lat loc) as [lat|]; [|done].
  destruct (Qeq_bool lat 0); [done|].
  destruct (Location.lng loc) as [lng|]; [|done].
  by destruct (Qeq_bool lng 0).
Qed.

Lemma builtFrom_keepsCoords items u :
  Forall (λ item, keepsCoords item.2 = true) items →
  Forall (λ s, stopHasCoords s = true) (builtFrom items u).
Proof.
  intros Hall. revert u. induction Hall as [|item items Hi Hall IH]; intros u;
    [constructor|].
  simpl. constructor; [by apply keepsCoords_stop|apply IH].
Qed.

Lemma callAttempted_candidateOf locs w :
  orElseS apiKey "" ≠ "" → Forall (λ loc, keepsCoords loc = true) locs →
  callAttempted (candidateOf locs w).
Proof.
  intros Hkey Hall. split; [done|]. unfold candidateOf. split.
  - rewrite !length_app. simpl. lia.
  - apply Forall_app. split; [by repeat constructor|].
    apply Forall_app. split; [|by repeat constructor].
    apply builtFrom_keepsCoords. apply Forall_forall. intros [i loc] Hin.
    apply elem_of_indexed, list_elem_of_lookup_2 in Hin.
    by apply (proj1 (Forall_forall _ _) Hall).
Qed.

Lemma elem_of_concat {A} (x : A) (l : list A) (ls : list (list A)) :
  x ∈ l → l ∈ ls → x ∈ concat ls.
Proof.
  intros Hx Hl. induction ls as [|l' ls IH]; [by apply elem_of_nil in Hl|].
  simpl. apply elem_of_app. apply elem_of_cons in Hl.
  destruct Hl as [<-|Hl]; [by left|right; by apply IH].
Qed.

Lemma concat_elem_of {A} (x : A) (ls : list (list A)) :
  x ∈ concat ls → ∃ l, l ∈ ls ∧ x ∈ l.
Proof.
  induction ls as [|l' ls IH]; simpl; intros Hx; [by apply elem_of_nil in Hx|].
  apply elem_of_app in Hx. destruct Hx as [Hx|Hx].
  - exists l'. split; [by left|done].
  - destruct (IH Hx) as (l & Hl & Hxl). exists l. split; [by right|done].
Qed.

(** X6. The calls the generation makes: an identifier is drawn for each
    delivery stop and four for the depot stops of each route; the
    provider is called at most once for each route, never without an API
    key, and exactly once for each route when there is a key and every
    location has both coordinates, none of them 0. *)
Theorem generateRoutesForDay_calls (dayLocations : list Location.t)
    (driverCount : nat) (w : World) :
  (1 <= driverCount)%nat →
  ∃ routes w',
    generateRoutesForDay dayLocations driverCount w = (Ok routes, w')
    ∧ uuids w' = (uuids w + length dayLocations + 4 * length routes)%nat
    ∧ (fetches w <= fetches w' <= fetches w + length routes)%nat
    ∧ (orElseS apiKey "" = "" → fetches w' = fetches w)
    ∧ (orElseS apiKey "" ≠ "" →
       Forall (λ loc, keepsCoords loc = true) dayLocations →
       fetches w' = (fetches w + length routes)%nat).
Proof.
  intros Hk.
  destruct (generateRoutesForDay_trace dayLocations driverCount w)
    as (routes & w' & groups & Hrun & Htrace & _ & _ & _ & Hcover & _).
  specialize (Hcover Hk).
  destruct (routesTrace_world _ _ _ _ Htrace) as (Hu & Hf & Hkey & Hall).
  exists routes, w'. split; [done|]. rewrite Hcover in Hu.
  split; [done|]. split; [done|]. split; [done|].
  intros Hkey' Hkeeps. apply Hall. intros locs w0 Hin.
  apply callAttempted_candidateOf; [done|].
  apply Forall_forall. intros loc Hloc.
  apply (proj1 (Forall_forall _ _) Hkeeps).
  rewrite <- Hcover. by apply (elem_of_concat loc locs).
Qed.

Lemma Forall2_perm_l {A B} (P : A → B → Prop) (l : list A) (k k' : list B) :
  Forall2 P l k → k ≡ₚ k' → ∃ l', l' ≡ₚ l ∧ Forall2 P l' k'.
Proof.
  intros HF Hperm. revert l HF.
  induction Hperm as [|x k k' Hperm IH|x y k|k k' k'' H1 IH1 H2 IH2]; intros l HF.
  - apply Forall2_nil_inv_r in HF. subst l. by exists [].
  - apply Forall2_cons_inv_r in HF. destruct HF as (a & l0 & Ha & Hl0 & ->).
    destruct (IH l0 Hl0) as (l' & Hl' & HF'). exists (a :: l').
    split; [by rewrite Hl'|by constructor].
  - apply Forall2_cons_inv_r in HF. destruct HF as (a & l0 & Ha & Hl0 & ->).
    apply Forall2_cons_inv_r in Hl0. destruct Hl0 as (b & l1 & Hb & Hl1 & ->).
    exists (b :: a :: l1). split; [apply perm_swap|by repeat constructor].
  - destruct (IH1 l HF) as (l' & Hl' & HF').
    destruct (IH2 l' HF') as (l'' & Hl'' & HF'').
    exists l''. split; [by rewrite Hl''|done].
Qed.

Lemma Forall2_compose {A B C} (P : A → B → Prop) (Q' : B → C → Prop)
    (R : A → C → Prop) l k m :
  (∀ x y z, P x y → Q' y z → R x z) →
  Forall2 P l k → Forall2 Q' k m → Forall2 R l m.
Proof.
  intros HPQ HP. revert m. induction HP as [|x y l k Hxy HP IH]; intros m HQ.
  - apply Forall2_nil_inv_l in HQ. subst m. constructor.
  - apply Forall2_cons_inv_l in HQ. destruct HQ as (z & m0 & Hyz & HQ & ->).
    constructor; [by eapply HPQ|by apply IH].
Qed.

Lemma Forall2_imap_withSequence (stops : list RouteStop.t) (f : nat → nat) :
  Forall2 (λ s d, ∃ n, d = RouteStop.withSequence s n) stops
          (imap (λ i s, RouteStop.withSequence s (f i)) stops).
Proof.
  revert f. induction stops as [|s stops IH]; intros f; [constructor|].
  rewrite imap_cons. constructor; [by exists (f 0%nat)|].
  apply (IH (f ∘ S)).
Qed.

Lemma resequence_bookends origin destination inner :
  resequence ([Some origin] ++ (Some <$> inner) ++ [Some destination])
  = [RouteStop.withSequence origin 1]
      ++ imap (λ i s, RouteStop.withSequence s (S i + 1)) inner
      ++ [RouteStop.withSequence destination (S (length inner) + 1)].
Proof.
  unfold resequence. simpl. f_equal.
  rewrite imap_app, imap_fmap, length_fmap. simpl.
  f_equal. by rewrite Nat.add_0_r.
Qed.

(** The stops between the first and the last one of a result of the
    adapter, for a provider that answers with permutations: the
    intermediate stops of the input, rearranged and renumbered. *)
Lemma optimized_inner stops w g w' :
  indicesPermute →
  optimizeRouteWithGoogle stops w = (Ok (Some g), w') →
  ∃ inner', inner' ≡ₚ sliceInner stops
    ∧ Forall2 (λ s d, ∃ n, d = RouteStop.withSequence s n)
              inner' (sliceInner (optimizedStops g)).
Proof.
  intros Hprov Hrun.
  destruct (optimizeRouteWithGoogle_Some stops w g w' Hrun)
    as (origin & destination & route & rest & Hatt & Ho & Hd & Hanswer & -> & _).
  destruct Hatt as (_ & Hlen & _).
  destruct (reorderStops_bookends stops origin destination route Hlen Ho Hd)
    as (mid & Hl & Hperm).
  assert (mid ≡ₚ Some <$> sliceInner stops) as Hmid.
  { apply Hperm. intros indices Hidx.
    pose proof (Hprov _ _ _ _ _ _ Hanswer Hidx) as Hp.
    unfold requestBodyOf in Hp. cbn [intermediates] in Hp.
    destruct (0 <? length (sliceInner stops))%nat eqn:Hpos.
    + cbn [default from_option id] in Hp. by rewrite length_map in Hp.
    + apply Nat.ltb_ge in Hpos.
      replace (length (sliceInner stops)) with 0%nat by lia. done. }
  apply Permutation_map_inv in Hmid. destruct Hmid as (inner' & -> & Hinner).
  exists inner'. split; [by symmetry|].
  cbn [optimizedStops]. rewrite Hl.
  change (map Some inner') with (Some <$> inner').
  rewrite resequence_bookends, sliceInner_bookends.
  apply Forall2_imap_withSequence.
Qed.

Lemma tracedRoute_deliveries locs r w w' :
  indicesPermute → tracedRoute locs r w w' →
  ∃ locs', locs' ≡ₚ locs
    ∧ Forall2 deliveryOf locs' (sliceInner (Route.stopsJson r)).
Proof.
  intros Hprov (g & w2 & Hg & -> & _). unfold routeWith.
  destruct g as [result|]; cbn [Route.stopsJson]; unfold finalStops;
    rewrite sliceInner_bookends.
  - destruct (optimized_inner _ _ _ _ Hprov Hg) as (inner' & Hperm & Hall).
    rewrite sliceInner_candidateOf in Hperm.
    destruct (Forall2_perm_l deliveryOf locs _ inner'
                (built_in_order locs (uuids w))) as (locs' & Hlocs & HF);
      [by symmetry|].
    exists locs'. split; [done|].
    eapply (Forall2_compose deliveryOf (λ s d, ∃ n, d = RouteStop.withSequence s n));
      [| |apply (Forall2_imap_withSequence _ (λ idx, idx + 2)%nat)].
    { intros loc s d Hs [n ->]. by apply deliveryOf_withSequence. }
    eapply (Forall2_compose deliveryOf (λ s d, ∃ n, d = RouteStop.withSequence s n));
      [|exact HF|exact Hall].
    intros loc s d Hs [n ->]. by apply deliveryOf_withSequence.
  - exists locs. split; [done|]. apply built_in_order.
Qed.

Lemma Forall2_choose {A B} (P : list A → B → Prop) (groups : list (list A)) routes :
  Forall2 (λ locs r, ∃ locs', locs' ≡ₚ locs ∧ P locs' r) groups routes →
  ∃ groups', Forall2 (λ a b, b ≡ₚ a) groups groups' ∧ Forall2 P groups' routes.
Proof.
  induction 1 as [|locs r groups routes (locs' & Hperm & HP) _ (groups' & Hg & HF)].
  - exists []. split; constructor.
  - exists (locs' :: groups'). split; by constructor.
Qed.

(** X7. With one driver or more and a provider that answers with
    permutations of the indices it is given, the delivery stops of the
    routes are the delivery stops of the locations of the day: every
    location has one delivery stop in one route, and no route has
    another stop between its depot stops. *)
Theorem generateRoutesForDay_covers (dayLocations : list Location.t)
    (driverCount : nat) (w : World) :
  (1 <= driverCount)%nat → indicesPermute →
  ∃ routes w' groups,
    generateRoutesForDay dayLocations driverCount w = (Ok routes, w')
    ∧ concat groups ≡ₚ dayLocations
    ∧ Forall2 (λ locs r, Forall2 deliveryOf locs (sliceInner (Route.stopsJson r)))
              groups routes.
Proof.
  intros Hk Hprov.
  destruct (generateRoutesForDay_trace dayLocations driverCount w)
    as (routes & w' & groups & Hrun & Htrace & _ & _ & _ & Hcover & _).
  specialize (Hcover Hk).
  destruct (Forall2_choose
              (λ locs r, Forall2 deliveryOf locs (sliceInner (Route.stopsJson r)))
              groups routes) as (groups' & Hperm & HF).
  { eapply Forall2_impl; [exact (routesTrace_Forall2 _ _ _ _ Htrace)|].
    intros locs r (w0 & w1 & Hr). by eapply tracedRoute_deliveries. }
  exists routes, w', groups'. split; [done|]. split; [|done].
  by rewrite (concat_Forall2_perm _ _ Hperm).
Qed.

Lemma tracedRoute_lacking locs r w w' loc :
  tracedRoute locs r w w' → loc ∈ locs → keepsCoords loc = false →
  Route.totalDistance r = None
  ∧ Route.estimatedTime r = Some (15 * Z.of_nat (length locs))%Z
  ∧ Forall2 deliveryOf locs (sliceInner (Route.stopsJson r))
  ∧ fetches w' = fetches w.
Proof.
  intros Hr Hloc Hkeeps.
  assert (¬ Forall (λ s, stopHasCoords s = true) (builtFrom (indexed locs) (uuids w)))
    as Hlack.
  { intros Hall. apply list_elem_of_lookup_1 in Hloc. destruct Hloc as [i Hi].
    destruct (Forall2_lookup_l _ _ _ _ _ (built_in_order locs (uuids w)) Hi)
      as (s & Hs & [id Hid]).
    pose proof (proj1 (Forall_lookup _ _) Hall i s Hs) as Hcoords.
    rewrite Hid in Hcoords.
    change (stopHasCoords (deliveryStopOf id 0 loc) = true) in Hcoords.
    by rewrite (stop_without_coords id 0 loc Hkeeps) in Hcoords. }
  destruct (tracedRoute_world _ _ _ _ Hr) as [_ [[(_ & _ & Hall) _]|(_ & Hf & ->)]].
  - exfalso. apply Hlack. unfold candidateOf in Hall.
    apply Forall_app in Hall. destruct Hall as [_ Hall].
    apply Forall_app in Hall. by destruct Hall.
  - unfold routeWith. cbn [Route.totalDistance Route.estimatedTime Route.stopsJson].
    rewrite finalStops_lacking by done.
    split; [done|]. split; [by rewrite heuristicTime_unknown|]. split; [|done].
    unfold finalStops. rewrite sliceInner_bookends. apply built_in_order.
Qed.

(** X8. A location that lacks a coordinate, or has the coordinate 0,
    ends up in a route without a distance, with the flat time of 15
    minutes for each delivery stop, whose stops are in the order of the
    group of locations it was assembled for: the delivery stop built
    from the location has no coordinate ([loc.lat || undefined]). *)
Theorem unusable_coordinate_flat_route (dayLocations : list Location.t)
    (driverCount : nat) (w : World) (loc : Location.t) :
  (1 <= driverCount)%nat → loc ∈ dayLocations → keepsCoords loc = false →
  ∃ routes w',
    generateRoutesForDay dayLocations driverCount w = (Ok routes, w')
    ∧ ∃ r locs,
        r ∈ routes ∧ loc ∈ locs
        ∧ Forall2 deliveryOf locs (sliceInner (Route.stopsJson r))
        ∧ Route.totalDistance r = None
        ∧ Route.estimatedTime r = Some (15 * Z.of_nat (length locs))%Z.
Proof.
  intros Hk Hloc Hkeeps.
  destruct (generateRoutesForDay_trace dayLocations driverCount w)
    as (routes & w' & groups & Hrun & Htrace & _ & _ & _ & Hcover & _).
  specialize (Hcover Hk). exists routes, w'. split; [done|].
  rewrite <- Hcover in Hloc. apply concat_elem_of in Hloc.
  destruct Hloc as (locs & Hlocs & Hin).
  apply list_elem_of_lookup_1 in Hlocs. destruct Hlocs as [i Hi].
  destruct (Forall2_lookup_l _ _ _ _ _ (routesTrace_Forall2 _ _ _ _ Htrace) Hi)
    as (r & Hr & w0 & w1 & Htr).
  destruct (tracedRoute_lacking _ _ _ _ _ Htr Hin Hkeeps) as (Hd & Ht & HF & _).
  exists r, locs. split; [by eapply list_elem_of_lookup_2|]. done.
Qed.

(** ** Further properties of the map link *)

Lemma hexValue_hexDigit k : (k < 16)%nat → hexValue (hexDigit k) = Some k.
Proof. intros Hk. do 16 (destruct k as [|k]; [done|]). lia. Qed.

Lemma isUnreserved_hexDigit k : (k < 16)%nat → isUnreserved (hexDigit k) = true.
Proof. intros Hk. do 16 (destruct k as [|k]; [done|]). lia. Qed.

Lemma percentDecode_plain c rest :
  c ≠ "%"%char → percentDecode (String c rest) = String c <$> percentDecode rest.
Proof.
  intros Hc. destruct c as [[] [] [] [] [] [] [] []]; try reflexivity.
  by destruct Hc.
Qed.

Lemma nat_of_ascii_lt c : (nat_of_ascii c < 256)%nat.
Proof. unfold nat_of_ascii. pose proof (N_ascii_bounded c). lia. Qed.

Lemma percentDecode_encodeURIComponent s :
  percentDecode (encodeURIComponent s) = Some s.
Proof.
  induction s as [|c s IH]; [done|]. cbn [encodeURIComponent].
  destruct (isUnreserved c) eqn:Hc.
  - rewrite percentDecode_plain, IH; [done|]. intros ->. done.
  - cbn [percentDecode].
    pose proof (nat_of_ascii_lt c) as Hlt.
    rewrite (hexValue_hexDigit (nat_of_ascii c / 16))
      by (apply Nat.Div0.div_lt_upper_bound; lia).
    rewrite (hexValue_hexDigit (nat_of_ascii c mod 16))
      by (apply Nat.mod_upper_bound; lia).
    rewrite IH. cbn [mbind option_bind fmap option_fmap option_map].
    rewrite <- Nat.div_mod_eq, ascii_nat_embedding. done.
Qed.

Lemma chars_encodeURIComponent s :
  Forall (λ c, isUnreserved c = true ∨ c = "%"%char) (chars (encodeURIComponent s)).
Proof.
  unfold chars. induction s as [|c s IH]; [constructor|]. cbn [encodeURIComponent].
  pose proof (nat_of_ascii_lt c) as Hlt.
  destruct (isUnreserved c) eqn:Hc; cbn [list_ascii_of_string].
  - constructor; [by left|done].
  - constructor; [by right|].
    constructor; [left; apply isUnreserved_hexDigit, Nat.Div0.div_lt_upper_bound; lia|].
    constructor; [left; apply isUnreserved_hexDigit, Nat.mod_upper_bound; lia|done].
Qed.

Lemma splitOn_plain sep s : sep ∉ chars s → splitOn sep s = [s].
Proof.
  unfold chars. induction s as [|c s IH]; [done|].
  cbn [list_ascii_of_string splitOn]. intros Hnin.
  apply not_elem_of_cons in Hnin. destruct Hnin as [Hne Hnin].
  rewrite (proj2 (Ascii.eqb_neq c sep)) by congruence.
  by rewrite IH.
Qed.

Lemma splitOn_app sep part rest :
  sep ∉ chars part →
  splitOn sep (part +:+ String sep rest) = part :: splitOn sep rest.
Proof.
  unfold chars. induction part as [|c part IH].
  - intros _. change ("" +:+ String sep rest) with (String sep rest).
    cbn [splitOn]. by rewrite Ascii.eqb_refl.
  - cbn [list_ascii_of_string]. intros Hnin.
    apply not_elem_of_cons in Hnin. destruct Hnin as [Hne Hnin].
    change (String c part +:+ String sep rest)
      with (String c (part +:+ String sep rest)).
    cbn [splitOn]. rewrite (proj2 (Ascii.eqb_neq c sep)) by congruence.
    by rewrite IH.
Qed.

Lemma splitOn_join sep parts :
  parts ≠ [] → Forall (λ part, sep ∉ chars part) parts →
  splitOn sep (join (String sep EmptyString) parts) = parts.
Proof.
  intros Hne Hall. unfold join.
  induction Hall as [|part parts Hpart Hall IH]; [done|].
  destruct parts as [|part' parts].
  - by apply splitOn_plain.
  - change (String.concat (String sep "") (part :: part' :: parts))
      with (part +:+ String sep (String.concat (String sep "") (part' :: parts))).
    rewrite splitOn_app by done. f_equal. by apply IH.
Qed.

(** X9. The link of a route can be read back: its path after
    [/maps/dir/] has one segment for each stop, in the order of the
    stops, and the segments decode to the addresses of the stops. *)
Theorem generateGoogleMapsUrl_round_trip (stops : list RouteStop.t)
    (addresses : list string) :
  stops ≠ [] →
  RouteStop.address <$> stops = Some <$> addresses →
  addressesOfLink (generateGoogleMapsUrl stops) = Some addresses.
Proof.
  intros Hne Haddr. unfold generateGoogleMapsUrl.
  destruct stops as [|s stops]; [done|]. cbn [length Nat.eqb]. cbv zeta.
  change (map (λ stop, encodeURIComponent (toStringU (RouteStop.address stop)))
              (s :: stops))
    with ((λ o, encodeURIComponent (toStringU o)) ∘ RouteStop.address
            <$> (s :: stops)).
  rewrite list_fmap_compose, Haddr, <- list_fmap_compose.
  unfold addressesOfLink.
  change (stripPrefix "https://www.google.com/maps/dir/"
            ("https://www.google.com/maps/dir/" +:+ ?x)) with (Some x).
  cbn [mbind option_bind].
  assert (addresses ≠ []) as Hane by (destruct addresses; done).
  rewrite splitOn_join.
  - clear. induction addresses as [|a addresses IH]; [done|].
    rewrite fmap_cons. cbn [mapM]. cbn [compose toStringU default from_option id].
    rewrite percentDecode_encodeURIComponent. cbn [mbind option_bind].
    rewrite IH. done.
  - by destruct addresses.
  - apply Forall_fmap, Forall_forall. intros a _. cbn [compose toStringU default].
    intros Hin.
    pose proof (proj1 (Forall_forall _ _) (chars_encodeURIComponent a) _ Hin) as Hok.
    by destruct Hok.
Qed.

(** ** Further properties of the distance estimator *)

Lemma round1_mono x y : x <= y → round1 x <= round1 y.
Proof.
  intros Hxy. unfold round1, Math_round.
  assert (Qfloor (x * 10 + (1 # 2)) <= Qfloor (y * 10 + (1 # 2)))%Z as Hz
    by (apply Qfloor_resp_le; lra).
  apply Qmult_le_compat_r; [by rewrite <- Zle_Qle|done].
Qed.

Lemma pairLacksCoords_app stops more :
  pairLacksCoords stops → pairLacksCoords (stops ++ more).
Proof.
  intros (i & s & t & Hs & Ht & Hlack). exists i, s, t.
  split; [by apply lookup_app_l_Some|]. split; [by apply lookup_app_l_Some|done].
Qed.

Section EstimatorGrowth.

Hypothesis Math_sqrt_nonneg : ∀ x, 0 <= Math_sqrt x.
Hypothesis Math_atan2_nonneg : ∀ y x, 0 <= y → 0 <= x → 0 <= Math_atan2 y x.

Lemma legs_app_le stops more :
  sumQ (legs stops) <= sumQ (legs (stops ++ more)).
Proof.
  induction stops as [|a [|b rest] IH].
  - apply (legs_nonneg Math_sqrt_nonneg Math_atan2_nonneg).
  - apply (legs_nonneg Math_sqrt_nonneg Math_atan2_nonneg).
  - change (sumQ (legs (a :: b :: rest)))
      with (calculateHaversineDistance
              (num (RouteStop.lat a)) (num (RouteStop.lng a))
              (num (RouteStop.lat b)) (num (RouteStop.lng b))
            + sumQ (legs (b :: rest))).
    change (sumQ (legs ((a :: b :: rest) ++ more)))
      with (calculateHaversineDistance
              (num (RouteStop.lat a)) (num (RouteStop.lng a))
              (num (RouteStop.lat b)) (num (RouteStop.lng b))
            + sumQ (legs ((b :: rest) ++ more))).
    lra.
Qed.

(** X10. The estimate grows with the stop list: when the distance of a
    stop list is known, so is the distance of every initial part of it,
    and it is no larger. *)
Theorem calculateRouteDistance_prefix (stops more : list RouteStop.t) (d' : Q) :
  calculateRouteDistance (stops ++ more) = Some d' →
  ∃ d, calculateRouteDistance stops = Some d ∧ d <= d'.
Proof.
  intros Hrun.
  destruct (calculateRouteDistance_cases Math_sqrt_nonneg Math_atan2_nonneg stops)
    as (Hshort & _ & Hsum & _).
  destruct (calculateRouteDistance_cases Math_sqrt_nonneg Math_atan2_nonneg
              (stops ++ more)) as (_ & Hnull' & Hsum' & Hpos').
  destruct (decide (length stops < 2)%nat) as [Hlt|Hge].
  - exists 0. split; [by apply Hshort|by apply Hpos'].
  - assert (2 <= length (stops ++ more))%nat as Hlen'
      by (rewrite length_app; lia).
    assert (¬ pairLacksCoords (stops ++ more)) as Hall'.
    { intros Hlack. rewrite (Hnull' Hlen' Hlack) in Hrun. done. }
    assert (¬ pairLacksCoords stops) as Hall
      by (intros Hlack; by apply Hall', pairLacksCoords_app).
    rewrite (Hsum' Hlen' Hall') in Hrun. injection Hrun as <-.
    eexists. split; [apply Hsum; [lia|done]|].
    apply round1_mono. apply Qmult_le_compat_r; [apply legs_app_le|done].
Qed.

End EstimatorGrowth.

(** ** Moving a stop *)

Lemma find_map_invariant {A} (p : A → bool) (g : A → A) (l : list A) :
  (∀ x, p (g x) = p x) → find p (map g l) = g <$> find p l.
Proof.
  intros Hp. induction l as [|x l IH]; [done|]. simpl. rewrite Hp.
  by destruct (p x).
Qed.

Lemma find_Some_true {A} (p : A → bool) (l : list A) x :
  find p l = Some x → p x = true.
Proof. intros H. apply find_some in H. by destruct H. Qed.

(** Reading a row after an update that keeps the identifiers. *)
Lemma getRoute_updateRoute id id' set table :
  (∀ r, Row.id (set r) = Row.id r) →
  getRoute id (updateRoute id' set table)
  = (if String.eqb id id' then set else (λ r, r)) <$> getRoute id table.
Proof.
  intros Hset. unfold getRoute, updateRoute.
  rewrite find_map_invariant.
  - destruct (find _ table) as [r|] eqn:Hfind; [|done]. simpl.
    apply find_Some_true in Hfind. apply String.eqb_eq in Hfind. subst id.
    rewrite (String.eqb_sym (Row.id r) id'). by destruct (String.eqb id' (Row.id r)).
  - intros r. destruct (String.eqb (Row.id r) id'); [by rewrite Hset|done].
Qed.

Lemma sequence_renumberAll stops :
  RouteStop.sequence <$> renumberAll stops = seq 1 (length stops).
Proof.
  unfold renumberAll. apply list_eq. intros i.
  rewrite list_lookup_fmap, list_lookup_imap.
  destruct (stops !! i) as [s|] eqn:Hs; simpl.
  - rewrite lookup_seq_lt by (by eapply lookup_lt_Some). f_equal. lia.
  - rewrite lookup_seq_ge; [done|]. by apply lookup_ge_None.
Qed.

Lemma unsequenced_renumberAll stops :
  unsequenced <$> renumberAll stops = unsequenced <$> stops.
Proof.
  unfold renumberAll. apply list_eq. intros i.
  rewrite !list_lookup_fmap, list_lookup_imap. by destruct (stops !! i).
Qed.

Lemma length_renumberAll stops : length (renumberAll stops) = length stops.
Proof. apply length_imap. Qed.

Lemma insertAt_Permutation {A} index (x : A) l : insertAt index x l ≡ₚ x :: l.
Proof.
  unfold insertAt. change ([x] ++ drop index l) with (x :: drop index l).
  by rewrite <- Permutation_middle, take_drop.
Qed.

Lemma length_insertAt {A} index (x : A) l : length (insertAt index x l) = S (length l).
Proof. by rewrite insertAt_Permutation. Qed.

(** What a successful move computes. *)
Lemma moveStop_run body table fromRoute toRoute stopIndex movedStop :
  moveStopSchema body = true →
  getRoute (fromRouteId body) table = Some fromRoute →
  getRoute (toRouteId body) table = Some toRoute →
  list_find (λ s, RouteStop.id s = Some (stopId body))
            (default [] (Row.stopsJson fromRoute)) = Some (stopIndex, movedStop) →
  let fromStops :=
    renumberAll (delete stopIndex (default [] (Row.stopsJson fromRoute))) in
  let toStops :=
    renumberAll
      (insertAt (Nat.min (newSequence body - 1)
                         (length (default [] (Row.stopsJson toRoute))))
                (RouteStop.withSequence movedStop (newSequence body))
                (default [] (Row.stopsJson toRoute))) in
  let table' :=
    updateRoute (toRouteId body) (λ r, Row.withStops r toStops)
      (updateRoute (fromRouteId body) (λ r, Row.withStops r fromStops) table) in
  moveStop body table
  = (Moved (Some (Row.withStops fromRoute fromStops))
           (getRoute (toRouteId body) table'), table')
  ∧ ∀ id, getRoute id table'
          = (if String.eqb id (toRouteId body)
             then (λ r, Row.withStops r toStops) else (λ r, r))
            <$> ((if String.eqb id (fromRouteId body)
                  then (λ r, Row.withStops r fromStops) else (λ r, r))
                 <$> getRoute id table).
Proof.
  intros Hvalid Hfrom Hto Hfind. cbv zeta. split.
  - unfold moveStop. rewrite Hvalid, Hfrom, Hto. cbn [negb]. rewrite Hfind.
    rewrite (getRoute_updateRoute (fromRouteId body) (fromRouteId body)) by done.
    by rewrite String.eqb_refl, Hfrom.
  - intros id. by rewrite !getRoute_updateRoute by done.
Qed.

Lemma lookup_insertAt {A} index (x : A) l :
  (index <= length l)%nat → insertAt index x l !! index = Some x.
Proof.
  intros Hle. unfold insertAt.
  rewrite lookup_app_r by (rewrite length_take; lia).
  rewrite length_take. by replace (index - Nat.min index (length l))%nat with 0%nat by lia.
Qed.

(** X11. Moving a stop between two different routes: the stop leaves the
    source route and enters the target route at the position asked for,
    or at its end; nothing else is lost or added, the other routes are
    left alone, and the stops of both routes are numbered 1, 2, ... in
    their order. *)
Theorem moveStop_between_routes (body : MoveStop) (table : list Row.t)
    (fromRoute toRoute : Row.t) (stopIndex : nat) (movedStop : RouteStop.t) :
  moveStopSchema body = true →
  fromRouteId body ≠ toRouteId body →
  getRoute (fromRouteId body) table = Some fromRoute →
  getRoute (toRouteId body) table = Some toRoute →
  list_find (λ s, RouteStop.id s = Some (stopId body))
            (default [] (Row.stopsJson fromRoute)) = Some (stopIndex, movedStop) →
  ∃ fromStops toStops table',
    moveStop body table
    = (Moved (Some (Row.withStops fromRoute fromStops))
             (Some (Row.withStops toRoute toStops)), table')
    ∧ getRoute (fromRouteId body) table' = Some (Row.withStops fromRoute fromStops)
    ∧ getRoute (toRouteId body) table' = Some (Row.withStops toRoute toStops)
    ∧ (∀ id, id ≠ fromRouteId body → id ≠ toRouteId body →
         getRoute id table' = getRoute id table)
    ∧ RouteStop.sequence <$> fromStops = seq 1 (length fromStops)
    ∧ RouteStop.sequence <$> toStops = seq 1 (length toStops)
    ∧ unsequenced <$> fromStops
      = unsequenced <$> delete stopIndex (default [] (Row.stopsJson fromRoute))
    ∧ unsequenced
        <$> toStops !! Nat.min (newSequence body - 1)
                               (length (default [] (Row.stopsJson toRoute)))
      = Some (unsequenced movedStop)
    ∧ unsequenced <$> (fromStops ++ toStops)
      ≡ₚ unsequenced <$> (default [] (Row.stopsJson fromRoute)
                            ++ default [] (Row.stopsJson toRoute)).
Proof.
  intros Hvalid Hne Hfrom Hto Hfind.
  destruct (moveStop_run body table fromRoute toRoute stopIndex movedStop
              Hvalid Hfrom Hto Hfind) as [Hrun Hget].
  set (F := default [] (Row.stopsJson fromRoute)) in *.
  set (T := default [] (Row.stopsJson toRoute)) in *.
  set (k := Nat.min (newSequence body - 1) (length T)) in *.
  set (fromStops := renumberAll (delete stopIndex F)) in *.
  set (toStops := renumberAll
                    (insertAt k (RouteStop.withSequence movedStop (newSequence body)) T))
    in *.
  assert (String.eqb (toRouteId body) (fromRouteId body) = false) as Hneq
    by (apply String.eqb_neq; congruence).
  assert (String.eqb (fromRouteId body) (toRouteId body) = false) as Hneq'
    by (by apply String.eqb_neq).
  eexists fromStops, toStops, _. split.
  { rewrite Hrun. rewrite (Hget (toRouteId body)), Hto, String.eqb_refl, Hneq. done. }
  split; [by rewrite Hget, Hfrom, String.eqb_refl, Hneq'|].
  split; [by rewrite Hget, Hto, String.eqb_refl, Hneq|].
  split.
  { intros id Hf Ht. rewrite Hget.
    rewrite (proj2 (String.eqb_neq id (toRouteId body)) Ht).
    rewrite (proj2 (String.eqb_neq id (fromRouteId body)) Hf).
    by destruct (getRoute id table). }
  split; [unfold fromStops; by rewrite sequence_renumberAll, length_renumberAll|].
  split; [unfold toStops; by rewrite sequence_renumberAll, length_renumberAll|].
  split; [apply unsequenced_renumberAll|].
  apply list_find_Some in Hfind. destruct Hfind as (Hlook & _ & _).
  split.
  { unfold toStops, renumberAll. rewrite list_lookup_imap.
    rewrite lookup_insertAt by (unfold k; lia). done. }
  unfold fromStops, toStops.
  rewrite !fmap_app, !unsequenced_renumberAll.
  rewrite insertAt_Permutation, fmap_cons.
  change (unsequenced (RouteStop.withSequence movedStop (newSequence body)))
    with (unsequenced movedStop).
  rewrite (delete_Permutation F stopIndex movedStop Hlook) at 2.
  rewrite fmap_cons. by rewrite <- Permutation_middle.
Qed.

(** X12. Moving a stop inside one route does not move it: the first
    write (the route without the stop) is overwritten by the second one,
    which was computed from the route as it was read; the route ends
    with the stop twice and one stop more. *)
Theorem moveStop_within_route (body : MoveStop) (table : list Row.t)
    (route : Row.t) (stopIndex : nat) (movedStop : RouteStop.t) :
  moveStopSchema body = true →
  fromRouteId body = toRouteId body →
  getRoute (fromRouteId body) table = Some route →
  list_find (λ s, RouteStop.id s = Some (stopId body))
            (default [] (Row.stopsJson route)) = Some (stopIndex, movedStop) →
  ∃ fromRow stops table',
    moveStop body table = (Moved fromRow (Some (Row.withStops route stops)), table')
    ∧ getRoute (fromRouteId body) table' = Some (Row.withStops route stops)
    ∧ length stops = S (length (default [] (Row.stopsJson route)))
    ∧ RouteStop.sequence <$> stops = seq 1 (length stops)
    ∧ unsequenced <$> stops
      ≡ₚ unsequenced movedStop :: (unsequenced <$> default [] (Row.stopsJson route))
    ∧ unsequenced movedStop ∈ unsequenced <$> default [] (Row.stopsJson route).
Proof.
  intros Hvalid Heq Hfrom Hfind.
  assert (getRoute (toRouteId body) table = Some route) as Hto by (by rewrite <- Heq).
  destruct (moveStop_run body table route route stopIndex movedStop
              Hvalid Hfrom Hto Hfind) as [Hrun Hget].
  set (F := default [] (Row.stopsJson route)) in *.
  set (k := Nat.min (newSequence body - 1) (length F)) in *.
  set (stops := renumberAll
                  (insertAt k (RouteStop.withSequence movedStop (newSequence body)) F))
    in *.
  assert (getRoute (fromRouteId body)
            (updateRoute (toRouteId body) (λ r, Row.withStops r stops)
               (updateRoute (fromRouteId body)
                  (λ r, Row.withStops r (renumberAll (delete stopIndex F))) table))
          = Some (Row.withStops route stops)) as Hrow.
  { rewrite Hget, Hfrom, <- Heq, String.eqb_refl. done. }
  eexists _, stops, _. split.
  { rewrite Hrun. rewrite <- Heq at 1. rewrite Hrow. done. }
  split; [done|].
  split; [unfold stops; by rewrite length_renumberAll, length_insertAt|].
  split; [unfold stops; by rewrite sequence_renumberAll, length_renumberAll|].
  split.
  { unfold stops. rewrite unsequenced_renumberAll, insertAt_Permutation. done. }
  apply list_find_Some in Hfind. destruct Hfind as (Hlook & _ & _).
  apply list_elem_of_fmap. exists movedStop. split; [done|].
  by eapply list_elem_of_lookup_2.
Qed.

(** ** Routes drawn by hand *)

Lemma length_renumber deliveryStops : length (renumber deliveryStops) = length deliveryStops.
Proof. apply length_imap. Qed.

Lemma unsequenced_renumber deliveryStops :
  unsequenced <$> renumber deliveryStops = unsequenced <$> deliveryStops.
Proof.
  unfold renumber. apply list_eq. intros i.
  rewrite !list_lookup_fmap, list_lookup_imap. by destruct (deliveryStops !! i).
Qed.

Lemma manualRoute_run routeInfo w :
  ∃ r, manualRoute routeInfo w = (Ok r, mkWorld (uuids w + 2) (fetches w))
    ∧ drawnFrom routeInfo r.
Proof.
  destruct w as [u f]. unfold manualRoute, createManualWarehouseStop.
  unfold mbind, M_bind, mret, M_ret, randomUUID. cbn [uuids fetches].
  rewrite length_renumber.
  eexists. split; [by replace (u + 2)%nat with (S (S u)) by lia|].
  exists u. cbn [Route.stopsJson Route.date Route.dayOfWeek Route.status
    Route.driverId Route.driverName Route.stopCount Route.routeLink
    Route.totalDistance Route.estimatedTime].
  fold (manualStops routeInfo u).
  repeat (split; [done|]).
  unfold localMetrics. cbn [Route.stopsJson Route.totalDistance Route.estimatedTime].
  destruct (forallb _ (manualStops routeInfo u)); [done|].
  split; [done|]. f_equal. lia.
Qed.

Lemma mapM_manualRoute_run routeData w :
  ∃ createdRoutes,
    mapM manualRoute routeData w
    = (Ok createdRoutes, mkWorld (uuids w + 2 * length routeData) (fetches w))
    ∧ Forall2 drawnFrom routeData createdRoutes.
Proof.
  revert w. induction routeData as [|routeInfo rest IH]; intros w.
  - exists []. split; [|constructor]. destruct w as [u f].
    unfold mapM, mret, M_ret. cbn [uuids fetches length]. by rewrite Nat.add_0_r.
  - destruct (manualRoute_run routeInfo w) as (r & Hr & Hdrawn).
    destruct (IH (mkWorld (uuids w + 2) (fetches w))) as (routes & Hrest & Hall).
    exists (r :: routes). split; [|by constructor].
    cbn [mapM]. rewrite (bind_Ok _ _ _ _ _ Hr), (bind_Ok _ _ _ _ _ Hrest).
    unfold mret, M_ret. cbn [uuids fetches length]. do 2 f_equal. lia.
Qed.

Lemma sequence_manualStops routeInfo u :
  RouteStop.sequence <$> manualStops routeInfo u
  = seq 1 (length (ManualRoute.stops routeInfo) + 2).
Proof.
  unfold manualStops. rewrite !fmap_app, sequence_renumber.
  cbn [fmap list_fmap RouteStop.sequence manualWarehouseStop].
  replace (length (ManualRoute.stops routeInfo) + 2)%nat
    with (1 + (length (ManualRoute.stops routeInfo) + 1))%nat at 2 by lia.
  rewrite seq_app, seq_app. simpl. do 3 f_equal. lia.
Qed.

(** X13. A valid request for routes drawn by hand, the addresses of its
    stops being well-formed text, is answered with one route for each
    route asked for, in their order, and draws two identifiers for each;
    each route is a draft without a driver, of the day and the date
    asked for; its stops are the depot, the stops given in the order
    given, the depot, numbered 1, 2, ...; the stops given keep
    everything but their sequence number.  (An address with a lone
    surrogate, which is not the text of any string here, makes
    [encodeURIComponent] throw, and the handler answer 500.) *)
Theorem createManualRoutes_created (routeData : list ManualRoute.t) (w : World) :
  createManualRoutesSchema routeData = true →
  Forall (λ routeInfo,
      Forall (λ stop, wellFormedText (toStringU (RouteStop.address stop)) = true)
             (ManualRoute.stops routeInfo)) routeData →
  ∃ createdRoutes,
    createManualRoutes routeData w
    = (Ok (ManualCreated createdRoutes),
       mkWorld (uuids w + 2 * length routeData) (fetches w))
    ∧ Forall2 (λ routeInfo r,
         Route.date r = ManualRoute.scheduledDate routeInfo
         ∧ Route.dayOfWeek r = ManualRoute.dayOfWeek routeInfo
         ∧ Route.status r = "draft" ∧ Route.driverId r = None
         ∧ Route.stopCount r = (length (ManualRoute.stops routeInfo) + 2)%nat
         ∧ RouteStop.sequence <$> Route.stopsJson r = seq 1 (Route.stopCount r)
         ∧ unsequenced <$> sliceInner (Route.stopsJson r)
           = unsequenced <$> ManualRoute.stops routeInfo
         ∧ ∃ startId endId,
             Route.stopsJson r !! 0%nat = Some (manualWarehouseStop startId 1 true)
             ∧ Route.stopsJson r !! (Route.stopCount r - 1)%nat
               = Some (manualWarehouseStop endId (Route.stopCount r) false))
        routeData createdRoutes.
Proof.
  intros Hvalid _. unfold createManualRoutes. rewrite Hvalid. cbn [negb].
  destruct (mapM_manualRoute_run routeData w) as (routes & Hrun & Hall).
  exists routes. rewrite (bind_Ok _ _ _ _ _ Hrun).
  assert (length routes = length routeData) as Hlen
    by (symmetry; by eapply Forall2_length).
  unfold createManualRoutesSchema in Hvalid. apply andb_true_iff in Hvalid.
  destruct Hvalid as [Hpos _]. apply Nat.leb_le in Hpos.
  replace (length routes =? 0)%nat with false by (symmetry; apply Nat.eqb_neq; lia).
  split; [done|].
  eapply Forall2_impl; [exact Hall|].
  intros routeInfo r (u & Hstops & Hdate & Hday & Hstatus & Hdriver & _ & Hcount & _).
  assert (length (manualStops routeInfo u)
          = (length (ManualRoute.stops routeInfo) + 2)%nat) as Hl.
  { unfold manualStops. rewrite !length_app, length_renumber. simpl. lia. }
  rewrite Hcount, Hstops, Hl.
  repeat (split; [done|]).
  split; [apply sequence_manualStops|]. split.
  { unfold manualStops. by rewrite sliceInner_bookends, unsequenced_renumber. }
  exists (uuidOf u), (uuidOf (S u)). split; [done|].
  unfold manualStops.
  change ([manualWarehouseStop (uuidOf u) 1 true]
            ++ renumber (ManualRoute.stops routeInfo)
            ++ [manualWarehouseStop (uuidOf (S u))
                  (length (ManualRoute.stops routeInfo) + 2) false])
    with ((manualWarehouseStop (uuidOf u) 1 true
             :: renumber (ManualRoute.stops routeInfo))
            ++ [manualWarehouseStop (uuidOf (S u))
                  (length (ManualRoute.stops routeInfo) + 2) false]).
  rewrite lookup_app_r by (simpl; rewrite length_renumber; lia).
  simpl. rewrite length_renumber.
  by replace (length (ManualRoute.stops routeInfo) + 2 - 1
              - S (length (ManualRoute.stops routeInfo)))%nat with 0%nat by lia.
Qed.



Lemma forallb_stopHasCoords stops :
  forallb (λ s, hasCoords (RouteStop.lat s) (RouteStop.lng s)) stops = true
  ↔ Forall (λ s, stopHasCoords s = true) stops.
Proof. rewrite forallb_forall, Forall_forall. by setoid_rewrite list_elem_of_In. Qed.


(** ** Refreshing the coordinates of the stops *)

Lemma sameCoord_refl c : sameCoord c c.
Proof. destruct c; simpl; [apply Qeq_refl|done]. Qed.

Lemma coordDiffers_false a b : coordDiffers a b = false ↔ is_Some b ∧ sameCoord a b.
Proof.
  destruct a as [x|], b as [y|]; simpl; split; try done;
    try (by intros [[? ?] ?]); try (by intros [_ []]).
  - intros H. apply negb_false_iff, Qeq_bool_iff in H. by split.
  - intros [_ H]. by apply negb_false_iff, Qeq_bool_iff.
Qed.

Lemma refreshStop_spec locations s :
  coordsErased (refreshStop locations s).1 = coordsErased s
  ∧ RouteStop.locationId (refreshStop locations s).1 = RouteStop.locationId s
  ∧ (∀ lat lng, locationCoords locations (RouteStop.locationId s) = Some (lat, lng) →
       sameCoord (RouteStop.lat (refreshStop locations s).1) lat
       ∧ sameCoord (RouteStop.lng (refreshStop locations s).1) lng
       ∧ ((refreshStop locations s).2 = false → is_Some lat ∧ is_Some lng)
       ∧ (lat = None ∨ lng = None → (refreshStop locations s).2 = true
                                    ∧ (refreshStop locations s).1 = withCoords s lat lng))
  ∧ (locationCoords locations (RouteStop.locationId s) = None →
       refreshStop locations s = (s, false))
  ∧ ((refreshStop locations s).2 = false → (refreshStop locations s).1 = s).
Proof.
  unfold refreshStop.
  destruct (locationCoords locations (RouteStop.locationId s)) as [[lat lng]|];
    [|by repeat split].
  destruct (coordDiffers (RouteStop.lat s) lat) eqn:Hlat;
    [|destruct (coordDiffers (RouteStop.lng s) lng) eqn:Hlng]; cbn [orb fst snd].
  - split; [done|]. split; [done|]. split; [|by split].
    intros ?? [= <- <-]. split; [apply sameCoord_refl|].
    split; [apply sameCoord_refl|]. by split.
  - split; [done|]. split; [done|]. split; [|by split].
    intros ?? [= <- <-]. split; [apply sameCoord_refl|].
    split; [apply sameCoord_refl|]. by split.
  - apply coordDiffers_false in Hlat, Hlng.
    destruct Hlat as [Hlat Hlat'], Hlng as [Hlng Hlng'].
    split; [done|]. split; [done|]. split; [|by split].
    intros ?? [= <- <-]. split; [done|]. split; [done|]. split; [done|].
    intros [->| ->]; [by destruct Hlat|by destruct Hlng].
Qed.

Lemma existsb_false {A} (f : A → bool) (l : list A) :
  existsb f l = false ↔ Forall (λ x, f x = false) l.
Proof.
  induction l as [|x l IH]; [by split|]. simpl. rewrite orb_false_iff, Forall_cons.
  by rewrite IH.
Qed.

Lemma existsb_true {A} (f : A → bool) (l : list A) x :
  x ∈ l → f x = true → existsb f l = true.
Proof. intros Hx Hf. apply existsb_exists. exists x. by rewrite <- list_elem_of_In. Qed.

(** X15. What a refresh does to the stops of a route: their number,
    their order and everything but their coordinates stay; a stop of a
    location of the table ends with the coordinates of the location, a
    stop of no location of the table (the depot) stays as it is; and
    when nothing is to be updated the stops are the same. *)
Theorem refreshStops_keeps (locations : list Location.t) (stops : list RouteStop.t) :
  length (refreshStops locations stops).1 = length stops
  ∧ coordsErased <$> (refreshStops locations stops).1 = coordsErased <$> stops
  ∧ (∀ i s s' lat lng,
       stops !! i = Some s → (refreshStops locations stops).1 !! i = Some s' →
       locationCoords locations (RouteStop.locationId s) = Some (lat, lng) →
       sameCoord (RouteStop.lat s') lat ∧ sameCoord (RouteStop.lng s') lng)
  ∧ (∀ i s,
       stops !! i = Some s →
       locationCoords locations (RouteStop.locationId s) = None →
       (refreshStops locations stops).1 !! i = Some s)
  ∧ ((refreshStops locations stops).2 = false →
       (refreshStops locations stops).1 = stops).
Proof.
  unfold refreshStops. cbn [fst snd].
  split; [apply length_map|]. split.
  { change (map (λ stop, (refreshStop locations stop).1) stops)
      with ((λ stop, (refreshStop locations stop).1) <$> stops).
    rewrite <- list_fmap_compose. apply list_fmap_ext. intros i s _.
    apply refreshStop_spec. }
  change (map (λ stop, (refreshStop locations stop).1) stops)
    with ((λ stop, (refreshStop locations stop).1) <$> stops).
  split; [|split].
  - intros i s s' lat lng Hs Hs' Hcoords.
    rewrite list_lookup_fmap, Hs in Hs'. injection Hs' as <-.
    destruct (refreshStop_spec locations s) as (_ & _ & H & _).
    destruct (H lat lng Hcoords) as (? & ? & _). done.
  - intros i s Hs Hnone. rewrite list_lookup_fmap, Hs.
    destruct (refreshStop_spec locations s) as (_ & _ & _ & H & _).
    cbn [fmap option_fmap option_map]. by rewrite (H Hnone).
  - intros Hno. apply existsb_false in Hno.
    apply list_eq. intros i. rewrite list_lookup_fmap.
    destruct (stops !! i) as [s|] eqn:Hs; [|done]. simpl. f_equal.
    apply refreshStop_spec.
    apply (proj1 (Forall_lookup _ _) Hno i s Hs).
Qed.

Lemma refreshStops_unlocated locations stops s lat lng :
  s ∈ stops →
  locationCoords locations (RouteStop.locationId s) = Some (lat, lng) →
  lat = None ∨ lng = None →
  (refreshStops locations stops).2 = true
  ∧ withCoords s lat lng ∈ (refreshStops locations stops).1.
Proof.
  intros Hs Hcoords Hnone.
  destruct (refreshStop_spec locations s) as (_ & _ & H & _).
  destruct (H lat lng Hcoords) as (_ & _ & _ & Hup).
  destruct (Hup Hnone) as [Htrue Heq].
  unfold refreshStops. cbn [fst snd]. split; [by eapply existsb_true|].
  rewrite <- Heq.
  change (map (λ stop, (refreshStop locations stop).1) stops)
    with ((λ stop, (refreshStop locations stop).1) <$> stops).
  apply list_elem_of_fmap. by exists s.
Qed.

(** The refreshed stops, refreshed again, and so on. *)
Lemma refreshStops_again locations stops s lat lng n :
  s ∈ stops →
  locationCoords locations (RouteStop.locationId s) = Some (lat, lng) →
  lat = None ∨ lng = None →
  ∃ s', s' ∈ Nat.iter n (λ l, (refreshStops locations l).1) stops
    ∧ locationCoords locations (RouteStop.locationId s') = Some (lat, lng).
Proof.
  intros Hs Hc Hnone. induction n as [|n (s' & Hs' & Hc')]; [by exists s|].
  exists (withCoords s' lat lng). split; [|done].
  cbn [Nat.iter nat_rect]. by apply (refreshStops_unlocated locations _ s' lat lng).
Qed.

(** X16. Refreshing twice: when every location the stops refer to has
    both coordinates, a second refresh finds nothing to update.  A stop
    that holds a number for a coordinate its location lacks makes the
    refresh update the route, and every later refresh of the refreshed
    stops again: the refreshed stop holds nothing for the coordinate
    ([coords.lat ?? undefined]), which differs from the [null] of the
    location. *)
Theorem refreshStops_settles (locations : list Location.t) (stops : list RouteStop.t) :
  ((∀ s lat lng,
      s ∈ stops →
      locationCoords locations (RouteStop.locationId s) = Some (lat, lng) →
      is_Some lat ∧ is_Some lng) →
   (refreshStops locations (refreshStops locations stops).1).2 = false)
  ∧ (∀ s lat lng,
       s ∈ stops →
       locationCoords locations (RouteStop.locationId s) = Some (lat, lng) →
       (lat = None ∧ is_Some (RouteStop.lat s))
       ∨ (lng = None ∧ is_Some (RouteStop.lng s)) →
       ∀ n, (refreshStops locations
               (Nat.iter n (λ l, (refreshStops locations l).1) stops)).2 = true).
Proof.
  split.
  - intros Hall. unfold refreshStops at 1. cbn [snd].
    apply existsb_false, Forall_forall. intros s' Hs'.
    unfold refreshStops in Hs'. cbn [fst] in Hs'.
    apply list_elem_of_In, in_map_iff in Hs'. destruct Hs' as (s & <- & Hs).
    apply list_elem_of_In in Hs.
    destruct (refreshStop_spec locations s) as (_ & Hid & Hsame & Hnone & _).
    set (s' := (refreshStop locations s).1) in *.
    unfold refreshStop. rewrite Hid.
    destruct (locationCoords locations (RouteStop.locationId s)) as [[lat lng]|] eqn:Hc;
      [|done].
    destruct (Hsame lat lng eq_refl) as (Hlat & Hlng & _).
    destruct (Hall s lat lng Hs Hc) as [Hl1 Hl2].
    rewrite (proj2 (coordDiffers_false _ lat)) by done.
    by rewrite (proj2 (coordDiffers_false _ lng)).
  - intros s lat lng Hs Hc Hlost n.
    assert (lat = None ∨ lng = None) as Hnone by (destruct Hlost as [[? _]|[? _]]; auto).
    destruct (refreshStops_again locations stops s lat lng n Hs Hc Hnone)
      as (s' & Hs' & Hc').
    by apply (refreshStops_unlocated locations _ s' lat lng).
Qed.

(** The run of the refresh of one route. *)
Lemma refreshRoute_run locations route w :
  ∃ refresh w',
    refreshRoute locations route w = (Ok refresh, w')
    ∧ uuids w' = uuids w
    ∧ (fetches w' = fetches w ∨ (is_Some refresh ∧ fetches w' = S (fetches w)))
    ∧ (refresh = None ↔
       (refreshStops locations (default [] (Row.stopsJson route))).2 = false)
    ∧ ∀ u, refresh = Some u →
        refreshedStops u = (refreshStops locations (default [] (Row.stopsJson route))).1
        ∧ refreshedLink u = generateGoogleMapsUrl (refreshedStops u)
        ∧ (¬ Forall (λ s, stopHasCoords s = true) (refreshedStops u) →
             refreshedDistance u = None ∧ refreshedTime u = None ∧ w' = w)
        ∧ (Forall (λ s, stopHasCoords s = true) (refreshedStops u) →
             (∃ result w0,
                optimizeRouteWithGoogle (refreshedStops u) w0 = (Ok (Some result), w')
                ∧ refreshedDistance u = Some (totalDistanceKm result)
                ∧ refreshedTime u = Some (estimatedTimeMinutes result))
             ∨ (refreshedDistance u = calculateRouteDistance (refreshedStops u)
                ∧ refreshedTime u
                  = Some (heuristicTime (refreshedDistance u)
                            (length (refreshedStops u))))).
Proof.
  unfold refreshRoute.
  set (stops := default [] (Row.stopsJson route)).
  set (updatedStops := (refreshStops locations stops).1).
  destruct ((refreshStops locations stops).2) eqn:Hup.
  - destruct (forallb (λ s, hasCoords (RouteStop.lat s) (RouteStop.lng s)) updatedStops)
      eqn:Hcoords.
    + apply forallb_stopHasCoords in Hcoords.
      destruct (optimizeRouteWithGoogle_returns updatedStops w) as (g & w' & Hg).
      rewrite (bind_Ok _ _ _ _ _ Hg).
      assert (uuids w' = uuids w
              ∧ (fetches w' = fetches w ∨ fetches w' = S (fetches w))) as [Hu Hf].
      { destruct (optimizeRouteWithGoogle_world _ _ _ _ Hg)
          as [[_ ->]|(_ & _ & ->)]; cbn [uuids fetches]; auto. }
      destruct g as [result|]; unfold mret, M_ret.
      * eexists _, w'. split; [done|]. split; [done|]. split.
        { destruct Hf; [by left|right; by split]. }
        split; [by split|]. intros u [= <-]. cbn [refreshedStops refreshedLink
          refreshedDistance refreshedTime]. split; [done|]. split; [done|].
        split; [done|]. intros _. left. by exists result, w.
      * eexists _, w'. split; [done|]. split; [done|]. split.
        { destruct Hf; [by left|right; by split]. }
        split; [by split|]. intros u [= <-]. cbn [refreshedStops refreshedLink
          refreshedDistance refreshedTime]. split; [done|]. split; [done|].
        split; [done|]. intros _. by right.
    + unfold mret, M_ret. eexists _, w. split; [done|]. split; [done|].
      split; [by left|]. split; [by split|]. intros u [= <-].
      cbn [refreshedStops refreshedLink refreshedDistance refreshedTime].
      split; [done|]. split; [done|]. split; [done|].
      intros Hall. apply forallb_stopHasCoords in Hall. congruence.
  - unfold mret, M_ret. exists None, w. split; [done|]. split; [done|].
    split; [by left|]. split; [by split|]. done.
Qed.

(** X17. A route with a stop that holds a number for a coordinate its
    location lacks loses its distance and its time estimate at a
    refresh: the route is written again, the stop with the coordinates
    of the location, the distance and the time are set to [null], and
    the provider is not asked. *)
Theorem refreshRoute_unlocated (locations : list Location.t) (route : Row.t)
    (w : World) (s : RouteStop.t) (lat lng : option Q) :
  s ∈ default [] (Row.stopsJson route) →
  locationCoords locations (RouteStop.locationId s) = Some (lat, lng) →
  (lat = None ∧ is_Some (RouteStop.lat s))
  ∨ (lng = None ∧ is_Some (RouteStop.lng s)) →
  ∃ u,
    refreshRoute locations route w = (Ok (Some u), w)
    ∧ refreshedStops u = (refreshStops locations (default [] (Row.stopsJson route))).1
    ∧ withCoords s lat lng ∈ refreshedStops u
    ∧ refreshedDistance u = None
    ∧ refreshedTime u = None.
Proof.
  intros Hs Hc Hlost.
  assert (lat = None ∨ lng = None) as Hnone by (destruct Hlost as [[? _]|[? _]]; auto).
  destruct (refreshStops_unlocated locations _ s lat lng Hs Hc Hnone) as [Hup Hin].
  destruct (refreshRoute_run locations route w)
    as (refresh & w' & Hrun & _ & _ & Hiff & Hsome).
  destruct refresh as [u|]; [|by rewrite (proj1 Hiff eq_refl) in Hup].
  destruct (Hsome u eq_refl) as (Hstops & _ & Hlack & _).
  destruct Hlack as (Hd & Ht & ->).
  { rewrite Hstops. intros Hall.
    pose proof (proj1 (Forall_forall _ _) Hall _ Hin) as Hcoords.
    unfold stopHasCoords, withCoords in Hcoords.
    cbn [RouteStop.lat RouteStop.lng] in Hcoords.
    destruct Hnone as [-> | ->]; [done|by destruct lat]. }
  exists u. by rewrite Hstops.
Qed.

(** X18. The refresh of the routes returns: it counts at most one update
    for each route it was given and asks the provider at most once for
    each update; it leaves the number and the order of the rows, their
    identifiers, dates, statuses, drivers and stop counts; a row it
    changed holds the refreshed stops of a route it was given under the
    identifier of the row. *)
Theorem refreshRoutes_frame (locations : list Location.t) (routes table : list Row.t)
    (updatedCount : nat) (w : World) :
  ∃ n table' w',
    refreshRoutes locations routes table updatedCount w = (Ok (n, table'), w')
    ∧ (updatedCount <= n <= updatedCount + length routes)%nat
    ∧ uuids w' = uuids w
    ∧ (fetches w <= fetches w' <= fetches w + (n - updatedCount))%nat
    ∧ Forall2 (λ r r',
         Row.id r' = Row.id r ∧ Row.date r' = Row.date r
         ∧ Row.status r' = Row.status r
         ∧ Row.driverId r' = Row.driverId r ∧ Row.driverName r' = Row.driverName r
         ∧ Row.stopCount r' = Row.stopCount r
         ∧ (r' = r
            ∨ ∃ route,
                route ∈ routes ∧ Row.id route = Row.id r
                ∧ Row.stopsJson r'
                  = Some (refreshStops locations
                            (default [] (Row.stopsJson route))).1
                ∧ Row.routeLink r'
                  = Some (generateGoogleMapsUrl
                            (refreshStops locations
                               (default [] (Row.stopsJson route))).1)))
        table table'.
Proof.
  revert table updatedCount w.
  induction routes as [|route rest IH]; intros table updatedCount w.
  - exists updatedCount, table, w. split; [done|]. simpl.
    split; [lia|]. split; [done|]. split; [lia|].
    apply Forall2_same_length_lookup. split; [done|].
    intros i r r' Hr Hr'. assert (r' = r) as -> by congruence.
    repeat (split; [done|]). by left.
  - destruct (refreshRoute_run locations route w)
      as (refresh & w1 & Hrun & Hu & Hf & _ & Hsome).
    cbn [refreshRoutes]. rewrite (bind_Ok _ _ _ _ _ Hrun).
    destruct refresh as [u|].
    + destruct (Hsome u eq_refl) as (Hstops & Hlink & _).
      destruct (IH (updateRoute (Row.id route)
                      (λ r, Row.withRefresh r (refreshedStops u) (refreshedLink u)
                              (refreshedDistance u) (refreshedTime u)) table)
                   (S updatedCount) w1)
        as (n & table' & w' & Hrest & Hn & Hu' & Hf' & Hall).
      exists n, table', w'. split; [done|]. simpl.
      split; [lia|]. split; [congruence|].
      split; [destruct Hf as [Hf|[_ Hf]]; lia|].
      unfold updateRoute in Hall.
      change (map ?f table) with (f <$> table) in Hall.
      apply Forall2_fmap_l in Hall.
      eapply Forall2_impl; [exact Hall|]. intros r r'. unfold compose.
      destruct (String.eqb (Row.id r) (Row.id route)) eqn:Hid.
      * apply String.eqb_eq in Hid.
        cbn [Row.withRefresh Row.id Row.date Row.status Row.driverId Row.driverName
             Row.stopCount].
        intros (H1 & H2 & H3 & H4 & H5 & H6 & Hor).
        repeat (split; [done|]). right.
        destruct Hor as [->|(route' & Hin & Hid' & Hs' & Hl')].
        -- exists route. cbn [Row.withRefresh Row.stopsJson Row.routeLink].
           split; [by left|]. split; [done|]. by rewrite Hlink, Hstops.
        -- exists route'. split; [by right|]. done.
      * intros (H1 & H2 & H3 & H4 & H5 & H6 & Hor).
        repeat (split; [done|]).
        destruct Hor as [->|(route' & Hin & Hid' & Hs' & Hl')]; [by left|].
        right. exists route'. split; [by right|]. done.
    + destruct (IH table updatedCount w1)
        as (n & table' & w' & Hrest & Hn & Hu' & Hf' & Hall).
      exists n, table', w'. split; [done|]. simpl.
      split; [lia|]. split; [congruence|].
      split; [destruct Hf as [Hf|[[? [=]] _]]; lia|].
      eapply Forall2_impl; [exact Hall|]. intros r r'.
      intros (H1 & H2 & H3 & H4 & H5 & H6 & Hor).
      repeat (split; [done|]).
      destruct Hor as [->|(route' & Hin & Hid' & Hs' & Hl')]; [by left|].
      right. exists route'. split; [by right|]. done.
Qed.

(** ** Publishing routes *)

Lemma existsb_Permutation {A} (f : A → bool) (l k : list A) :
  l ≡ₚ k → existsb f l = existsb f k.
Proof.
  intros Hperm. apply eq_true_iff_eq. rewrite !existsb_exists.
  split; intros (x & Hx & Hf); exists x; split; try done;
    apply list_elem_of_In; apply list_elem_of_In in Hx; by rewrite ?Hperm in *.
Qed.

(** The loop over a snapshot, by the rows of the snapshot that ask for
    the update. *)
Lemma publishRoutes_map routes table :
  publishRoutes routes table
  = (λ r, if existsb (λ route, String.eqb (Row.id route) (Row.id r)
                                && String.eqb (Row.status route) "assigned") routes
          then Row.withStatus r "published" else r) <$> table.
Proof.
  revert table. induction routes as [|route rest IH]; intros table.
  - simpl. by rewrite list_fmap_id.
  - cbn [publishRoutes existsb].
    destruct (String.eqb (Row.status route) "assigned") eqn:Hst.
    + rewrite IH. unfold updateRoute.
      change (map ?f table) with (f <$> table). rewrite <- list_fmap_compose.
      apply list_fmap_ext. intros i r _. unfold compose.
      rewrite (String.eqb_sym (Row.id route) (Row.id r)), andb_true_r.
      destruct (String.eqb (Row.id r) (Row.id route)); cbn [orb]; [|done].
      by destruct (existsb _ rest).
    + rewrite IH. apply list_fmap_ext. intros i r _.
      by rewrite andb_false_r.
Qed.

Lemma unpublishRoutes_map date routes table unpublishedCount :
  unpublishRoutes date routes table unpublishedCount
  = ((unpublishedCount
      + length (filter (λ route, String.eqb (Row.status route) "published"
                                 && negb (otherDate date route) = true) routes))%nat,
     (λ r, if existsb (λ route, String.eqb (Row.id route) (Row.id r)
                                 && (String.eqb (Row.status route) "published"
                                     && negb (otherDate date route))) routes
           then Row.withStatus r "assigned" else r) <$> table).
Proof.
  revert table unpublishedCount.
  induction routes as [|route rest IH]; intros table unpublishedCount.
  - simpl. by rewrite list_fmap_id, Nat.add_0_r.
  - cbn [unpublishRoutes existsb]. rewrite filter_cons.
    destruct (String.eqb (Row.status route) "published") eqn:Hst;
      [destruct (otherDate date route) eqn:Hdate|]; cbn [andb negb].
    + rewrite decide_False by done. rewrite IH. f_equal.
      apply list_fmap_ext. intros i r _. by rewrite andb_false_r.
    + rewrite decide_True by done. rewrite IH. f_equal; [simpl; lia|].
      unfold updateRoute.
      change (map ?f table) with (f <$> table). rewrite <- list_fmap_compose.
      apply list_fmap_ext. intros i r _. unfold compose.
      rewrite (String.eqb_sym (Row.id route) (Row.id r)), andb_true_r.
      destruct (String.eqb (Row.id r) (Row.id route)); cbn [orb]; [|done].
      by destruct (existsb _ rest).
    + rewrite decide_False by done. rewrite IH. f_equal.
      apply list_fmap_ext. intros i r _. by rewrite andb_false_r.
Qed.

(** In a snapshot of a table with distinct identifiers, the rows that
    have the identifier of a row of the table are that row. *)
Lemma existsb_own_row (p : Row.t → bool) (routes table : list Row.t) (r : Row.t) :
  NoDup (Row.id <$> table) → routes ≡ₚ table → r ∈ table →
  existsb (λ route, String.eqb (Row.id route) (Row.id r) && p route) routes = p r.
Proof.
  intros Hnd Hperm Hr. rewrite (existsb_Permutation _ _ _ Hperm).
  clear routes Hperm. induction table as [|x table IH]; [by apply elem_of_nil in Hr|].
  rewrite fmap_cons in Hnd. apply NoDup_cons in Hnd. destruct Hnd as [Hx Hnd].
  apply elem_of_cons in Hr. cbn [existsb]. destruct Hr as [->|Hr].
  - rewrite String.eqb_refl. cbn [andb]. destruct (p x); [done|]. cbn [orb].
    apply existsb_false, Forall_forall. intros y Hy.
    destruct (String.eqb (Row.id y) (Row.id x)) eqn:Hid; [|done].
    apply String.eqb_eq in Hid. exfalso. apply Hx. rewrite <- Hid.
    apply list_elem_of_fmap. by exists y.
  - destruct (String.eqb (Row.id x) (Row.id r)) eqn:Hid.
    + apply String.eqb_eq in Hid. exfalso. apply Hx. rewrite Hid.
      apply list_elem_of_fmap. by exists r.
    + cbn [andb orb]. by apply IH.
Qed.

(** X19. Publishing and unpublishing, on a table with distinct
    identifiers and the rows of the table as the snapshot, in any order:
    publishing turns the assigned routes into published ones and leaves
    every other row and every other column; unpublishing turns the
    published routes, of the date asked for if one is, into assigned
    ones and counts them; and unpublishing everything after publishing
    gives back a table that had no published route. *)
Theorem publish_unpublish (table : list Row.t) :
  NoDup (Row.id <$> table) →
  (∀ routes, routes ≡ₚ table →
     publishRoutes routes table = publishedRow <$> table)
  ∧ (∀ date routes, routes ≡ₚ table →
       unpublishRoutes date routes table 0
       = (length (filter (λ r, toUnpublish date r = true) table),
          unpublishedRow date <$> table))
  ∧ (Forall (λ r, Row.status r ≠ "published") table →
     ∀ routes routes',
       routes ≡ₚ table → routes' ≡ₚ publishRoutes routes table →
       (unpublishRoutes None routes' (publishRoutes routes table) 0).2 = table).
Proof.
  intros Hnd.
  assert (Hpub : ∀ routes, routes ≡ₚ table →
            publishRoutes routes table = publishedRow <$> table).
  { intros routes Hperm. rewrite publishRoutes_map.
    apply Forall_fmap_ext, Forall_forall. intros r Hr.
    rewrite (existsb_own_row (λ route, String.eqb (Row.status route) "assigned")
               routes table r) by done.
    done. }
  assert (Hunpub : ∀ tbl date routes, NoDup (Row.id <$> tbl) → routes ≡ₚ tbl →
            (unpublishRoutes date routes tbl 0).2 = unpublishedRow date <$> tbl).
  { intros tbl date routes Hnd' Hperm. rewrite unpublishRoutes_map. cbn [snd].
    apply Forall_fmap_ext, Forall_forall. intros r Hr.
    rewrite (existsb_own_row
               (λ route, String.eqb (Row.status route) "published"
                         && negb (otherDate date route)) routes tbl r) by done.
    done. }
  split; [done|]. split.
  - intros date routes Hperm.
    rewrite (surjective_pairing (unpublishRoutes date routes table 0)).
    rewrite Hunpub by done. f_equal.
    rewrite unpublishRoutes_map. cbn [fst]. by rewrite Nat.add_0_l, Hperm.
  - intros Hnone routes routes' Hperm Hperm'. rewrite Hpub in * by done.
    assert (NoDup (Row.id <$> (publishedRow <$> table))) as Hnd'.
    { rewrite <- list_fmap_compose.
      replace (Row.id ∘ publishedRow <$> table) with (Row.id <$> table); [done|].
      apply list_fmap_ext. intros i r _. unfold compose, publishedRow.
      by destruct (String.eqb (Row.status r) "assigned"). }
    rewrite (Hunpub _ None routes' Hnd' Hperm').
    rewrite <- list_fmap_compose.
    rewrite <- (list_fmap_id table) at 2.
    apply Forall_fmap_ext, Forall_forall. intros r Hr. unfold compose.
    pose proof (proj1 (Forall_forall _ _) Hnone r Hr) as Hst.
    unfold publishedRow, unpublishedRow, toUnpublish.
    destruct (String.eqb (Row.status r) "assigned") eqn:Ha.
    + cbn. apply String.eqb_eq in Ha. destruct r. cbn in *. by rewrite Ha.
    + cbn [otherDate negb]. rewrite andb_true_r.
      by rewrite (proj2 (String.eqb_neq _ _) Hst).
Qed.

(** ** Geocoding *)

Lemma geocodeAddress_requests address n :
  (geocodeAddress address n).2
  = if String.eqb (orElseS apiKey "") "" then n else S n.
Proof.
  unfold geocodeAddress. destruct (String.eqb (orElseS apiKey "") ""); [done|].
  destruct (geocoder _ _) as [|status results]; [done|].
  destruct (match status with Some s => String.eqb s "OK" | None => false end);
    [|done].
  by destruct results as [[|location rest]|].
Qed.

Lemma geocodeOne_spec loc n :
  geocodedFrom loc (geocodeOne loc n).1
  ∧ (geocodeOne loc n).2
    = (if hasCoords (InsertLocation.lat loc) (InsertLocation.lng loc) then n
       else if String.eqb (orElseS apiKey "") "" then n else S n)
  ∧ (hasCoords (InsertLocation.lat loc) (InsertLocation.lng loc) = true
     ∨ orElseS apiKey "" = "" → (geocodeOne loc n).1 = loc).
Proof.
  unfold geocodeOne, geocodedFrom.
  destruct (hasCoords (InsertLocation.lat loc) (InsertLocation.lng loc)) eqn:Hc.
  - split; [by left|]. by split.
  - pose proof (geocodeAddress_requests (InsertLocation.address loc) n) as Hreq.
    destruct (geocodeAddress (InsertLocation.address loc) n) as [[[lat lng]|] n'] eqn:Hg;
      cbn [fst snd] in *.
    + split; [right; split; [done|by exists lat, lng]|]. split; [done|].
      intros [?|Hkey]; [done|]. unfold geocodeAddress in Hg.
      rewrite Hkey in Hg. done.
    + split; [by left|]. by split.
Qed.

Lemma geocodeAll_app l1 l2 n :
  geocodeAll (l1 ++ l2) n
  = ((geocodeAll l1 n).1 ++ (geocodeAll l2 (geocodeAll l1 n).2).1,
     (geocodeAll l2 (geocodeAll l1 n).2).2).
Proof.
  revert n. induction l1 as [|loc l1 IH]; intros n.
  - simpl. by destruct (geocodeAll l2 n).
  - cbn [app geocodeAll fst snd]. by rewrite IH.
Qed.

Lemma geocodeAll_spec locations n :
  Forall2 geocodedFrom locations (geocodeAll locations n).1
  ∧ (geocodeAll locations n).2
    = (if String.eqb (orElseS apiKey "") "" then n
       else n + length (needGeocoding locations))%nat
  ∧ (orElseS apiKey "" = "" → (geocodeAll locations n).1 = locations).
Proof.
  revert n. induction locations as [|loc rest IH]; intros n.
  - simpl. split; [constructor|]. split; [|done].
    destruct (String.eqb _ _); [done|]. unfold needGeocoding. simpl. lia.
  - cbn [geocodeAll fst snd].
    destruct (geocodeOne_spec loc n) as (Hone & Hn & Hsame).
    destruct (IH (geocodeOne loc n).2) as (Hall & Hn' & Hsame').
    split; [by constructor|]. split.
    + rewrite Hn', Hn. unfold needGeocoding. rewrite filter_cons.
      destruct (String.eqb (orElseS apiKey "") ""); [by destruct (hasCoords _ _)|].
      destruct (hasCoords (InsertLocation.lat loc) (InsertLocation.lng loc)).
      * by rewrite decide_False by done.
      * rewrite decide_True by done. simpl. lia.
    + intros Hkey. rewrite Hsame by (by right). by rewrite Hsame'.
Qed.

Lemma ceilRatio_step m b :
  (1 <= b)%nat → (b < m)%nat →
  (ceilRatio m b - 1 = S (ceilRatio (m - b) b - 1))%nat.
Proof.
  intros Hb Hm. unfold ceilRatio.
  replace (m + b - 1)%nat with ((m - b + b - 1) + 1 * b)%nat by lia.
  rewrite Nat.div_add by lia.
  assert (1 <= (m - b + b - 1) / b)%nat; [|lia].
  apply Nat.div_le_lower_bound; lia.
Qed.

Lemma ceilRatio_last m b : (1 <= b)%nat → (m <= b)%nat → (ceilRatio m b - 1 = 0)%nat.
Proof.
  intros Hb Hm. unfold ceilRatio.
  assert ((m + b - 1) / b < 2)%nat as Hq.
  { apply Nat.Div0.div_lt_upper_bound. lia. }
  set (q := ((m + b - 1) / b)%nat) in *. clearbody q. lia.
Qed.

(** The loop, from the [i]-th location on: one pass over the locations
    left, and a wait after every batch but the last one. *)
Lemma geocodeLoop_run fuel locations batchSize delayMs i results st :
  (1 <= batchSize)%nat → (length locations - i <= fuel)%nat →
  geocodeLoop fuel locations batchSize delayMs i results st
  = Some (results ++ (geocodeAll (drop i locations) (requests st)).1,
          mkGeoState (geocodeAll (drop i locations) (requests st)).2
            (delays st
               ++ replicate (ceilRatio (length locations - i) batchSize - 1) delayMs)).
Proof.
  intros Hb. revert i results st.
  induction fuel as [|fuel IH]; intros i results st Hfuel.
  - replace (geocodeLoop 0 locations batchSize delayMs i results st)
      with (Some (results, st)).
    2:{ simpl. by replace (i <? length locations)%nat with false
          by (symmetry; apply Nat.ltb_ge; lia). }
    rewrite drop_ge by lia. replace (length locations - i)%nat with 0%nat by lia.
    rewrite ceilRatio_last by lia. simpl. rewrite !app_nil_r. by destruct st.
  - cbn [geocodeLoop]. destruct (i <? length locations)%nat eqn:Hi.
    + apply Nat.ltb_lt in Hi. rewrite IH by (cbn [requests]; lia).
      unfold slice. replace (i + batchSize - i)%nat with batchSize by lia.
      pose proof (geocodeAll_app (take batchSize (drop i locations))
                    (drop batchSize (drop i locations)) (requests st)) as Happ.
      rewrite take_drop, drop_drop in Happ. rewrite Happ. cbn [fst snd].
      destruct (i + batchSize <? length locations)%nat eqn:Hmore;
        cbn [requests delays].
      * apply Nat.ltb_lt in Hmore. rewrite <- !app_assoc. do 3 f_equal.
        rewrite (ceilRatio_step (length locations - i) batchSize) by lia.
        replace (length locations - i - batchSize)%nat
          with (length locations - (i + batchSize))%nat by lia.
        done.
      * apply Nat.ltb_ge in Hmore. rewrite <- !app_assoc. do 3 f_equal.
        rewrite (ceilRatio_last (length locations - i)) by lia.
        rewrite (ceilRatio_last (length locations - (i + batchSize))) by lia.
        done.
    + apply Nat.ltb_ge in Hi. rewrite drop_ge by lia.
      replace (length locations - i)%nat with 0%nat by lia.
      rewrite ceilRatio_last by lia. simpl. rewrite !app_nil_r. by destruct st.
Qed.

(** X20. The geocoding in batches returns when the batch size is 1 or
    more: it gives the locations back in their order, each one as it was
    or with the coordinates it lacked; a location with both coordinates
    is given back as it was; a request is sent for each location that
    lacks a coordinate, and none without an API key, in which case the
    locations come back as they were; and it waits once after every
    batch but the last one. *)
Theorem geocodeBatch_spec (locations : list InsertLocation.t) (batchSize : nat)
    (delayMs : Q) (st : GeoState) :
  (1 <= batchSize)%nat →
  ∃ results st',
    geocodeBatch locations batchSize delayMs st = Some (results, st')
    ∧ Forall2 geocodedFrom locations results
    ∧ requests st'
      = (if String.eqb (orElseS apiKey "") "" then requests st
         else requests st + length (needGeocoding locations))%nat
    ∧ delays st'
      = delays st ++ replicate (ceilRatio (length locations) batchSize - 1) delayMs
    ∧ (orElseS apiKey "" = "" → results = locations).
Proof.
  intros Hb. unfold geocodeBatch.
  rewrite geocodeLoop_run by (done || lia).
  rewrite drop_0, Nat.sub_0_r, app_nil_l.
  destruct (geocodeAll_spec locations (requests st)) as (Hall & Hreq & Hsame).
  eexists _, _. split; [done|]. cbn [requests delays]. by repeat split.
Qed.

(** X21. The size of the batches and the length of the waits change
    nothing but the waits: the locations returned and the requests sent
    are those of one pass over the list. *)
Theorem geocodeBatch_batching (locations : list InsertLocation.t)
    (batchSize batchSize' : nat) (delayMs delayMs' : Q) (st : GeoState) :
  (1 <= batchSize)%nat → (1 <= batchSize')%nat →
  ∃ results st1 st2,
    geocodeBatch locations batchSize delayMs st = Some (results, st1)
    ∧ geocodeBatch locations batchSize' delayMs' st = Some (results, st2)
    ∧ requests st1 = requests st2
    ∧ (results, requests st1) = geocodeAll locations (requests st).
Proof.
  intros Hb Hb'. unfold geocodeBatch.
  rewrite !geocodeLoop_run by (done || lia).
  rewrite drop_0, app_nil_l.
  eexists _, _, _. split; [done|]. split; [done|]. cbn [requests].
  split; [done|]. by destruct (geocodeAll locations (requests st)).
Qed.

(** ** The duration of the provider *)

Lemma digitValue_digitChar d : (d < 10)%nat → digitValue 10 (digitChar d) = Some d.
Proof. intros Hd. do 10 (destruct d as [|d]; [done|]). lia. Qed.

Lemma digitChar_plain d :
  (d < 10)%nat →
  isWhite (digitChar d) = false ∧ digitChar d ≠ "s"%char
  ∧ digitChar d ≠ "x"%char ∧ digitChar d ≠ "X"%char.
Proof. intros Hd. do 10 (destruct d as [|d]; [done|]). lia. Qed.

Lemma endsNumeral_numeral ds tail :
  Forall (λ d, (d < 10)%nat) ds → endsNumeral tail →
  match numeral ds +:+ tail with
  | EmptyString => True
  | String c _ => c ≠ "x"%char ∧ c ≠ "X"%char
  end.
Proof.
  intros Hds Htail. destruct Hds as [|d ds Hd _].
  - simpl. destruct tail; [done|]. by destruct Htail as (_ & ? & ?).
  - simpl. by destruct (digitChar_plain d Hd) as (_ & _ & ? & ?).
Qed.

Lemma parseDigits_numeral ds tail acc :
  Forall (λ d, (d < 10)%nat) ds → endsNumeral tail →
  parseDigits 10 (numeral ds +:+ tail) acc
  = match ds with
    | [] => acc
    | _ => Some (fold_left (λ acc d, (acc * 10 + Z.of_nat d)%Z) ds (default 0%Z acc))
    end.
Proof.
  intros Hds Htail. revert acc. induction Hds as [|d ds Hd Hds IH]; intros acc.
  - simpl. destruct tail as [|c tail]; [done|]. simpl.
    destruct Htail as [-> _]. done.
  - change (numeral (d :: ds) +:+ tail)
      with (String (digitChar d) (numeral ds +:+ tail)).
    cbn [parseDigits]. rewrite digitValue_digitChar by done. rewrite IH.
    destruct ds; done.
Qed.

(** [parseInt] on a string that begins with a decimal digit and does
    not go on as a hexadecimal prefix. *)
Lemma parseInt_digit d s :
  (d < 10)%nat →
  match s with
  | EmptyString => True
  | String c _ => c ≠ "x"%char ∧ c ≠ "X"%char
  end →
  parseInt (String (digitChar d) s)
  = match parseDigits 10 (String (digitChar d) s) None with
    | Some z => Some (1 * z)%Z
    | None => None
    end.
Proof.
  intros Hd Hs. destruct d as [|d].
  - destruct s as [|c s]; [done|]. destruct Hs as [Hx HX].
    destruct c as [[] [] [] [] [] [] [] []]; try reflexivity; by exfalso.
  - do 9 (destruct d as [|d]; [reflexivity|]). lia.
Qed.

Lemma removeFirst_numeral ds tail :
  Forall (λ d, (d < 10)%nat) ds →
  removeFirst "s" (numeral ds +:+ tail) = numeral ds +:+ removeFirst "s" tail.
Proof.
  induction 1 as [|d ds Hd Hds IH]; [done|].
  change (numeral (d :: ds) +:+ tail) with (String (digitChar d) (numeral ds +:+ tail)).
  cbn [removeFirst].
  destruct (digitChar_plain d Hd) as (_ & Hs & _).
  rewrite (proj2 (Ascii.eqb_neq "s" (digitChar d))) by congruence.
  by rewrite IH.
Qed.

Lemma minutesOfDuration_numeral ds tail :
  ds ≠ [] → Forall (λ d, (d < 10)%nat) ds → endsNumeral (removeFirst "s" tail) →
  minutesOfDuration (Some (numeral ds +:+ tail)) = Math_ceil_div (numeralValue ds) 60.
Proof.
  intros Hne Hds Htail. unfold minutesOfDuration.
  destruct ds as [|d ds]; [done|].
  replace (String.eqb (numeral (d :: ds) +:+ tail) "") with false by done.
  rewrite removeFirst_numeral by done.
  apply Forall_cons in Hds. destruct Hds as [Hd Hds].
  change (numeral (d :: ds) +:+ removeFirst "s" tail)
    with (String (digitChar d) (numeral ds +:+ removeFirst "s" tail)).
  rewrite parseInt_digit; [|done|by apply endsNumeral_numeral].
  change (String (digitChar d) (numeral ds +:+ removeFirst "s" tail))
    with (numeral (d :: ds) +:+ removeFirst "s" tail).
  rewrite parseDigits_numeral by (done || by constructor).
  cbn [default from_option id]. unfold numeralValue. by rewrite Z.mul_1_l.
Qed.

(** X22. The duration of the provider, a decimal number of seconds
    followed by [s], becomes the number of whole minutes that holds it,
    the seconds rounded up to the minute; of a duration with a fraction
    of a second only the whole seconds count, so that the result can be
    a minute short of the duration. *)
Theorem minutesOfDuration_seconds (ds : list nat) (fraction : string) :
  ds ≠ [] → Forall (λ d, (d < 10)%nat) ds → (numeralValue ds < 2 ^ 53)%Z →
  minutesOfDuration (Some (numeral ds +:+ "s")) = Math_ceil_div (numeralValue ds) 60
  ∧ minutesOfDuration (Some (numeral ds +:+ "." +:+ fraction))
    = Math_ceil_div (numeralValue ds) 60
  ∧ (60 * (Math_ceil_div (numeralValue ds) 60 - 1) < numeralValue ds
     <= 60 * Math_ceil_div (numeralValue ds) 60)%Z.
Proof.
  intros Hne Hds _. split; [|split].
  - by apply minutesOfDuration_numeral.
  - by apply minutesOfDuration_numeral.
  - unfold Math_ceil_div.
    pose proof (Z.div_mod (- numeralValue ds) 60 ltac:(lia)).
    pose proof (Z.mod_pos_bound (- numeralValue ds) 60 ltac:(lia)). lia.
Qed.

(** ** The request for the routes of a day *)

Lemma generateRoutesForDay_summary dayLocations driverCount w :
  (1 <= driverCount)%nat → dayLocations ≠ [] →
  ∃ routes w',
    generateRoutesForDay dayLocations driverCount w = (Ok routes, w')
    ∧ (1 <= length routes <= driverCount)%nat
    ∧ (indicesInRange →
         Forall (λ r, Forall (λ d, ∃ loc, loc ∈ dayLocations ∧ deliveryOf loc d)
                             (sliceInner (Route.stopsJson r))) routes).
Proof.
  intros Hk Hne.
  destruct (generateRoutesForDay_trace dayLocations driverCount w)
    as (routes & w' & groups & Hrun & Htrace & _ & Hlen & _ & Hcover & _).
  specialize (Hcover Hk).
  pose proof (routesTrace_length _ _ _ _ Htrace) as Hrl.
  exists routes, w'. split; [done|]. split.
  - split; [|lia]. destruct groups as [|g groups]; [|simpl in Hrl; lia].
    simpl in Hcover. apply Permutation_nil_l in Hcover. by subst.
  - intros Hrange.
    destruct (generateRoutesForDay_routes dayLocations driverCount w)
      as (routes' & w'' & Hrun' & Hall).
    assert (routes' = routes) as -> by congruence.
    eapply Forall_impl; [exact Hall|]. intros r (locs & _ & Hsub & Hgen).
    destruct (generatedFrom_shape locs r Hgen)
      as (startId & endId & deliveries & -> & _ & _ & _ & Hdel & _).
    rewrite sliceInner_bookends.
    eapply Forall_impl; [exact (Hdel Hrange)|].
    intros d (loc & Hloc & Hd). exists loc. split; [by apply Hsub|done].
Qed.

Lemma length_eqb_zero {A} (l : list A) : (length l =? 0)%nat = false ↔ l ≠ [].
Proof. destruct l; simpl; split; done. Qed.

(** A request turned down: the answer is not one of the others. *)
Ltac turned_down Hin :=
  split; [done|];
  split; [split; [done|intros Hout; by destruct (Hout Hin)]|];
  split; done.

(** X23. The request for the routes of a day is always answered, the
    generation does not fail: with the 400 for the number of drivers
    exactly when it is not between 1 and 10; with the 400 for no
    location scheduled only when no location is scheduled on the day;
    and with routes only for a day of the week, at least one route and at
    most one for each driver, whose delivery stops, for a provider that
    answers with indices of the waypoints it is given, are stops of
    locations scheduled on the day and, when the request has a date, not
    excluded for it. *)
Theorem generateForDay_selects (driverCount : Z)
    (allLocations : list ScheduledLocation.t) (excludedLocationIds : list string)
    (handler : M GenerateReply) (w : World) :
  generateForDay driverCount allLocations excludedLocationIds = Some handler →
  ∃ reply w',
    handler w = (Ok reply, w')
    ∧ (reply = BadDriverCount ↔ ¬ (1 <= driverCount <= 10)%Z)
    ∧ (reply = NoneScheduled →
         Forall (λ loc, scheduledOn dayOfWeek loc = false) allLocations)
    ∧ ∀ routes, reply = Generated routes →
        dayOfWeek ∈ validDays
        ∧ (1 <= length routes <= Z.to_nat driverCount)%nat
        ∧ (length routes <= 10)%nat
        ∧ (indicesInRange →
             Forall (λ r,
               Forall (λ d, ∃ loc,
                         selectedFor allLocations excludedLocationIds loc
                         ∧ deliveryOf (ScheduledLocation.location loc) d)
                      (sliceInner (Route.stopsJson r))) routes).
Proof.
  unfold generateForDay. destruct (String.eqb dayOfWeek ""); [done|].
  intros Heq. apply (inj Some) in Heq. subst handler.
  destruct ((driverCount =? 0)%Z || (driverCount <? 1)%Z || (10 <? driverCount)%Z)
    eqn:Hcount.
  { exists BadDriverCount, w. split; [done|]. split; [|by split].
    split; [|done]. intros _ Hin.
    apply orb_true_iff in Hcount. destruct Hcount as [Hcount|Hcount];
      [apply orb_true_iff in Hcount; destruct Hcount as [Hcount|Hcount]|]; lia. }
  assert (1 <= driverCount <= 10)%Z as Hin.
  { apply orb_false_iff in Hcount. destruct Hcount as [Hcount H10].
    apply orb_false_iff in Hcount. destruct Hcount as [_ H1]. lia. }
  destruct (existsb (String.eqb dayOfWeek) validDays) eqn:Hday; cbn [negb];
    [|exists InvalidDay, w; turned_down Hin].
  assert (dayOfWeek ∈ validDays) as Hvalid.
  { apply existsb_exists in Hday. destruct Hday as (d & Hd & Heq).
    apply String.eqb_eq in Heq. subst d. by apply list_elem_of_In. }
  destruct (length allLocations =? 0)%nat;
    [exists NoLocations, w; turned_down Hin|].
  set (dayLocations := filter (λ loc, scheduledOn dayOfWeek loc = true) allLocations).
  assert (∀ locations,
            (∀ loc, loc ∈ locations →
                    selectedFor allLocations excludedLocationIds loc) →
            locations ≠ [] →
            ∃ reply w',
              (routes ← generateRoutesForDay
                          (ScheduledLocation.location <$> locations)
                          (Z.to_nat driverCount);
               mret (Generated routes)) w = (Ok reply, w')
              ∧ (reply = BadDriverCount ↔ ¬ (1 <= driverCount <= 10)%Z)
              ∧ (reply = NoneScheduled →
                   Forall (λ loc, scheduledOn dayOfWeek loc = false) allLocations)
              ∧ ∀ routes, reply = Generated routes →
                  dayOfWeek ∈ validDays
                  ∧ (1 <= length routes <= Z.to_nat driverCount)%nat
                  ∧ (length routes <= 10)%nat
                  ∧ (indicesInRange →
                       Forall (λ r,
                         Forall (λ d, ∃ loc,
                                   selectedFor allLocations excludedLocationIds loc
                                   ∧ deliveryOf (ScheduledLocation.location loc) d)
                                (sliceInner (Route.stopsJson r))) routes)) as Hgen.
  { intros locations Hsel Hne.
    destruct (generateRoutesForDay_summary
                (ScheduledLocation.location <$> locations) (Z.to_nat driverCount) w)
      as (routes & w' & Hrun & Hlen & Hstops); [lia|by destruct locations|].
    exists (Generated routes), w'. rewrite (bind_Ok _ _ _ _ _ Hrun).
    split; [done|]. split; [split; [done|intros Hout; by destruct (Hout Hin)]|].
    split; [done|].
    intros ? [= <-]. split; [done|]. split; [done|]. split; [lia|].
    intros Hrange. eapply Forall_impl; [exact (Hstops Hrange)|]. intros r Hr.
    eapply Forall_impl; [exact Hr|]. intros d (loc & Hloc & Hd).
    apply list_elem_of_fmap in Hloc. destruct Hloc as (sl & -> & Hsl).
    exists sl. split; [by apply Hsel|done]. }
  destruct (length dayLocations =? 0)%nat eqn:Hnone.
  { exists NoneScheduled, w. split; [done|].
    split; [split; [done|intros Hout; by destruct (Hout Hin)]|]. split; [|done].
    intros _. apply length_zero_iff in Hnone. apply Forall_forall. intros loc Hloc.
    destruct (scheduledOn dayOfWeek loc) eqn:Hs; [|done].
    assert (loc ∈ dayLocations) as Hin' by (by apply list_elem_of_filter).
    rewrite Hnone in Hin'. by apply elem_of_nil in Hin'. }
  apply length_eqb_zero in Hnone.
  destruct (String.eqb (orElseS scheduledDate "") "") eqn:Hdate; cbn [negb].
  - apply Hgen; [|done]. intros loc Hloc.
    apply list_elem_of_filter in Hloc. destruct Hloc as [Hs Hloc].
    split; [done|]. split; [done|]. intros Hd.
    apply String.eqb_eq in Hdate. done.
  - destruct (0 <? length excludedLocationIds)%nat eqn:Hex.
    + destruct (length (filter (λ loc, notExcluded excludedLocationIds loc = true)
                          dayLocations) =? 0)%nat eqn:Hleft;
        [exists AllExcluded, w; turned_down Hin|].
      apply length_eqb_zero in Hleft. apply Hgen; [|done]. intros loc Hloc.
      apply list_elem_of_filter in Hloc. destruct Hloc as [Hnot Hloc].
      apply list_elem_of_filter in Hloc. destruct Hloc as [Hs Hloc].
      split; [done|]. split; [done|]. intros _ Hin'.
      unfold notExcluded in Hnot. apply negb_true_iff in Hnot.
      assert (existsb (String.eqb (Location.id (ScheduledLocation.location loc)))
                excludedLocationIds = true) as Htrue; [|congruence].
      apply existsb_exists. eexists. split; [by apply list_elem_of_In|].
      apply String.eqb_refl.
    + rewrite (proj2 (length_eqb_zero dayLocations) Hnone).
      apply Hgen; [|done]. intros loc Hloc.
      apply list_elem_of_filter in Hloc. destruct Hloc as [Hs Hloc].
      split; [done|]. split; [done|]. intros _ Hin'.
      apply Nat.ltb_ge in Hex. destruct excludedLocationIds; [|simpl in Hex; lia].
      by apply elem_of_nil in Hin'.
Qed.

End Engine.

(** * The statements at the sample instance *)

(** Generation at the sample instance, with the key and the provider to
    choose. *)
#[local] Abbreviation sampleGenerate apiKey provider :=
  (generateRoutesForDay sampleSin sampleCos sampleSqrt sampleAtan2 samplePI
     apiKey provider sampleUuid None [] "2026-01-05" "monday" None).

Lemma sampleSqrt_nonneg x : 0 <= sampleSqrt x.
Proof. apply Qabs_nonneg. Qed.

Lemma sampleAtan2_nonneg y x : 0 <= y → 0 <= x → 0 <= sampleAtan2 y x.
Proof. intros _ _. apply Qabs_nonneg. Qed.

(** C1, as stated, fails: with one located stop, one driver and a provider
    that answers 10 km and 7 minutes, the route has distance 10 and time
    7, not [round(10 / 40 * 60) + 5 * 1 = 20], whether the quotient and
    the product are taken exactly or as doubles. *)
Lemma estimatedTime_formula_counterexample :
  ∃ r w' d,
    sampleGenerate (Some "key") reversingProvider [locA] 1 (mkWorld 0 0)
    = (Ok [r], w')
    ∧ Route.totalDistance r = Some d
    ∧ Route.estimatedTime r
      ≠ Some (Math_round (d / 40 * 60) + 5 * Z.of_nat (Route.stopCount r - 2))%Z
    ∧ Route.estimatedTime r
      ≠ Some (Math_round (double (double (double d / 40) * 60))
              + 5 * Z.of_nat (Route.stopCount r - 2))%Z.
Proof.
  eexists _, _, _. split; [vm_compute; reflexivity|].
  split; [reflexivity|]. split; vm_compute; discriminate.
Qed.

(** The minutes on the road are those of the double product: 41 km and
    one delivery stop take 61 + 5 minutes, 169 km take 253 + 5, where
    the exact products are 61.5 and 253.5; 40 km take 60 + 5. *)
Example heuristicTime_samples :
  heuristicTime (Some 41) 1 = 66%Z
  ∧ heuristicTime (Some 169) 1 = 258%Z
  ∧ heuristicTime (Some 40) 1 = 65%Z
  ∧ heuristicTime (Some (123 # 10)) 2 = 28%Z
  ∧ heuristicTime (Some 0) 3 = 45%Z
  ∧ heuristicTime None 3 = 45%Z.
Proof. repeat split; vm_compute; reflexivity. Qed.

(** The flat time is also what a route of distance 0 gets: a stop at the
    depot itself, the optimizer being unavailable, has distance 0 and time
    15, where [round(0 / 40 * 60) + 5 * 1] is 5. *)
Example zero_distance_flat_time :
  ∃ r w',
    sampleGenerate None silentProvider [locDepot] 1 (mkWorld 0 0) = (Ok [r], w')
    ∧ (∃ d, Route.totalDistance r = Some d ∧ d == 0)
    ∧ Route.estimatedTime r = Some 15%Z.
Proof.
  eexists _, _. split; [vm_compute; reflexivity|].
  split; [eexists; split; [reflexivity|reflexivity]|reflexivity].
Qed.

Lemma calculateRouteDistance_spec_witness :
  calculateRouteDistance sampleSin sampleCos sampleSqrt sampleAtan2 samplePI
    [sampleStop (Some 1) (Some 1) 1] = Some 0
  ∧ calculateRouteDistance sampleSin sampleCos sampleSqrt sampleAtan2 samplePI
      [sampleStop (Some 1) (Some 1) 1; sampleStop None (Some 2) 2;
       sampleStop (Some 3) (Some 3) 3] = None
  ∧ ∀ d,
      calculateRouteDistance sampleSin sampleCos sampleSqrt sampleAtan2 samplePI
        [sampleStop (Some 1) (Some 1) 1; sampleStop (Some 2) (Some 2) 2] = Some d →
      0 <= d.
Proof.
  split; [|split].
  - apply (calculateRouteDistance_spec sampleSin sampleCos sampleSqrt sampleAtan2
             samplePI sampleSqrt_nonneg sampleAtan2_nonneg
             [sampleStop (Some 1) (Some 1) 1]).
    simpl. lia.
  - apply (calculateRouteDistance_spec sampleSin sampleCos sampleSqrt sampleAtan2
             samplePI sampleSqrt_nonneg sampleAtan2_nonneg).
    exists 0%nat, (sampleStop (Some 1) (Some 1) 1), (sampleStop None (Some 2) 2).
    split; [reflexivity|]. split; [reflexivity|]. right. reflexivity.
  - apply (calculateRouteDistance_spec sampleSin sampleCos sampleSqrt sampleAtan2
             samplePI sampleSqrt_nonneg sampleAtan2_nonneg).
Defined.

Lemma kMeansClustering_partition_witness :
  ∃ clusters,
    kMeansClustering sampleSin sampleCos sampleSqrt sampleAtan2 samplePI
      [locA; locC; locN "x"; locB; locD] 2 = Some clusters
    ∧ concat clusters ≡ₚ filter (λ loc, located loc = true)
                           [locA; locC; locN "x"; locB; locD]
    ∧ Forall (λ cluster, cluster ≠ []) clusters
    ∧ (length clusters <= 2)%nat.
Proof.
  apply (kMeansClustering_partition sampleSin sampleCos sampleSqrt sampleAtan2
           samplePI [locA; locC; locN "x"; locB; locD] 2).
  lia.
Defined.

Lemma centroids_stay_defined_witness :
  ∃ st,
    kMeansLoop sampleSin sampleCos sampleSqrt sampleAtan2 samplePI 3
      [locA; locC; locB; locD] 2
      (initialState [locA; locC; locB; locD]
         [Centroid.mk (3929 # 100) (- (7661 # 100));
          Centroid.mk (3930 # 100) (- (7660 # 100))]) = Some st
    ∧ length (centroids st) = 2%nat
    ∧ ∃ st' stop,
        kMeansIteration sampleSin sampleCos sampleSqrt sampleAtan2 samplePI
          [locA; locC; locB; locD] 2 st = Some (st', stop)
        ∧ length (centroids st') = 2%nat
        ∧ ∀ c, (c < 2)%nat → centroidRule [locA; locC; locB; locD] st st' stop c.
Proof.
  apply (centroids_stay_defined sampleSin sampleCos sampleSqrt sampleAtan2 samplePI
           [locA; locC; locB; locD] 2).
  - lia.
  - reflexivity.
Defined.

Lemma kMeansClustering_singletons_witness :
  kMeansClustering sampleSin sampleCos sampleSqrt sampleAtan2 samplePI
    [locA; locN "x"; locB] 2
  = Some ((λ loc, [loc]) <$> filter (λ loc, located loc = true) [locA; locN "x"; locB])
  ∧ kMeansClustering sampleSin sampleCos sampleSqrt sampleAtan2 samplePI
      [locA; locB] 5 = Some [[locA]; [locB]]
  ∧ ∃ r1 r2 w',
      sampleGenerate (Some "key") reversingProvider [locA; locB] 5 (mkWorld 0 0)
      = (Ok [r1; r2], w').
Proof.
  destruct (kMeansClustering_singletons sampleSin sampleCos sampleSqrt sampleAtan2
              samplePI (Some "key") reversingProvider sampleUuid None []
              "2026-01-05" "monday" None) as [Hsingle Htwo].
  split.
  - apply Hsingle. vm_compute. lia.
  - apply (Htwo locA locB (mkWorld 0 0)); reflexivity.
Defined.

Lemma reversingProvider_inRange : indicesInRange reversingProvider.
Proof.
  intros n request ok route routes indices Hanswer Hidx.
  unfold reversingProvider in Hanswer. injection Hanswer as _ <- _.
  simpl in Hidx. injection Hidx as <-.
  apply Forall_fmap, Forall_forall. intros i Hi.
  apply elem_of_reverse, elem_of_seq in Hi. simpl. lia.
Qed.

Lemma optimizeRouteWithGoogle_never_throws_witness :
  (optimizeRouteWithGoogle None reversingProvider
     [sampleStop (Some 1) (Some 1) 1; sampleStop (Some 2) (Some 2) 2]
     (mkWorld 0 0)).1 = Ok None
  ∧ (optimizeRouteWithGoogle (Some "key") reversingProvider
       [sampleStop (Some 1) (Some 1) 1] (mkWorld 0 0)).1 = Ok None
  ∧ (optimizeRouteWithGoogle (Some "key") reversingProvider
       [sampleStop (Some 1) (Some 1) 1; sampleStop (Some 2) None 2]
       (mkWorld 0 0)).1 = Ok None
  ∧ (optimizeRouteWithGoogle (Some "key") silentProvider
       [sampleStop (Some 1) (Some 1) 1; sampleStop (Some 2) (Some 2) 2]
       (mkWorld 0 0)).1 = Ok None
  ∧ ∃ routes w',
      sampleGenerate None reversingProvider [locA; locB; locC] 2 (mkWorld 0 0)
      = (Ok routes, w')
      ∧ Forall (λ r, localMetrics sampleSin sampleCos sampleSqrt sampleAtan2 samplePI
                       r (Route.stopCount r - 2)) routes.
Proof.
  pose proof (optimizeRouteWithGoogle_never_throws sampleSin sampleCos sampleSqrt
                sampleAtan2 samplePI None reversingProvider sampleUuid None []
                "2026-01-05" "monday" None) as Hnokey.
  pose proof (optimizeRouteWithGoogle_never_throws sampleSin sampleCos sampleSqrt
                sampleAtan2 samplePI (Some "key") reversingProvider sampleUuid None []
                "2026-01-05" "monday" None) as Hkey.
  pose proof (optimizeRouteWithGoogle_never_throws sampleSin sampleCos sampleSqrt
                sampleAtan2 samplePI (Some "key") silentProvider sampleUuid None []
                "2026-01-05" "monday" None) as Hsilent.
  split; [|split; [|split; [|split]]].
  - destruct (Hnokey [sampleStop (Some 1) (Some 1) 1; sampleStop (Some 2) (Some 2) 2]
                (mkWorld 0 0)) as (_ & H & _).
    apply H. reflexivity.
  - destruct (Hkey [sampleStop (Some 1) (Some 1) 1] (mkWorld 0 0)) as (_ & _ & H & _).
    apply H. simpl. lia.
  - destruct (Hkey [sampleStop (Some 1) (Some 1) 1; sampleStop (Some 2) None 2]
                (mkWorld 0 0)) as (_ & _ & _ & H & _).
    apply H. exists (sampleStop (Some 2) None 2). split; [|reflexivity].
    apply list_elem_of_In. simpl. tauto.
  - destruct (Hsilent [sampleStop (Some 1) (Some 1) 1; sampleStop (Some 2) (Some 2) 2]
                (mkWorld 0 0)) as (_ & _ & _ & _ & H & _).
    apply (H (sampleStop (Some 1) (Some 1) 1) (sampleStop (Some 2) (Some 2) 2)).
    + reflexivity.
    + reflexivity.
    + left. reflexivity.
  - destruct (Hnokey [] (mkWorld 0 0)) as (_ & _ & _ & _ & _ & Hgen).
    destruct (Hgen [locA; locB; locC] 2%nat) as (routes & w' & Hrun & _ & Hlocal).
    exists routes, w'. split; [exact Hrun|]. apply Hlocal.
    intros stops' w0. destruct (Hnokey stops' w0) as (_ & H & _).
    apply H. reflexivity.
Defined.

Lemma generated_routes_bookended_witness :
  ∃ routes w',
    sampleGenerate (Some "key") reversingProvider [locA; locB; locC; locD] 2
      (mkWorld 0 0) = (Ok routes, w')
    ∧ Forall (λ r,
        RouteStop.sequence <$> Route.stopsJson r = seq 1 (Route.stopCount r)
        ∧ ∃ startId endId deliveries,
            Route.stopsJson r
            = [warehouseStop None [] startId 1 true] ++ deliveries
                ++ [warehouseStop None [] endId (length deliveries + 2) false]
            ∧ Forall (λ d, ∃ loc, loc ∈ [locA; locB; locC; locD] ∧ deliveryOf loc d)
                     deliveries) routes.
Proof.
  destruct (generated_routes_bookended sampleSin sampleCos sampleSqrt sampleAtan2
              samplePI (Some "key") reversingProvider sampleUuid None []
              "2026-01-05" "monday" None [locA; locB; locC; locD] 2 (mkWorld 0 0))
    as (routes & w' & Hrun & Hall).
  exists routes, w'. split; [exact Hrun|].
  eapply Forall_impl; [exact Hall|].
  intros r (Hseq & _ & startId & endId & deliveries & _ & _ & Hstops & _ & _ & _ & _ & Hdel).
  split; [exact Hseq|]. exists startId, endId, deliveries.
  split; [exact Hstops|]. apply Hdel, reversingProvider_inRange.
Defined.

Lemma fallback_blocks_witness :
  (∃ routes w',
     sampleGenerate (Some "key") reversingProvider [locA; locN "x"; locB] 2
       (mkWorld 0 0) = (Ok routes, w')
     ∧ (length routes <= 2)%nat)
  ∧ ∃ r1 r2 w',
      sampleGenerate (Some "key") reversingProvider
        [locN "a"; locN "b"; locN "c"; locN "d"; locN "e"] 2 (mkWorld 0 0)
      = (Ok [r1; r2], w')
      ∧ Route.totalDistance r1 = None ∧ Route.totalDistance r2 = None
      ∧ Route.estimatedTime r1 = Some 45%Z ∧ Route.estimatedTime r2 = Some 30%Z.
Proof.
  destruct (fallback_blocks sampleSin sampleCos sampleSqrt sampleAtan2
              samplePI (Some "key") reversingProvider sampleUuid None []
              "2026-01-05" "monday" None) as [Hgeneral Hfive].
  split.
  - destruct (Hgeneral [locA; locN "x"; locB] 2%nat (mkWorld 0 0))
      as (routes & w' & Hrun & Hlen & _).
    + lia.
    + exists (locN "x"). split; [|reflexivity].
      apply list_elem_of_In. simpl. tauto.
    + exists routes, w'. split; [exact Hrun | exact Hlen].
  - destruct (Hfive (locN "a") (locN "b") (locN "c") (locN "d") (locN "e") (mkWorld 0 0))
      as (r1 & r2 & w' & Hrun & _ & _ & Hd1 & Hd2 & Ht1 & Ht2).
    + repeat constructor.
    + exists r1, r2, w'. repeat split; assumption.
Defined.

Lemma generateGoogleMapsUrl_format_witness :
  generateGoogleMapsUrl
    [sampleStop (Some 1) (Some 1) 1; sampleStop (Some 2) (Some 2) 2]
  = "https://www.google.com/maps/dir/"
      +:+ join "/" (encodeURIComponent <$> ["1 Main St"; "1 Main St"]).
Proof.
  destruct (generateGoogleMapsUrl_format sampleSin sampleCos sampleSqrt sampleAtan2
              samplePI (Some "key") reversingProvider sampleUuid None []
              "2026-01-05" "monday" None) as [Hformat _].
  apply Hformat.
  - discriminate.
  - reflexivity.
Defined.

(** The link of the depot's address alone, percent-encoded. *)
Example generateGoogleMapsUrl_depot :
  generateGoogleMapsUrl [warehouseStop None [] "w" 1 true]
  = "https://www.google.com/maps/dir/3700%20Pennington%20Ave%20Baltimore%2C%20MD%2021226".
Proof. reflexivity. Qed.

(** ** The functions at work *)

Example kMeansClustering_sample :
  kMeansClustering sampleSin sampleCos sampleSqrt sampleAtan2 samplePI
    [locA; locC; locB; locN "x"; locD; locA] 2
  = Some [[locA; locB; locA]; [locC; locD]].
Proof. vm_compute. reflexivity. Qed.

Example nearestNeighborOrdering_sample :
  nearestNeighborOrdering sampleSin sampleCos sampleSqrt sampleAtan2 samplePI
    Location.lat Location.lng [locA; locC; locB; locD]
  = Some [locA; locB; locC; locD].
Proof. vm_compute. reflexivity. Qed.

Example parseInt_samples :
  parseInt "420" = Some 420%Z ∧ parseInt " -12px" = Some (-12)%Z
  ∧ parseInt "0x1f" = Some 31%Z ∧ parseInt "s" = None
  ∧ minutesOfDuration (Some "421s") = 8%Z.
Proof. repeat split; reflexivity. Qed.

(** The white space [parseInt] skips includes U+00A0 and U+FEFF, not
    U+200B. *)
Example parseInt_white_space :
  parseInt (String (ascii_of_nat 194) (String (ascii_of_nat 160) " 42s")) = Some 42%Z
  ∧ parseInt (String (ascii_of_nat 239) (String (ascii_of_nat 187)
               (String (ascii_of_nat 191) "7"))) = Some 7%Z
  ∧ parseInt (String (ascii_of_nat 226) (String (ascii_of_nat 128)
               (String (ascii_of_nat 139) "7"))) = None.
Proof. repeat split; reflexivity. Qed.

(** Text with characters of two, three and four bytes is well-formed;
    the bytes ED A0 80, which would stand for the lone surrogate U+D800,
    are not, nor is a tail byte alone. *)
Example wellFormedText_samples :
  wellFormedText "12 Rue de l'Église, Zürich 東京 🚚" = true
  ∧ wellFormedText (String (ascii_of_nat 237) (String (ascii_of_nat 160)
                      (String (ascii_of_nat 128) "A"))) = false
  ∧ wellFormedText (String (ascii_of_nat 128) "A") = false.
Proof. repeat split; reflexivity. Qed.

Example encodeURIComponent_sample :
  encodeURIComponent "Suite #4, 12 O'Neil St/B" = "Suite%20%234%2C%2012%20O'Neil%20St%2FB".
Proof. reflexivity. Qed.

(** The provider swaps two deliveries: the route visits B, then A, with
    the sequence numbers 1 to 4, and carries the provider's distance and
    time. *)
Example optimizer_swaps_two_deliveries :
  ∃ r w',
    sampleGenerate (Some "key") reversingProvider [locA; locB] 1 (mkWorld 0 0)
    = (Ok [r], w')
    ∧ RouteStop.locationId <$> Route.stopsJson r
      = [Some "warehouse"; Some "B"; Some "A"; Some "warehouse"]
    ∧ RouteStop.sequence <$> Route.stopsJson r = [1; 2; 3; 4]%nat
    ∧ Route.estimatedTime r = Some 7%Z
    ∧ ∃ d, Route.totalDistance r = Some d ∧ d == 10.
Proof.
  eexists _, _. split; [vm_compute; reflexivity|].
  repeat split; try reflexivity. eexists. split; reflexivity.
Qed.

(** * The further statements at the sample instance *)

Lemma closestCentroid_nearest_witness :
  ∃ cen,
    [Centroid.mk (3929 # 100) (- (7661 # 100));
     Centroid.mk (3940 # 100) (- (7650 # 100))]
      !! closestCentroid sampleSin sampleCos sampleSqrt sampleAtan2 samplePI
           [Centroid.mk (3929 # 100) (- (7661 # 100));
            Centroid.mk (3940 # 100) (- (7650 # 100))] locB = Some cen
    ∧ ∀ j cen',
        [Centroid.mk (3929 # 100) (- (7661 # 100));
         Centroid.mk (3940 # 100) (- (7650 # 100))] !! j = Some cen' →
        centroidDistance sampleSin sampleCos sampleSqrt sampleAtan2 samplePI locB cen
        <= centroidDistance sampleSin sampleCos sampleSqrt sampleAtan2 samplePI
             locB cen'.
Proof.
  destruct (closestCentroid_nearest sampleSin sampleCos sampleSqrt sampleAtan2
              samplePI
              [Centroid.mk (3929 # 100) (- (7661 # 100));
               Centroid.mk (3940 # 100) (- (7650 # 100))] locB)
    as (cen & Hcen & Hmin).
  - discriminate.
  - exists cen. split; [exact Hcen|]. intros j cen' Hj. apply (Hmin j cen' Hj).
Defined.

Lemma kMeansClustering_cells_witness :
  ∃ seeds before final stop,
    initCentroids (filter (λ loc, located loc = true)
                     [locA; locC; locN "x"; locB; locD]) 2 = Some seeds
    ∧ kMeansLoop sampleSin sampleCos sampleSqrt sampleAtan2 samplePI 19
        (filter (λ loc, located loc = true) [locA; locC; locN "x"; locB; locD]) 2
        (initialState (filter (λ loc, located loc = true)
                         [locA; locC; locN "x"; locB; locD]) seeds)
      = Some before
    ∧ kMeansIteration sampleSin sampleCos sampleSqrt sampleAtan2 samplePI
        (filter (λ loc, located loc = true) [locA; locC; locN "x"; locB; locD]) 2
        before
      = Some (final, stop)
    ∧ kMeansLoop sampleSin sampleCos sampleSqrt sampleAtan2 samplePI maxIterations
        (filter (λ loc, located loc = true) [locA; locC; locN "x"; locB; locD]) 2
        (initialState (filter (λ loc, located loc = true)
                         [locA; locC; locN "x"; locB; locD]) seeds)
      = Some final
    ∧ length (centroids before) = 2%nat
    ∧ Forall2 (nearestCentroid sampleSin sampleCos sampleSqrt sampleAtan2 samplePI
                 (centroids before))
        (filter (λ loc, located loc = true) [locA; locC; locN "x"; locB; locD])
        (assignments final)
    ∧ kMeansClustering sampleSin sampleCos sampleSqrt sampleAtan2 samplePI
        [locA; locC; locN "x"; locB; locD] 2
      = Some (filter (λ cluster, nonEmpty cluster = true)
                (membersOf (filter (λ loc, located loc = true)
                              [locA; locC; locN "x"; locB; locD])
                   (assignments final) <$> seq 0 2)).
Proof.
  apply (kMeansClustering_cells sampleSin sampleCos sampleSqrt sampleAtan2 samplePI
           [locA; locC; locN "x"; locB; locD] 2).
  - lia.
  - vm_compute. lia.
Defined.

Lemma kMeansIteration_stops_at_fixed_point_witness :
  kMeansLoop sampleSin sampleCos sampleSqrt sampleAtan2 samplePI 20
    [locA; locB] 1
    (mkKState [Centroid.mk (3929 # 100) (- (7661 # 100))] [0; 0]%nat)
  = Some (mkKState [Centroid.mk (3929 # 100) (- (7661 # 100))] [0; 0]%nat).
Proof.
  destruct (kMeansIteration_stops_at_fixed_point sampleSin sampleCos sampleSqrt
              sampleAtan2 samplePI [locA; locB] 1
              (mkKState [Centroid.mk (3929 # 100) (- (7661 # 100))] [0; 0]%nat)
              (mkKState [Centroid.mk (3929 # 100) (- (7661 # 100))] [0; 0]%nat)
              true) as [_ Hfix].
  - reflexivity.
  - vm_compute. reflexivity.
  - destruct (Hfix eq_refl) as [_ Hloop]. exact (Hloop 19%nat).
Defined.

Lemma reversingProvider_permutes : indicesPermute reversingProvider.
Proof.
  intros n request ok route routes indices Hanswer Hidx.
  unfold reversingProvider in Hanswer. injection Hanswer as _ <- _.
  simpl in Hidx. injection Hidx as <-.
  apply fmap_Permutation, reverse_Permutation.
Qed.

Lemma optimizeRouteWithGoogle_result_witness :
  ∃ g w',
    optimizeRouteWithGoogle (Some "key") reversingProvider
      [sampleStopOf "s1" "A" 1; sampleStopOf "s2" "B" 2; sampleStopOf "s3" "C" 3;
       sampleStopOf "s4" "D" 4] (mkWorld 0 0) = (Ok (Some g), w')
    ∧ RouteStop.sequence <$> optimizedStops g = seq 1 (length (optimizedStops g))
    ∧ w' = mkWorld 0 1
    ∧ unsequenced <$> optimizedStops g
      ≡ₚ unsequenced <$> [sampleStopOf "s1" "A" 1; sampleStopOf "s2" "B" 2;
                          sampleStopOf "s3" "C" 3; sampleStopOf "s4" "D" 4].
Proof.
  eexists _, _. split; [vm_compute; reflexivity|].
  destruct (optimizeRouteWithGoogle_result (Some "key") reversingProvider
              [sampleStopOf "s1" "A" 1; sampleStopOf "s2" "B" 2;
               sampleStopOf "s3" "C" 3; sampleStopOf "s4" "D" 4]
              (mkWorld 0 0) _ _ ltac:(vm_compute; reflexivity))
    as (origin & destination & _ & _ & Hseq & _ & _ & Hw & Hperm).
  split; [exact Hseq|]. split; [exact Hw|]. apply Hperm, reversingProvider_permutes.
Defined.

Lemma generateRoutesForDay_calls_witness :
  ∃ routes w',
    sampleGenerate (Some "key") reversingProvider [locA; locB; locC] 2 (mkWorld 0 0)
    = (Ok routes, w')
    ∧ uuids w' = (0 + 3 + 4 * length routes)%nat
    ∧ fetches w' = (0 + length routes)%nat.
Proof.
  destruct (generateRoutesForDay_calls sampleSin sampleCos sampleSqrt sampleAtan2
              samplePI (Some "key") reversingProvider sampleUuid None []
              "2026-01-05" "monday" None [locA; locB; locC] 2 (mkWorld 0 0))
    as (routes & w' & Hrun & Hu & _ & _ & Hf).
  - lia.
  - exists routes, w'. split; [exact Hrun|]. split; [exact Hu|].
    apply Hf; [discriminate|]. repeat constructor.
Defined.

Lemma generateRoutesForDay_covers_witness :
  ∃ routes w' groups,
    sampleGenerate (Some "key") reversingProvider [locA; locB; locC; locD] 2
      (mkWorld 0 0) = (Ok routes, w')
    ∧ concat groups ≡ₚ [locA; locB; locC; locD]
    ∧ Forall2 (λ locs r, Forall2 deliveryOf locs (sliceInner (Route.stopsJson r)))
              groups routes.
Proof.
  apply (generateRoutesForDay_covers sampleSin sampleCos sampleSqrt sampleAtan2
           samplePI (Some "key") reversingProvider sampleUuid None []
           "2026-01-05" "monday" None [locA; locB; locC; locD] 2 (mkWorld 0 0)).
  - lia.
  - apply reversingProvider_permutes.
Defined.

Lemma unusable_coordinate_flat_route_witness :
  ∃ routes w',
    sampleGenerate (Some "key") reversingProvider [locA; locEquator; locB] 1
      (mkWorld 0 0) = (Ok routes, w')
    ∧ ∃ r locs,
        r ∈ routes ∧ locEquator ∈ locs
        ∧ Forall2 deliveryOf locs (sliceInner (Route.stopsJson r))
        ∧ Route.totalDistance r = None
        ∧ Route.estimatedTime r = Some (15 * Z.of_nat (length locs))%Z.
Proof.
  apply (unusable_coordinate_flat_route sampleSin sampleCos sampleSqrt sampleAtan2
           samplePI (Some "key") reversingProvider sampleUuid None []
           "2026-01-05" "monday" None [locA; locEquator; locB] 1 (mkWorld 0 0)
           locEquator).
  - lia.
  - apply list_elem_of_In. simpl. tauto.
  - reflexivity.
Defined.

Lemma generateGoogleMapsUrl_round_trip_witness :
  addressesOfLink
    (generateGoogleMapsUrl [sampleStopOf "s1" "A" 1; sampleStopOf "s2" "B" 2])
  = Some ["1 Main St"; "1 Main St"].
Proof.
  apply (generateGoogleMapsUrl_round_trip
           [sampleStopOf "s1" "A" 1; sampleStopOf "s2" "B" 2]
           ["1 Main St"; "1 Main St"]).
  - discriminate.
  - reflexivity.
Defined.

Lemma calculateRouteDistance_prefix_witness :
  ∃ d' d,
    calculateRouteDistance sampleSin sampleCos sampleSqrt sampleAtan2 samplePI
      ([sampleStop (Some 1) (Some 1) 1; sampleStop (Some 2) (Some 2) 2]
         ++ [sampleStop (Some 3) (Some 3) 3]) = Some d'
    ∧ calculateRouteDistance sampleSin sampleCos sampleSqrt sampleAtan2 samplePI
        [sampleStop (Some 1) (Some 1) 1; sampleStop (Some 2) (Some 2) 2] = Some d
    ∧ d <= d'.
Proof.
  eexists. 
  destruct (calculateRouteDistance_prefix sampleSin sampleCos sampleSqrt sampleAtan2
              samplePI sampleSqrt_nonneg sampleAtan2_nonneg
              [sampleStop (Some 1) (Some 1) 1; sampleStop (Some 2) (Some 2) 2]
              [sampleStop (Some 3) (Some 3) 3] _ ltac:(vm_compute; reflexivity))
    as (d & Hd & Hle).
  exists d. split; [vm_compute; reflexivity|]. split; [exact Hd|exact Hle].
Defined.

Lemma moveStop_between_routes_witness :
  ∃ fromStops toStops table',
    moveStop (mkMoveStop "s2" "r1" "r2" 1) sampleTable
    = (Moved (Some (Row.withStops
                      (sampleRow "r1" "assigned"
                         [sampleStopOf "s1" "A" 1; sampleStopOf "s2" "B" 2])
                      fromStops))
             (Some (Row.withStops (sampleRow "r2" "draft" [sampleStopOf "s3" "C" 1])
                      toStops)),
       table')
    ∧ RouteStop.sequence <$> fromStops = seq 1 (length fromStops)
    ∧ RouteStop.sequence <$> toStops = seq 1 (length toStops)
    ∧ unsequenced <$> toStops !! 0%nat = Some (unsequenced (sampleStopOf "s2" "B" 2)).
Proof.
  destruct (moveStop_between_routes (mkMoveStop "s2" "r1" "r2" 1) sampleTable
              (sampleRow "r1" "assigned"
                 [sampleStopOf "s1" "A" 1; sampleStopOf "s2" "B" 2])
              (sampleRow "r2" "draft" [sampleStopOf "s3" "C" 1])
              1 (sampleStopOf "s2" "B" 2))
    as (fromStops & toStops & table' & Hrun & _ & _ & _ & Hfrom & Hto & _ & Hat & _).
  - reflexivity.
  - discriminate.
  - reflexivity.
  - reflexivity.
  - vm_compute. reflexivity.
  - exists fromStops, toStops, table'. split; [exact Hrun|].
    split; [exact Hfrom|]. split; [exact Hto|exact Hat].
Defined.

Lemma moveStop_within_route_witness :
  ∃ fromRow stops table',
    moveStop (mkMoveStop "s1" "r1" "r1" 2) sampleTable
    = (Moved fromRow
             (Some (Row.withStops
                      (sampleRow "r1" "assigned"
                         [sampleStopOf "s1" "A" 1; sampleStopOf "s2" "B" 2])
                      stops)),
       table')
    ∧ length stops = 3%nat.
Proof.
  destruct (moveStop_within_route (mkMoveStop "s1" "r1" "r1" 2) sampleTable
              (sampleRow "r1" "assigned"
                 [sampleStopOf "s1" "A" 1; sampleStopOf "s2" "B" 2])
              0 (sampleStopOf "s1" "A" 1))
    as (fromRow & stops & table' & Hrun & _ & Hlen & _).
  - reflexivity.
  - reflexivity.
  - reflexivity.
  - vm_compute. reflexivity.
  - exists fromRow, stops, table'. split; [exact Hrun|exact Hlen].
Defined.

Lemma createManualRoutes_created_witness :
  ∃ createdRoutes,
    createManualRoutes sampleSin sampleCos sampleSqrt sampleAtan2 samplePI
      sampleUuid None [sampleWarehouse] [sampleManualRoute] (mkWorld 0 0)
    = (Ok (ManualCreated createdRoutes), mkWorld (0 + 2 * 1) 0)
    ∧ Forall2 (λ routeInfo r,
         Route.stopCount r = (length (ManualRoute.stops routeInfo) + 2)%nat
         ∧ RouteStop.sequence <$> Route.stopsJson r = seq 1 (Route.stopCount r))
        [sampleManualRoute] createdRoutes.
Proof.
  destruct (createManualRoutes_created sampleSin sampleCos sampleSqrt sampleAtan2
              samplePI sampleUuid None [sampleWarehouse] [sampleManualRoute]
              (mkWorld 0 0)) as (routes & Hrun & Hall).
  - reflexivity.
  - repeat constructor.
  - exists routes. split; [exact Hrun|].
    eapply Forall2_impl; [exact Hall|].
    intros routeInfo r (_ & _ & _ & _ & Hcount & Hseq & _). split; assumption.
Defined.


Lemma refreshRoute_unlocated_witness :
  ∃ u,
    refreshRoute sampleSin sampleCos sampleSqrt sampleAtan2 samplePI (Some "key")
      reversingProvider [locA; locN "B"]
      (sampleRow "r1" "assigned" [sampleStopOf "s1" "A" 1; sampleStopOf "s2" "B" 2])
      (mkWorld 0 0) = (Ok (Some u), mkWorld 0 0)
    ∧ refreshedDistance u = None ∧ refreshedTime u = None.
Proof.
  destruct (refreshRoute_unlocated sampleSin sampleCos sampleSqrt sampleAtan2
              samplePI (Some "key") reversingProvider [locA; locN "B"]
              (sampleRow "r1" "assigned"
                 [sampleStopOf "s1" "A" 1; sampleStopOf "s2" "B" 2])
              (mkWorld 0 0) (sampleStopOf "s2" "B" 2) None None)
    as (u & Hrun & _ & _ & Hd & Ht).
  - apply list_elem_of_In. simpl. tauto.
  - reflexivity.
  - left. split; [reflexivity|]. exists 1. reflexivity.
  - exists u. split; [exact Hrun|]. split; assumption.
Defined.

Lemma publish_unpublish_witness :
  publishRoutes (reverse sampleTable) sampleTable = publishedRow <$> sampleTable
  ∧ unpublishRoutes (Some "2026-01-05") sampleTable sampleTable 0
    = (length (filter (λ r, toUnpublish (Some "2026-01-05") r = true) sampleTable),
       unpublishedRow (Some "2026-01-05") <$> sampleTable)
  ∧ (unpublishRoutes None (publishedRow <$> sampleTable)
       (publishRoutes sampleTable sampleTable) 0).2 = sampleTable.
Proof.
  destruct (publish_unpublish sampleTable) as (Hpub & Hunpub & Hback).
  - apply (bool_decide_unpack _). vm_compute. exact I.
  - split; [apply Hpub, reverse_Permutation|].
    split; [by apply Hunpub|].
    apply Hback; [repeat constructor; discriminate|reflexivity|].
    rewrite Hpub; reflexivity.
Defined.

Lemma geocodeBatch_spec_witness :
  ∃ results st',
    geocodeBatch (Some "key") sampleGeocoder
      [sampleInsertLocation "1 Main St" None None;
       sampleInsertLocation "2 Main St" (Some 1) (Some 1);
       sampleInsertLocation "3 Main St" (Some 1) None] 2 200 (mkGeoState 0 [])
    = Some (results, st')
    ∧ requests st' = 2%nat
    ∧ delays st' = [200].
Proof.
  destruct (geocodeBatch_spec (Some "key") sampleGeocoder
              [sampleInsertLocation "1 Main St" None None;
               sampleInsertLocation "2 Main St" (Some 1) (Some 1);
               sampleInsertLocation "3 Main St" (Some 1) None] 2 200
              (mkGeoState 0 []))
    as (results & st' & Hrun & _ & Hreq & Hdelays & _).
  - lia.
  - exists results, st'. split; [exact Hrun|]. split; [exact Hreq|exact Hdelays].
Defined.

Lemma geocodeBatch_batching_witness :
  ∃ results st1 st2,
    geocodeBatch (Some "key") sampleGeocoder
      [sampleInsertLocation "1 Main St" None None;
       sampleInsertLocation "2 Main St" (Some 1) (Some 1);
       sampleInsertLocation "3 Main St" (Some 1) None] 5 200 (mkGeoState 0 [])
    = Some (results, st1)
    ∧ geocodeBatch (Some "key") sampleGeocoder
        [sampleInsertLocation "1 Main St" None None;
         sampleInsertLocation "2 Main St" (Some 1) (Some 1);
         sampleInsertLocation "3 Main St" (Some 1) None] 1 50 (mkGeoState 0 [])
      = Some (results, st2)
    ∧ requests st1 = requests st2.
Proof.
  destruct (geocodeBatch_batching (Some "key") sampleGeocoder
              [sampleInsertLocation "1 Main St" None None;
               sampleInsertLocation "2 Main St" (Some 1) (Some 1);
               sampleInsertLocation "3 Main St" (Some 1) None] 5 1 200 50
              (mkGeoState 0 []))
    as (results & st1 & st2 & Hrun1 & Hrun2 & Hreq & _).
  - lia.
  - lia.
  - exists results, st1, st2. split; [exact Hrun1|]. split; [exact Hrun2|exact Hreq].
Defined.

Lemma minutesOfDuration_seconds_witness :
  minutesOfDuration (Some "90s") = 2%Z
  ∧ minutesOfDuration (Some "90.5s") = 2%Z
  ∧ minutesOfDuration (Some "60.5s") = 1%Z.
Proof.
  destruct (minutesOfDuration_seconds [9; 0]%nat "5s") as (Hs & Hf & _).
  - discriminate.
  - repeat constructor; lia.
  - vm_compute. reflexivity.
  - destruct (minutesOfDuration_seconds [6; 0]%nat "5s") as (_ & Hf' & _).
    + discriminate.
    + repeat constructor; lia.
    + vm_compute. reflexivity.
    + split; [exact Hs|]. split; [exact Hf|exact Hf'].
Defined.

Lemma generateForDay_selects_witness :
  ∃ handler reply w',
    generateForDay sampleSin sampleCos sampleSqrt sampleAtan2 samplePI
      (Some "key") reversingProvider sampleUuid None [] "2026-01-05" "monday"
      (Some "2026-01-05") 2
      [sampleScheduled locA ["monday"]; sampleScheduled locB ["tuesday"];
       sampleScheduled locC ["monday"; "friday"]; sampleScheduled locD ["monday"]]
      ["D"] = Some handler
    ∧ handler (mkWorld 0 0) = (Ok reply, w')
    ∧ ∀ routes, reply = Generated routes →
        (1 <= length routes <= 2)%nat
        ∧ Forall (λ r,
            Forall (λ d, ∃ loc,
                      selectedFor "monday" (Some "2026-01-05")
                        [sampleScheduled locA ["monday"];
                         sampleScheduled locB ["tuesday"];
                         sampleScheduled locC ["monday"; "friday"];
                         sampleScheduled locD ["monday"]] ["D"] loc
                      ∧ deliveryOf (ScheduledLocation.location loc) d)
                   (sliceInner (Route.stopsJson r))) routes.
Proof.
  eexists.
  destruct (generateForDay_selects sampleSin sampleCos sampleSqrt sampleAtan2
              samplePI (Some "key") reversingProvider sampleUuid None []
              "2026-01-05" "monday" (Some "2026-01-05") 2
              [sampleScheduled locA ["monday"]; sampleScheduled locB ["tuesday"];
               sampleScheduled locC ["monday"; "friday"];
               sampleScheduled locD ["monday"]]
              ["D"] _ (mkWorld 0 0) eq_refl)
    as (reply & w' & Hrun & _ & _ & Hgen).
  exists reply, w'. split; [reflexivity|]. split; [exact Hrun|].
  intros routes Hreply. destruct (Hgen routes Hreply) as (_ & Hlen & _ & Hstops).
  split; [exact Hlen|]. apply Hstops, reversingProvider_inRange.
Defined.
